(** * Audio-reactive particle fluid: simulation core, worker pool, quality controller

    A shallow embedding of [src/js/main.js] (class [FluidSimulation]),
    [src/js/workers/WorkerPool.js] and
    [src/js/optimization/OptimizationManager.js].

    JavaScript numbers are IEEE-754 binary64 values, so they are embedded as
    Rocq's primitive [float]s: [0/0] is [nan], comparisons with [nan] are
    false, and a [Float32Array] store rounds to binary32. *)

From Stdlib Require Import ZArith Lia Bool Floats.
From stdpp Require Import base option list strings.

Set Warnings "-inexact-float".
Set Default Proof Using "Type".

Local Open Scope Z_scope.

(** ** JavaScript numbers and the built-ins the sources call *)

Module JS.

(** A JavaScript number is a binary64 value. *)
Abbreviation number := float (only parsing).

(** [ToBoolean] on a number: [NaN], [+0] and [-0] are falsy. *)
Definition truthy (x : number) : bool := negb (is_nan x || is_zero x).

(** Reading an array slot yields a number or [undefined] ([None]);
    [undefined] in arithmetic is [NaN]. *)
Definition ToNumber (v : option number) : number :=
  match v with Some x => x | None => nan end.

(** [v || 0] for a slot read: a falsy value is replaced by [0]. *)
Definition or_zero (v : option number) : number :=
  match v with
  | Some x => if truthy x then x else 0%float
  | None => 0%float
  end.

(** [Math.fround]: rounding to the nearest binary32 value, ties to even;
    what a [Float32Array] store does to the number it is given. *)
Definition fround (x : number) : number :=
  match Prim2SF x with
  | S754_finite s m e => SF2Prim (binary_round 24 128 s m e)
  | _ => x
  end.

(** [Math.floor]. *)
Definition Math_floor (x : number) : number :=
  match Prim2SF x with
  | S754_finite s m e =>
      if 0 <=? e then x
      else
        let q := Z.shiftr (Zpos m) (- e) in
        let exact := Zpos m =? Z.shiftl q (- e) in
        let n := if s then (if exact then q else q + 1) else q in
        let f := of_uint63 (Uint63.of_Z n) in
        if s then (- f)%float else f
  | _ => x
  end.

(** [Math.min] of two arguments: [NaN] is contagious and [-0 < +0]. *)
Definition Math_min (x y : number) : number :=
  if is_nan x || is_nan y then nan
  else if (x <? y)%float then x
  else if (y <? x)%float then y
  else if get_sign x then x else y.

Definition Math_sqrt (x : number) : number := sqrt x.

(** The length of an array as a number. *)
Definition of_nat (n : nat) : number := of_uint63 (Uint63.of_Z (Z.of_nat n)).

(** Built-ins whose values the engine only approximates; the embedding
    takes them from the host. *)
Class MathLib := {
  Math_sin : number -> number;
  Math_cos : number -> number;
  Math_atan2 : number -> number -> number;
  Math_pow : number -> number -> number
}.

(** Number-to-string conversion, as far as map keys need it: it is
    injective on numbers except that [-0] and [+0] both print as ["0"].
    A printed number is represented by the number that prints it. *)
Definition ToString (x : number) : number :=
  if is_zero x then 0%float else x.

(** The [%] operator on numbers: the exact remainder of the truncated
    division, with the sign of the dividend. *)
Definition rem (x y : number) : number :=
  match Prim2SF x, Prim2SF y with
  | S754_nan, _ | _, S754_nan => nan
  | S754_infinity _, _ | _, S754_zero _ => nan
  | S754_zero _, _ | _, S754_infinity _ => x
  | S754_finite sx mx ex, S754_finite _ my ey =>
      let e := Z.min ex ey in
      let r := Z.rem (Z.shiftl (Zpos mx) (ex - e)) (Z.shiftl (Zpos my) (ey - e)) in
      SF2Prim (binary_normalize prec emax (if sx then - r else r) e sx)
  end.

(** The length argument of [new Array(n)] and [new Float32Array(n)]: a
    number that is a non-negative integer below [2^32]; anything else
    raises a [RangeError] ([None]). *)
Definition ToLength (x : number) : option nat :=
  match Prim2SF x with
  | S754_zero _ => Some 0%nat
  | S754_finite false m e =>
      let n := if 0 <=? e then Z.shiftl (Zpos m) e else Z.shiftr (Zpos m) (- e) in
      if ((0 <=? e) || (Zpos m =? Z.shiftl n (- e))) && (n <? 2 ^ 32)
      then Some (Z.to_nat n) else None
  | _ => None
  end.

(** A [for] loop over the indices [l] whose body may throw. *)
Fixpoint forM {A S : Type} (l : list A) (body : A -> S -> option S) (s : S) : option S :=
  match l with
  | [] => Some s
  | a :: l' => match body a s with Some s' => forM l' body s' | None => None end
  end.

(** The values [0, step, 2*step, ...] below [stop] that
    [for (i = 0; i < stop; i += step)] visits. *)
Definition steps (stop step : nat) : list nat :=
  (fun k => (k * step)%nat) <$> seq 0 (Nat.div (stop + step - 1) step).

End JS.


Example rem_ex : JS.rem 500%float 360%float = 140%float /\ JS.rem (-7.5)%float 2%float = (-1.5)%float
  /\ JS.rem 5%float 0%float = nan /\ JS.ToLength 12%float = Some 12%nat /\ JS.ToLength 1.5%float = None
  /\ JS.steps 250 100 = [0;100;200]%nat /\ JS.steps 0 0 = [] /\ JS.steps 200 100 = [0;100]%nat.
Proof. vm_compute. repeat split; reflexivity. Qed.

(** ** Particles ([main.js], the objects pushed by [initializeParticles]) *)

Module Particle.
Import JS.

(** [color] holds the hue of the string [hsl(<hue>, 70%, 60%)]. *)
Record t := mk {
  x : number;
  y : number;
  vx : number;
  vy : number;
  life : number;
  color : number;
  size : number
}.

Definition set_pos (p : t) (x' y' : number) : t :=
  mk x' y' (vx p) (vy p) (life p) (color p) (size p).

Definition set_vel (p : t) (vx' vy' : number) : t :=
  mk (x p) (y p) vx' vy' (life p) (color p) (size p).

End Particle.

(** ** The simulation core ([main.js], class [FluidSimulation]) *)

Module FluidSimulation.
Import JS.

(** A [Float32Array]: a fixed-length buffer whose stores round to binary32
    and are dropped when the index is out of range. *)
Abbreviation Float32Array := (list number) (only parsing).

Definition new_Float32Array (n : nat) : Float32Array := replicate n 0%float.

Definition f32_set (i : nat) (v : number) (a : Float32Array) : Float32Array :=
  <[i := fround v]> a.

Record Params := mkParams {
  viscosity : number;
  density : number;
  speed : number;
  particleCount : nat;
  resolution : number
}.

(** The [params] argument of the constructor: every property is optional. *)
Record ParamsArg := mkParamsArg {
  arg_viscosity : option number;
  arg_density : option number;
  arg_speed : option number;
  arg_particleCount : option nat;
  arg_resolution : option number
}.

(** Keys of the spatial hash: the two printed cell coordinates of
    [`${cellX},${cellY}`]. *)
Abbreviation key := (number * number)%type (only parsing).

Definition key_eqb (k1 k2 : key) : bool :=
  PrimFloat.Leibniz.eqb (fst k1) (fst k2) && PrimFloat.Leibniz.eqb (snd k1) (snd k2).

(** A [Map] with array values, in insertion order. *)
Abbreviation SpatialHash := (list ((number * number) * list nat)) (only parsing).

Definition hash_has (k : key) (h : SpatialHash) : bool :=
  existsb (fun e => key_eqb (fst e) k) h.

Definition hash_get (k : key) (h : SpatialHash) : option (list nat) :=
  snd <$> find (fun e => key_eqb (fst e) k) h.

(** [h.get(k).push(i)]: the array stored under [k] is extended in place. *)
Fixpoint hash_push (k : key) (i : nat) (h : SpatialHash) : SpatialHash :=
  match h with
  | [] => []
  | e :: h' => if key_eqb (fst e) k then (fst e, snd e ++ [i]) :: h'
               else e :: hash_push k i h'
  end.

Record t := mk {
  width : number;
  height : number;
  params : Params;
  particles : list Particle.t;
  velocityField : list (number * number);
  pressureField : Float32Array;
  useGPU : bool;
  useWorkers : bool;
  useSpatialHashing : bool;
  spatialHash : SpatialHash;
  cellSize : number;
  forces : Float32Array;
  positions : Float32Array;
  velocities : Float32Array;
  currentScene : string;
  audioInfluence : number
}.

Definition set_params (s : t) (v : Params) : t :=
  mk (width s) (height s) v (particles s) (velocityField s) (pressureField s)
     (useGPU s) (useWorkers s) (useSpatialHashing s) (spatialHash s) (cellSize s)
     (forces s) (positions s) (velocities s) (currentScene s) (audioInfluence s).

Definition set_particles (s : t) (v : list Particle.t) : t :=
  mk (width s) (height s) (params s) v (velocityField s) (pressureField s)
     (useGPU s) (useWorkers s) (useSpatialHashing s) (spatialHash s) (cellSize s)
     (forces s) (positions s) (velocities s) (currentScene s) (audioInfluence s).

Definition set_fields (s : t) (w h : number) (vf : list (number * number))
    (pf : Float32Array) : t :=
  mk w h (params s) (particles s) vf pf
     (useGPU s) (useWorkers s) (useSpatialHashing s) (spatialHash s) (cellSize s)
     (forces s) (positions s) (velocities s) (currentScene s) (audioInfluence s).

Definition set_spatialHash (s : t) (v : SpatialHash) : t :=
  mk (width s) (height s) (params s) (particles s) (velocityField s) (pressureField s)
     (useGPU s) (useWorkers s) (useSpatialHashing s) v (cellSize s)
     (forces s) (positions s) (velocities s) (currentScene s) (audioInfluence s).

Definition set_forces (s : t) (v : Float32Array) : t :=
  mk (width s) (height s) (params s) (particles s) (velocityField s) (pressureField s)
     (useGPU s) (useWorkers s) (useSpatialHashing s) (spatialHash s) (cellSize s)
     v (positions s) (velocities s) (currentScene s) (audioInfluence s).

Definition set_buffers (s : t) (f p v : Float32Array) : t :=
  mk (width s) (height s) (params s) (particles s) (velocityField s) (pressureField s)
     (useGPU s) (useWorkers s) (useSpatialHashing s) (spatialHash s) (cellSize s)
     f p v (currentScene s) (audioInfluence s).

Definition set_currentScene (s : t) (v : string) : t :=
  mk (width s) (height s) (params s) (particles s) (velocityField s) (pressureField s)
     (useGPU s) (useWorkers s) (useSpatialHashing s) (spatialHash s) (cellSize s)
     (forces s) (positions s) (velocities s) v (audioInfluence s).

Definition set_audioInfluence (s : t) (v : number) : t :=
  mk (width s) (height s) (params s) (particles s) (velocityField s) (pressureField s)
     (useGPU s) (useWorkers s) (useSpatialHashing s) (spatialHash s) (cellSize s)
     (forces s) (positions s) (velocities s) (currentScene s) v.

(** [getParticleColor]: the golden-angle hue of particle [index]. *)
Definition getParticleColor (index : nat) : number :=
  rem (of_nat index * 137.508)%float 360%float.

(** One turn of the loop of [initializeParticles]; [rnd] lists the values
    the successive calls of [Math.random()] return. *)
Definition initializeParticle (rnd : nat -> number) (i : nat) (s : t) : t :=
  let p := Particle.mk
             (rnd (5 * i)%nat * width s)%float
             (rnd (5 * i + 1)%nat * height s)%float
             ((rnd (5 * i + 2)%nat - 0.5) * 2)%float
             ((rnd (5 * i + 3)%nat - 0.5) * 2)%float
             1%float
             (getParticleColor i)
             (rnd (5 * i + 4)%nat * 3 + 1)%float in
  let ps := particles s ++ [p] in
  let q := default p (ps !! i) in
  mk (width s) (height s) (params s) ps (velocityField s) (pressureField s)
     (useGPU s) (useWorkers s) (useSpatialHashing s) (spatialHash s) (cellSize s)
     (forces s)
     (f32_set (i * 2 + 1) (Particle.y q) (f32_set (i * 2) (Particle.x q) (positions s)))
     (f32_set (i * 2 + 1) (Particle.vy q) (f32_set (i * 2) (Particle.vx q) (velocities s)))
     (currentScene s) (audioInfluence s).

Definition initializeParticles (rnd : nat -> number) (s : t) : t :=
  foldl (fun s i => initializeParticle rnd i s) (set_particles s [])
        (seq 0 (particleCount (params s))).

(** [initializeFields]; [new Array(n)] and [new Float32Array(n)] throw when
    [n] is not an array length. *)
Definition initializeFields (s : t) : option t :=
  let fieldWidth := Math_floor (width s / 10)%float in
  let fieldHeight := Math_floor (height s / 10)%float in
  n ← ToLength (fieldWidth * fieldHeight)%float;
  Some (set_fields s (width s) (height s) (replicate n (0%float, 0%float))
                   (new_Float32Array n)).

(** The constructor. *)
Definition new (rnd : nat -> number) (width height : number) (a : ParamsArg) : option t :=
  let ps := mkParams (default 0.0001%float (arg_viscosity a))
                     (default 1%float (arg_density a))
                     (default 1%float (arg_speed a))
                     (default 1000%nat (arg_particleCount a))
                     (default 1%float (arg_resolution a)) in
  let n := (particleCount ps * 2)%nat in
  initializeFields
    (initializeParticles rnd
       (mk width height ps [] [] [] true true true [] 20%float
           (new_Float32Array n) (new_Float32Array n) (new_Float32Array n)
           "default" 0%float)).

(** [applyParticleForces]: the force on one particle; [now] is what
    [Date.now()] returns during the call. *)
Definition sceneForce `{M : MathLib} (now : number) (s : t) (particle : Particle.t)
    : number * number :=
  if String.eqb (currentScene s) "vortex" then
    let centerX := (width s / 2)%float in
    let centerY := (height s / 2)%float in
    let dx := (Particle.x particle - centerX)%float in
    let dy := (Particle.y particle - centerY)%float in
    let distance := Math_sqrt (dx * dx + dy * dy)%float in
    if (0 <? distance)%float then
      let strength := (100 / (distance + 1))%float in
      ((- dy * strength * audioInfluence s)%float, (dx * strength * audioInfluence s)%float)
    else (0%float, 0%float)
  else if String.eqb (currentScene s) "wave" then
    let waveForce := (Math_sin (Particle.x particle * 0.01 + now * 0.001) * 50)%float in
    (0%float, (waveForce * audioInfluence s)%float)
  else if String.eqb (currentScene s) "spiral" then
    let spiralAngle := Math_atan2 (Particle.y particle - height s / 2)%float
                                  (Particle.x particle - width s / 2)%float in
    let spiralRadius := Math_sqrt (Math_pow (Particle.x particle - width s / 2)%float 2%float
                                   + Math_pow (Particle.y particle - height s / 2)%float 2%float)%float in
    ((Math_cos (spiralAngle + spiralRadius * 0.01) * 30 * audioInfluence s)%float,
     (Math_sin (spiralAngle + spiralRadius * 0.01) * 30 * audioInfluence s)%float)
  else (0%float, 0%float).

Definition particleForce `{M : MathLib} (now : number) (s : t) (particle : Particle.t)
    : number * number :=
  let f := sceneForce now s particle in
  ((fst f - Particle.vx particle * viscosity (params s))%float,
   (snd f - Particle.vy particle * viscosity (params s))%float).

Definition applyParticleForces `{M : MathLib} (now : number) (particle : Particle.t)
    (index : nat) (dt : number) (s : t) : t :=
  let f := particleForce now s particle in
  set_forces s (f32_set (index * 2 + 1) (snd f) (f32_set (index * 2) (fst f) (forces s))).

Definition handleBoundaries (s : t) (particle : Particle.t) : Particle.t :=
  let damping := 0.8%float in
  let p1 :=
    if (Particle.x particle <? 0)%float then
      Particle.set_vel (Particle.set_pos particle 0%float (Particle.y particle))
        (- Particle.vx particle * damping)%float (Particle.vy particle)
    else if (width s <? Particle.x particle)%float then
      Particle.set_vel (Particle.set_pos particle (width s) (Particle.y particle))
        (- Particle.vx particle * damping)%float (Particle.vy particle)
    else particle in
  if (Particle.y p1 <? 0)%float then
    Particle.set_vel (Particle.set_pos p1 (Particle.x p1) 0%float)
      (Particle.vx p1) (- Particle.vy p1 * damping)%float
  else if (height s <? Particle.y p1)%float then
    Particle.set_vel (Particle.set_pos p1 (Particle.x p1) (height s))
      (Particle.vx p1) (- Particle.vy p1 * damping)%float
  else p1.

Definition cellKey (s : t) (particle : Particle.t) : key :=
  let cellX := Math_floor (Particle.x particle / cellSize s)%float in
  let cellY := Math_floor (Particle.y particle / cellSize s)%float in
  (ToString cellX, ToString cellY).

Definition updateSpatialHash (particle : Particle.t) (index : nat) (s : t) : t :=
  let k := cellKey s particle in
  let h := if hash_has k (spatialHash s) then spatialHash s
           else spatialHash s ++ [(k, [])] in
  set_spatialHash s (hash_push k index h).

(** The motion of one particle in [updateParticleBatch], between the force
    computation and the boundary handling; [fx], [fy] are [forces[i*2]] and
    [forces[i*2+1]] as read back from the buffer. *)
Definition integrate (s : t) (dt fx fy : number) (particle : Particle.t) : Particle.t :=
  let vx1 := (Particle.vx particle + fx * dt)%float in
  let vy1 := (Particle.vy particle + fy * dt)%float in
  let vx2 := (vx1 * 0.99)%float in
  let vy2 := (vy1 * 0.99)%float in
  let x1 := (Particle.x particle + vx2 * dt * speed (params s))%float in
  let y1 := (Particle.y particle + vy2 * dt * speed (params s))%float in
  Particle.set_vel (Particle.set_pos particle x1 y1) vx2 vy2.

(** One turn of the loop of [updateParticleBatch]. Reading a property of
    [particles[i]] throws when the slot is empty. *)
Definition updateParticle `{M : MathLib} (now : nat -> number) (dt : number) (i : nat) (s : t)
    : option t :=
  particle ← particles s !! i;
  let s1 := applyParticleForces (now i) particle i dt s in
  let p1 := integrate s1 dt (ToNumber (forces s1 !! (i * 2)%nat))
                      (ToNumber (forces s1 !! (i * 2 + 1)%nat)) particle in
  let p2 := handleBoundaries s1 p1 in
  let s2 := set_particles s1 (<[i := p2]> (particles s1)) in
  let s3 := if useSpatialHashing s2 then updateSpatialHash p2 i s2 else s2 in
  Some (set_buffers s3 (forces s3)
          (f32_set (i * 2 + 1) (Particle.y p2) (f32_set (i * 2) (Particle.x p2) (positions s3)))
          (f32_set (i * 2 + 1) (Particle.vy p2) (f32_set (i * 2) (Particle.vx p2) (velocities s3)))).

Definition updateParticleBatch `{M : MathLib} (now : nat -> number) (start end_ : nat)
    (dt : number) (s : t) : option t :=
  forM (seq start (end_ - start)) (updateParticle now dt) s.

Definition updateAudioInfluence (audioData : list number) (s : t) : t :=
  let sum := foldl (fun sum a => (sum + a)%float) 0%float audioData in
  set_audioInfluence s ((sum / of_nat (length audioData)) / 255)%float.

Definition applySceneForces (dt : number) (s : t) : t := s.

Definition updateVelocityField (dt : number) (s : t) : t :=
  set_fields s (width s) (height s)
    ((fun v => ((fst v * 0.95)%float, (snd v * 0.95)%float)) <$> velocityField s)
    (pressureField s).

(** [update(deltaTime, audioData)]; [audioData] is [None] for [null]. An
    array, also the empty one, is truthy. *)
Definition update `{M : MathLib} (now : nat -> number) (deltaTime : number)
    (audioData : option (list number)) (s : t) : option t :=
  let dt := Math_min (deltaTime / 1000)%float 0.016%float in
  let s1 := match audioData with
            | Some a => updateAudioInfluence a s
            | None => s
            end in
  let s2 := if useSpatialHashing s1 then set_spatialHash s1 [] else s1 in
  let batchSize := 100%nat in
  s3 ← forM (steps (length (particles s2)) batchSize)
         (fun i s => updateParticleBatch now i
                       (Nat.min (i + batchSize) (length (particles s))) dt s) s2;
  Some (updateVelocityField dt (applySceneForces dt s3)).

(** The body of the loop of [addForce] for one particle. *)
Definition addForceTo (x y strength : number) (particle : Particle.t) : Particle.t :=
  let radius := 50%float in
  let radiusSquared := (radius * radius)%float in
  let dx := (Particle.x particle - x)%float in
  let dy := (Particle.y particle - y)%float in
  let distanceSquared := (dx * dx + dy * dy)%float in
  if (distanceSquared <? radiusSquared)%float && (0 <? distanceSquared)%float then
    let distance := Math_sqrt distanceSquared in
    let force := ((radius - distance) / radius * strength * 100)%float in
    Particle.set_vel particle
      (Particle.vx particle + dx / distance * force)%float
      (Particle.vy particle + dy / distance * force)%float
  else particle.

Definition addForce (x y strength : number) (s : t) : t :=
  set_particles s (addForceTo x y strength <$> particles s).

Definition setScene (sceneName : string) (s : t) : t := set_currentScene s sceneName.

Definition setViscosity (value : number) (s : t) : t :=
  set_params s (mkParams (value * 0.001)%float (density (params s)) (speed (params s))
                         (particleCount (params s)) (resolution (params s))).

Definition setDensity (value : number) (s : t) : t :=
  set_params s (mkParams (viscosity (params s)) value (speed (params s))
                         (particleCount (params s)) (resolution (params s))).

Definition setSpeed (value : number) (s : t) : t :=
  set_params s (mkParams (viscosity (params s)) (density (params s)) (value * 2)%float
                         (particleCount (params s)) (resolution (params s))).

Definition setResolution (value : number) (s : t) : t :=
  set_params s (mkParams (viscosity (params s)) (density (params s)) (speed (params s))
                         (particleCount (params s)) value).

Definition setParticleCount (rnd : nat -> number) (count : nat) (s : t) : t :=
  if Nat.eqb count (particleCount (params s)) then s
  else
    let s1 := set_params s (mkParams (viscosity (params s)) (density (params s))
                                     (speed (params s)) count (resolution (params s))) in
    let n := (count * 2)%nat in
    initializeParticles rnd
      (set_buffers s1 (new_Float32Array n) (new_Float32Array n) (new_Float32Array n)).

Definition getParticleCount (s : t) : nat := length (particles s).

Definition resize (width height : number) (s : t) : option t :=
  initializeFields (set_fields s width height (velocityField s) (pressureField s)).

End FluidSimulation.

(** ** The worker pool ([workers/WorkerPool.js]) *)

Module WorkerPool.
Import JS.

(** *** The worker script *)

(** A task's [type] together with the [data] the high-level API sends
    with it. *)
Inductive Request :=
| updateParticles_req (particles : list Particle.t) (forces : list number)
                      (deltaTime : number) (params : FluidSimulation.Params)
| calculateForces_req (particles : list Particle.t) (scene : string)
                      (audioInfluence width height : number)
| spatialHash_req (particles : list Particle.t) (cellSize : number).

(** The [result] of a reply; the constructor is the reply's [type]. *)
Inductive Result :=
| particlesUpdated (result : list Particle.t)
| forcesCalculated (result : FluidSimulation.Float32Array)
| spatialHashCalculated (result : FluidSimulation.SpatialHash).

Definition updateParticlesBatch (particles : list Particle.t) (forces : list number)
    (deltaTime : number) (params : FluidSimulation.Params) : list Particle.t :=
  imap (fun i particle =>
          let fx := or_zero (forces !! (i * 2)%nat) in
          let fy := or_zero (forces !! (i * 2 + 1)%nat) in
          let vx1 := (Particle.vx particle + fx * deltaTime)%float in
          let vy1 := (Particle.vy particle + fy * deltaTime)%float in
          let vx2 := (vx1 * 0.99)%float in
          let vy2 := (vy1 * 0.99)%float in
          Particle.set_vel
            (Particle.set_pos particle
               (Particle.x particle + vx2 * deltaTime * FluidSimulation.speed params)%float
               (Particle.y particle + vy2 * deltaTime * FluidSimulation.speed params)%float)
            vx2 vy2)
       particles.

(** The force the worker computes for one particle; [now] is what
    [Date.now()] returns. *)
Definition workerForce `{M : MathLib} (now : number) (scene : string)
    (audioInfluence width height : number) (particle : Particle.t) : number * number :=
  if String.eqb scene "vortex" then
    let centerX := (width / 2)%float in
    let centerY := (height / 2)%float in
    let dx := (Particle.x particle - centerX)%float in
    let dy := (Particle.y particle - centerY)%float in
    let distance := Math_sqrt (dx * dx + dy * dy)%float in
    if (0 <? distance)%float then
      let strength := (100 / (distance + 1))%float in
      ((- dy * strength * audioInfluence)%float, (dx * strength * audioInfluence)%float)
    else (0%float, 0%float)
  else if String.eqb scene "wave" then
    let waveForce := (Math_sin (Particle.x particle * 0.01 + now * 0.001) * 50)%float in
    (0%float, (waveForce * audioInfluence)%float)
  else (0%float, 0%float).

Definition calculateForcesBatch `{M : MathLib} (now : nat -> number) (particles : list Particle.t)
    (scene : string) (audioInfluence width height : number) : FluidSimulation.Float32Array :=
  foldl (fun forces ip =>
           let f := workerForce (now (fst ip)) scene audioInfluence width height (snd ip) in
           FluidSimulation.f32_set (fst ip * 2 + 1) (snd f)
             (FluidSimulation.f32_set (fst ip * 2) (fst f) forces))
        (FluidSimulation.new_Float32Array (length particles * 2))
        (imap pair particles).

Definition calculateSpatialHash (particles : list Particle.t) (cellSize : number)
    : FluidSimulation.SpatialHash :=
  foldl (fun hash ip =>
           let cellX := Math_floor (Particle.x (snd ip) / cellSize)%float in
           let cellY := Math_floor (Particle.y (snd ip) / cellSize)%float in
           let k := (ToString cellX, ToString cellY) in
           let hash' := if FluidSimulation.hash_has k hash then hash else hash ++ [(k, [])] in
           FluidSimulation.hash_push k (fst ip) hash')
        [] (imap pair particles).

(** [self.onmessage]: the reply to one request. *)
Definition onmessage `{M : MathLib} (now : nat -> number) (r : Request) : Result :=
  match r with
  | updateParticles_req particles forces deltaTime params =>
      particlesUpdated (updateParticlesBatch particles forces deltaTime params)
  | calculateForces_req particles scene audioInfluence width height =>
      forcesCalculated (calculateForcesBatch now particles scene audioInfluence width height)
  | spatialHash_req particles cellSize =>
      spatialHashCalculated (calculateSpatialHash particles cellSize)
  end.

(** *** The pool *)

(** Worker objects are told apart by their creation number. *)
Abbreviation Worker := nat (only parsing).
Abbreviation TaskId := string (only parsing).
Abbreviation Error := string (only parsing).

(** A settled promise; a promise without an outcome is pending. *)
Inductive Outcome :=
| Fulfilled (r : Result)
| Rejected (e : Error).

(** A task of [taskQueue]. [promise] names the promise whose [resolve] and
    [reject] the task holds; [worker] is [None] until the task is assigned. *)
Record Task := mkTask {
  id : TaskId;
  request : Request;
  promise : nat;
  timestamp : number;
  worker : option Worker
}.

Definition assign (w : Worker) (t : Task) : Task :=
  mkTask (id t) (request t) (promise t) (timestamp t) (Some w).

(** The message [postMessage] hands to a worker. *)
Record Message := mkMessage {
  msg_request : Request;
  msg_taskId : TaskId
}.

(** The pool object, followed by the parts of the page it acts on: each
    worker's unanswered messages ([inbox]), the outcomes of the promises in
    the order they were settled ([settled]), the number of promises created
    ([nextPromise]) and the continuations waiting in the microtask queue
    ([deferred]). *)
Record t := mk {
  maxWorkers : nat;
  workers : list Worker;
  availableWorkers : list Worker;
  taskQueue : list Task;
  isInitialized : bool;
  inbox : list (Worker * Message);
  settled : list (nat * Outcome);
  nextPromise : nat;
  deferred : list (nat * Request * TaskId * number)
}.

(** The constructor: the pool is capped at 8 workers. *)
Definition new (maxWorkers : nat) : t :=
  mk (Nat.min maxWorkers 8) [] [] [] false [] [] 0 [].

Definition outcome (h : nat) (p : t) : option Outcome :=
  snd <$> find (fun e => Nat.eqb (fst e) h) (settled p).

(** [resolve] and [reject]: settling a settled promise does nothing. *)
Definition settle (h : nat) (o : Outcome) (p : t) : t :=
  match outcome h p with
  | Some _ => p
  | None =>
      mk (maxWorkers p) (workers p) (availableWorkers p) (taskQueue p) (isInitialized p)
         (inbox p) (settled p ++ [(h, o)]) (nextPromise p) (deferred p)
  end.

Definition set_availableWorkers (p : t) (v : list Worker) : t :=
  mk (maxWorkers p) (workers p) v (taskQueue p) (isInitialized p)
     (inbox p) (settled p) (nextPromise p) (deferred p).

Definition set_taskQueue (p : t) (v : list Task) : t :=
  mk (maxWorkers p) (workers p) (availableWorkers p) v (isInitialized p)
     (inbox p) (settled p) (nextPromise p) (deferred p).

Definition postMessage (w : Worker) (m : Message) (p : t) : t :=
  mk (maxWorkers p) (workers p) (availableWorkers p) (taskQueue p) (isInitialized p)
     (inbox p ++ [(w, m)]) (settled p) (nextPromise p) (deferred p).

(** [initialize]: creates [maxWorkers] workers, all idle. *)
Definition initialize (p : t) : t :=
  if isInitialized p then p
  else
    let ws := seq (length (workers p)) (maxWorkers p) in
    mk (maxWorkers p) (workers p ++ ws) (availableWorkers p ++ ws) (taskQueue p) true
       (inbox p) (settled p) (nextPromise p) (deferred p).

Definition unassigned (t : Task) : bool :=
  match worker t with None => true | Some _ => false end.

(** [task.worker = worker] on the first task [find] returns: the task is
    updated where it stands in the queue. *)
Fixpoint assignFirst (w : Worker) (q : list Task) : list Task :=
  match q with
  | [] => []
  | t :: q' => if unassigned t then assign w t :: q' else t :: assignFirst w q'
  end.

Definition processNextTask (p : t) : t :=
  match taskQueue p, reverse (availableWorkers p) with
  | [], _ | _, [] => p
  | _ :: _, worker :: rest =>
      let p1 := set_availableWorkers p (reverse rest) in
      match find unassigned (taskQueue p1) with
      | Some task =>
          postMessage worker (mkMessage (request task) (id task))
            (set_taskQueue p1 (assignFirst worker (taskQueue p1)))
      | None => set_availableWorkers p1 (availableWorkers p1 ++ [worker])
      end
  end.

Definition includes (w : Worker) (l : list Worker) : bool :=
  existsb (Nat.eqb w) l.

(** [splice(taskIndex, 1)] at the first task whose id is [taskId]. *)
Fixpoint removeFirst (taskId : TaskId) (q : list Task) : list Task :=
  match q with
  | [] => []
  | t :: q' => if String.eqb (id t) taskId then q' else t :: removeFirst taskId q'
  end.

Definition handleWorkerMessage (worker : Worker) (result : Result) (taskId : TaskId)
    (p : t) : t :=
  let p1 :=
    match find (fun task => String.eqb (id task) taskId) (taskQueue p) with
    | Some task =>
        settle (promise task) (Fulfilled result)
          (set_taskQueue p (removeFirst taskId (taskQueue p)))
    | None => p
    end in
  let p2 := if includes worker (availableWorkers p1) then p1
            else set_availableWorkers p1 (availableWorkers p1 ++ [worker]) in
  processNextTask p2.

Definition assignedTo (w : Worker) (t : Task) : bool :=
  match worker t with Some w' => Nat.eqb w' w | None => false end.

Definition handleWorkerError (worker : Worker) (error : Error) (p : t) : t :=
  let workerTasks := filter (fun task => assignedTo worker task = true) (taskQueue p) in
  let p1 := foldl (fun p task => settle (promise task) (Rejected error) p) p workerTasks in
  let p2 := set_taskQueue p1
              (filter (fun task => assignedTo worker task = false) (taskQueue p1)) in
  if includes worker (availableWorkers p2) then p2
  else set_availableWorkers p2 (availableWorkers p2 ++ [worker]).

(** The executor of the promise [executeTask] returns: the task is queued
    and a dispatch is attempted. *)
Definition enqueue (h : nat) (r : Request) (taskId : TaskId) (now : number) (p : t) : t :=
  processNextTask (set_taskQueue p (taskQueue p ++ [mkTask taskId r h now None])).

(** [executeTask]: [taskId] is what [generateTaskId()] returns and [now]
    what [performance.now()] returns. On a pool that is not initialized the
    workers are created at once, but the task is queued only after the
    [await], from the microtask queue. The result is the promise. *)
Definition executeTask (r : Request) (taskId : TaskId) (now : number) (p : t) : t * nat :=
  let h := nextPromise p in
  let p0 := mk (maxWorkers p) (workers p) (availableWorkers p) (taskQueue p)
               (isInitialized p) (inbox p) (settled p) (S h) (deferred p) in
  if isInitialized p0 then (enqueue h r taskId now p0, h)
  else
    let p1 := initialize p0 in
    (mk (maxWorkers p1) (workers p1) (availableWorkers p1) (taskQueue p1)
        (isInitialized p1) (inbox p1) (settled p1) (nextPromise p1)
        (deferred p1 ++ [(h, r, taskId, now)]), h).

(** The microtask queue is emptied when the running script returns. *)
Definition runMicrotasks (p : t) : t :=
  foldl (fun p d => match d with (h, r, taskId, now) => enqueue h r taskId now p end)
        (mk (maxWorkers p) (workers p) (availableWorkers p) (taskQueue p)
            (isInitialized p) (inbox p) (settled p) (nextPromise p) [])
        (deferred p).

(** *** The high-level API *)

(** [Math.ceil(particles.length / this.maxWorkers)]. The quotient of two
    array-sized integers is far from the next integer unless it is one, so
    the rounded division has the exact ceiling. A pool without workers makes
    the quotient [Infinity] (or [NaN] for no particles): the loop then cuts
    one slice holding every particle (or none), which the size [n] also
    yields. *)
Definition batchSize (n : nat) (p : t) : nat :=
  if Nat.eqb (maxWorkers p) 0 then n
  else Nat.div (n + maxWorkers p - 1) (maxWorkers p).

(** [a.slice(i, j)]. *)
Definition slice {A : Type} (i j : nat) (a : list A) : list A :=
  take (j - i) (drop i a).

(** The loop shared by the batch operations: one [executeTask] per slice
    start; [fresh k] is the id and the time stamp the [k]-th call draws. The
    promises are collected in the order of the calls. *)
Definition dispatch_from (fresh : nat -> TaskId * number) (reqs : list Request)
    (st : t * list nat) : t * list nat :=
  foldl (fun st r =>
           let k := length (snd st) in
           let res := executeTask r (fst (fresh k)) (snd (fresh k)) (fst st) in
           (fst res, snd st ++ [snd res]))
        st reqs.

Definition dispatch (fresh : nat -> TaskId * number) (reqs : list Request) (p : t)
    : t * list nat :=
  dispatch_from fresh reqs (p, []).

Definition updateParticles_requests (particles : list Particle.t) (forces : list number)
    (deltaTime : number) (params : FluidSimulation.Params) (p : t) : list Request :=
  let batchSize := batchSize (length particles) p in
  (fun i => updateParticles_req (slice i (i + batchSize) particles)
                                (slice (i * 2) ((i + batchSize) * 2) forces)
                                deltaTime params)
    <$> steps (length particles) batchSize.

Definition calculateForces_requests (particles : list Particle.t) (scene : string)
    (audioInfluence width height : number) (p : t) : list Request :=
  let batchSize := batchSize (length particles) p in
  (fun i => calculateForces_req (slice i (i + batchSize) particles)
                                scene audioInfluence width height)
    <$> steps (length particles) batchSize.

(** The synchronous part of [updateParticles], up to its [await], and the
    microtasks that follow it. *)
Definition updateParticles (fresh : nat -> TaskId * number) (particles : list Particle.t)
    (forces : list number) (deltaTime : number) (params : FluidSimulation.Params)
    (p : t) : t * list nat :=
  let res := dispatch fresh (updateParticles_requests particles forces deltaTime params p) p in
  (runMicrotasks (fst res), snd res).

Definition calculateForces (fresh : nat -> TaskId * number) (particles : list Particle.t)
    (scene : string) (audioInfluence width height : number) (p : t) : t * list nat :=
  let res := dispatch fresh
               (calculateForces_requests particles scene audioInfluence width height p) p in
  (runMicrotasks (fst res), snd res).

Definition calculateSpatialHash_task (fresh : nat -> TaskId * number)
    (particles : list Particle.t) (cellSize : number) (p : t) : t * nat :=
  let res := executeTask (spatialHash_req particles cellSize)
                         (fst (fresh 0%nat)) (snd (fresh 0%nat)) p in
  (runMicrotasks (fst res), snd res).

(** What a caller awaiting a promise observes. *)
Inductive Promise (A : Type) :=
| Pending
| Resolved (a : A)
| Failed (e : Error).
Arguments Pending {A}.
Arguments Resolved {A} a.
Arguments Failed {A} e.

Definition fulfilled (h : nat) (p : t) : option Result :=
  match outcome h p with
  | Some (Fulfilled r) => Some r
  | _ => None
  end.

Definition rejectedIn (hs : list nat) (e : nat * Outcome) : bool :=
  existsb (Nat.eqb (fst e)) hs &&
  match snd e with Rejected _ => true | Fulfilled _ => false end.

(** [Promise.all]: fails with the first rejection among its promises, is
    pending while one of them is, and otherwise holds the results in the
    order of the promises. *)
Definition Promise_all (hs : list nat) (p : t) : Promise (list Result) :=
  match find (rejectedIn hs) (settled p) with
  | Some (_, Rejected e) => Failed e
  | _ =>
      match mapM (fun h => fulfilled h p) hs with
      | Some results => Resolved results
      | None => Pending
      end
  end.

(** [results.flat()] on the replies of [updateParticles] tasks. *)
Definition flat (results : list Result) : list Particle.t :=
  concat ((fun r => match r with particlesUpdated ps => ps | _ => [] end) <$> results).

(** The rest of [updateParticles], after the [await]. *)
Definition updateParticles_result (hs : list nat) (p : t) : Promise (list Particle.t) :=
  match Promise_all hs p with
  | Resolved results => Resolved (flat results)
  | Pending => Pending
  | Failed e => Failed e
  end.

(** [totalForces.set(batchForces, offset)]: out of range it throws. *)
Definition set_at (src : list number) (offset : nat) (dst : list number)
    : option (list number) :=
  if Nat.leb (offset + length src) (length dst)
  then Some (take offset dst ++ src ++ drop (offset + length src) dst)
  else None.

Definition forcesOf (r : Result) : list number :=
  match r with forcesCalculated f => f | _ => [] end.

Definition combine (n : nat) (results : list Result) : option FluidSimulation.Float32Array :=
  fst <$> forM results
    (fun r st => totalForces ← set_at (forcesOf r) (snd st) (fst st);
                 Some (totalForces, (snd st + length (forcesOf r))%nat))
    (FluidSimulation.new_Float32Array (n * 2), 0%nat).

(** The rest of [calculateForces], after the [await]. *)
Definition calculateForces_result (n : nat) (hs : list nat) (p : t)
    : Promise FluidSimulation.Float32Array :=
  match Promise_all hs p with
  | Resolved results =>
      match combine n results with
      | Some totalForces => Resolved totalForces
      | None => Failed "RangeError"
      end
  | Pending => Pending
  | Failed e => Failed e
  end.

Definition terminate (p : t) : t :=
  mk (maxWorkers p) [] [] [] false [] (settled p) (nextPromise p) (deferred p).

(** *** What the workers do *)

(** The oldest unanswered message of worker [w], and the others. *)
Fixpoint takeMessage (w : Worker) (box : list (Worker * Message))
    : option (Message * list (Worker * Message)) :=
  match box with
  | [] => None
  | (w', m) :: box' =>
      if Nat.eqb w' w then Some (m, box')
      else match takeMessage w box' with
           | Some (m', rest) => Some (m', (w', m) :: rest)
           | None => None
           end
  end.

Definition set_inbox (p : t) (v : list (Worker * Message)) : t :=
  mk (maxWorkers p) (workers p) (availableWorkers p) (taskQueue p) (isInitialized p)
     v (settled p) (nextPromise p) (deferred p).

(** The events the pool reacts to: worker [w] answers its oldest message
    (reading the clock [now] while it computes), or fails on it. The order
    of the events is the order in which the workers finish. *)
Inductive Event :=
| Reply (w : Worker) (now : nat -> number)
| Fault (w : Worker) (e : Error).

Definition step `{M : MathLib} (ev : Event) (p : t) : t :=
  match ev with
  | Reply w now =>
      match takeMessage w (inbox p) with
      | Some (m, rest) =>
          handleWorkerMessage w (onmessage now (msg_request m)) (msg_taskId m)
            (set_inbox p rest)
      | None => p
      end
  | Fault w e =>
      match takeMessage w (inbox p) with
      | Some (_, rest) => handleWorkerError w e (set_inbox p rest)
      | None => handleWorkerError w e p
      end
  end.

Definition run `{M : MathLib} (evs : list Event) (p : t) : t :=
  foldl (fun p ev => step ev p) p evs.


(** *** Utility methods and metrics *)

Definition getWorkerCount (p : t) : nat := length (workers p).

Definition getAvailableWorkerCount (p : t) : nat := length (availableWorkers p).

Definition getQueueLength (p : t) : nat := length (taskQueue p).

Definition getWorkerUtilization (p : t) : number :=
  let busyWorkers := (of_nat (length (workers p)) - of_nat (length (availableWorkers p)))%float in
  (busyWorkers / of_nat (length (workers p)) * 100)%float.

Record Metrics := mkMetrics {
  totalWorkers : nat;
  idleWorkers : nat;
  utilization : number;
  queuedTasks : nat;
  activeTasks : nat;
  averageTaskAge : number
}.

(** [getPerformanceMetrics]; [now] is what [performance.now()] returns.
    [idleWorkers] is the property [availableWorkers] of the result. *)
Definition getPerformanceMetrics (now : number) (p : t) : Metrics :=
  let queued := List.filter unassigned (taskQueue p) in
  let active := List.filter (fun task => negb (unassigned task)) (taskQueue p) in
  mkMetrics (length (workers p)) (length (availableWorkers p)) (getWorkerUtilization p)
    (length queued) (length active)
    (if Nat.ltb 0 (length active)
     then (foldl (fun sum task => (sum + (now - timestamp task))%float) 0%float active
           / of_nat (length active))%float
     else 0%float).

End WorkerPool.

(** ** The adaptive quality controller ([optimization/OptimizationManager.js]) *)

Module OptimizationManager.
Import JS.

(** The values [currentQualityLevel] takes. *)
Inductive QualityLevel := low | medium | high | ultra.

Definition QualityLevel_eqb (a b : QualityLevel) : bool :=
  match a, b with
  | low, low | medium, medium | high, high | ultra, ultra => true
  | _, _ => false
  end.

Record QualitySettings := mkQualitySettings {
  particles : nat;
  resolution : number;
  effects : bool;
  shadows : bool;
  antialiasing : bool
}.

Record Thresholds := mkThresholds {
  fpsTarget : number;
  fpsMin : number;
  fpsMax : number;
  memoryMax : number;
  frameTimeMax : number
}.

(** The controller; [events] lists the [qualityChanged] events dispatched
    on [window], oldest first. *)
Record t := mk {
  adaptiveQuality : bool;
  gpuAcceleration : bool;
  multiThreading : bool;
  qualitySettings : QualitySettings;
  performanceHistory : list number;
  maxHistoryLength : nat;
  optimizationThresholds : Thresholds;
  currentQualityLevel : QualityLevel;
  events : list (QualityLevel * QualitySettings)
}.

Definition new : t :=
  mk true true true
     (mkQualitySettings 1000 1%float true true true)
     [] 60
     (mkThresholds 60%float 45%float 120%float 150%float 16.67%float)
     medium [].

Definition settings (quality : QualityLevel) : QualitySettings :=
  match quality with
  | low => mkQualitySettings 300 0.5%float false false false
  | medium => mkQualitySettings 800 0.75%float true false false
  | high => mkQualitySettings 1500 1%float true true false
  | ultra => mkQualitySettings 3000 1%float true true true
  end.

Definition applyQualitySettings (quality : QualityLevel) (s : t) : t :=
  mk (adaptiveQuality s) (gpuAcceleration s) (multiThreading s)
     (settings quality)
     (performanceHistory s) (maxHistoryLength s) (optimizationThresholds s)
     (currentQualityLevel s)
     (events s ++ [(quality, settings quality)]).

Definition set_currentQualityLevel (s : t) (q : QualityLevel) : t :=
  mk (adaptiveQuality s) (gpuAcceleration s) (multiThreading s) (qualitySettings s)
     (performanceHistory s) (maxHistoryLength s) (optimizationThresholds s) q (events s).

Definition set_performanceHistory (s : t) (h : list number) : t :=
  mk (adaptiveQuality s) (gpuAcceleration s) (multiThreading s) (qualitySettings s)
     h (maxHistoryLength s) (optimizationThresholds s) (currentQualityLevel s) (events s).

(** [a.indexOf(q)], [-1] when [q] is absent. *)
Fixpoint indexOf (q : QualityLevel) (a : list QualityLevel) : Z :=
  match a with
  | [] => -1
  | q' :: a' => if QualityLevel_eqb q' q then 0
                else let i := indexOf q a' in if i <? 0 then -1 else i + 1
  end.

(** The step both [decreaseQuality] and [increaseQuality] take on their
    own ordering of the levels. *)
Definition stepAlong (qualityLevels : list QualityLevel) (s : t) : t :=
  let currentIndex := indexOf (currentQualityLevel s) qualityLevels in
  if currentIndex <? Z.of_nat (length qualityLevels) - 1 then
    match qualityLevels !! Z.to_nat (currentIndex + 1) with
    | Some q => applyQualitySettings q (set_currentQualityLevel s q)
    | None => s
    end
  else s.

Definition decreaseQuality (s : t) : t := stepAlong [ultra; high; medium; low] s.

Definition increaseQuality (s : t) : t := stepAlong [low; medium; high; ultra] s.

(** The window average computed by [adjustQuality]. *)
Definition average (history : list number) : number :=
  (foldl (fun a b => (a + b)%float) 0%float history / of_nat (length history))%float.

Definition adjustQuality (currentFPS targetFPS : number) (s : t) : t :=
  if negb (adaptiveQuality s) then s
  else
    let pushed := performanceHistory s ++ [currentFPS] in
    let history := if Nat.ltb (maxHistoryLength s) (length pushed)
                   then drop 1 pushed else pushed in
    let s1 := set_performanceHistory s history in
    let avgFPS := average history in
    if (avgFPS <? fpsMin (optimizationThresholds s1))%float then decreaseQuality s1
    else if (fpsMax (optimizationThresholds s1) <? avgFPS)%float
            && negb (QualityLevel_eqb (currentQualityLevel s1) ultra)
         then increaseQuality s1
    else s1.

Definition setAdaptiveQuality (enabled : bool) (s : t) : t :=
  mk enabled (gpuAcceleration s) (multiThreading s) (qualitySettings s)
     (performanceHistory s) (maxHistoryLength s) (optimizationThresholds s)
     (currentQualityLevel s) (events s).

Definition isAdaptiveQualityEnabled (s : t) : bool := adaptiveQuality s.

(** [optimizeMemoryUsage]: [slice(-maxHistoryLength / 2)] keeps the last
    half window. *)
Definition optimizeMemoryUsage (s : t) : t :=
  if Nat.ltb (maxHistoryLength s) (length (performanceHistory s))
  then set_performanceHistory s
         (drop (length (performanceHistory s) - Nat.div (maxHistoryLength s) 2)
               (performanceHistory s))
  else s.

End OptimizationManager.

(** * The frame loop and its collaborators *)

(** ** The performance monitor ([utils/PerformanceMonitor.js]) *)

Module PerformanceMonitor.
Import JS.

Record Thresholds := mkThresholds {
  targetFPS : number;
  maxFrameTime : number;
  criticalFrameTime : number;
  memoryWarning : number;
  memoryCritical : number
}.

(** The three callback slots. *)
Inductive Callback := onPerformanceDrop | onMemoryWarning | onCriticalPerformance.

(** The [type] of the data a callback is handed. *)
Inductive Kind := frameTimeKind | memoryKind.

Record Notice := mkNotice {
  notice_type : Kind;
  notice_value : number;
  notice_threshold : number
}.

(** The monitor. A callback slot is [true] when a function is registered
    in it; [calls] lists the calls made to registered callbacks, oldest
    first. *)
Record t := mk {
  frameCount : nat;
  lastTime : number;
  fps : number;
  frameTime : number;
  frameTimes : list number;
  maxFrameHistory : nat;
  gpuMemory : number;
  audioLatency : number;
  cpuUsage : number;
  isRunning : bool;
  startTime : number;
  thresholds : Thresholds;
  performanceDrop : bool;
  memoryWarningSet : bool;
  criticalPerformance : bool;
  calls : list (Callback * Notice)
}.

Definition new : t :=
  mk 0 0%float 0%float 0%float [] 60 0%float 0%float 0%float false 0%float
     (mkThresholds 60%float 16.67%float 33.33%float 100%float 200%float)
     false false false [].

Definition registered (c : Callback) (m : t) : bool :=
  match c with
  | onPerformanceDrop => performanceDrop m
  | onMemoryWarning => memoryWarningSet m
  | onCriticalPerformance => criticalPerformance m
  end.

Definition triggerCallback (c : Callback) (data : Notice) (m : t) : t :=
  if registered c m then
    mk (frameCount m) (lastTime m) (fps m) (frameTime m) (frameTimes m) (maxFrameHistory m)
       (gpuMemory m) (audioLatency m) (cpuUsage m) (isRunning m) (startTime m) (thresholds m)
       (performanceDrop m) (memoryWarningSet m) (criticalPerformance m)
       (calls m ++ [(c, data)])
  else m.

Definition checkPerformanceThresholds (m : t) : t :=
  let m1 :=
    if (criticalFrameTime (thresholds m) <? frameTime m)%float then
      triggerCallback onCriticalPerformance
        (mkNotice frameTimeKind (frameTime m) (criticalFrameTime (thresholds m))) m
    else if (maxFrameTime (thresholds m) <? frameTime m)%float then
      triggerCallback onPerformanceDrop
        (mkNotice frameTimeKind (frameTime m) (maxFrameTime (thresholds m))) m
    else m in
  if (memoryCritical (thresholds m1) <? gpuMemory m1)%float then
    triggerCallback onCriticalPerformance
      (mkNotice memoryKind (gpuMemory m1) (memoryCritical (thresholds m1))) m1
  else if (memoryWarning (thresholds m1) <? gpuMemory m1)%float then
    triggerCallback onMemoryWarning
      (mkNotice memoryKind (gpuMemory m1) (memoryWarning (thresholds m1))) m1
  else m1.

(** [start]; [now] is what [performance.now()] returns and [baseLatency]
    the [baseLatency] of a new audio context, if the page has audio
    contexts. The two timers [start] sets up are [memoryTick] and
    [cpuTick]. *)
Definition start (now : number) (baseLatency : option number) (m : t) : t :=
  mk (frameCount m) now (fps m) (frameTime m) (frameTimes m) (maxFrameHistory m)
     (gpuMemory m)
     (match baseLatency with Some l => (l * 1000)%float | None => audioLatency m end)
     (cpuUsage m) true now (thresholds m)
     (performanceDrop m) (memoryWarningSet m) (criticalPerformance m) (calls m).

Definition stop (m : t) : t :=
  mk (frameCount m) (lastTime m) (fps m) (frameTime m) (frameTimes m) (maxFrameHistory m)
     (gpuMemory m) (audioLatency m) (cpuUsage m) false (startTime m) (thresholds m)
     (performanceDrop m) (memoryWarningSet m) (criticalPerformance m) (calls m).

Definition recordFrame (currentTime : number) (m : t) : t :=
  if negb (isRunning m) then m
  else
    let frameCount1 := S (frameCount m) in
    let deltaTime := (currentTime - lastTime m)%float in
    let due := (1000 <=? deltaTime)%float in
    let fps1 := if due then (of_nat frameCount1 * 1000 / deltaTime)%float else fps m in
    let frameCount2 := if due then 0%nat else frameCount1 in
    let lastTime1 := if due then currentTime else lastTime m in
    let pushed := frameTimes m ++ [deltaTime] in
    let frameTimes1 := if Nat.ltb (maxFrameHistory m) (length pushed)
                       then drop 1 pushed else pushed in
    checkPerformanceThresholds
      (mk frameCount2 lastTime1 fps1 deltaTime frameTimes1 (maxFrameHistory m)
          (gpuMemory m) (audioLatency m) (cpuUsage m) (isRunning m) (startTime m)
          (thresholds m)
          (performanceDrop m) (memoryWarningSet m) (criticalPerformance m) (calls m)).

(** The timer that samples the heap, where [performance.memory] exists. *)
Definition memoryTick (usedJSHeapSize : number) (m : t) : t :=
  mk (frameCount m) (lastTime m) (fps m) (frameTime m) (frameTimes m) (maxFrameHistory m)
     (usedJSHeapSize / 1024 / 1024)%float (audioLatency m) (cpuUsage m) (isRunning m)
     (startTime m) (thresholds m)
     (performanceDrop m) (memoryWarningSet m) (criticalPerformance m) (calls m).

Definition getAverageFrameTime (m : t) : number :=
  match frameTimes m with
  | [] => 0%float
  | _ => (foldl (fun a b => (a + b)%float) 0%float (frameTimes m)
          / of_nat (length (frameTimes m)))%float
  end.

(** The timer that estimates the CPU load from the frame times. *)
Definition cpuTick (m : t) : t :=
  match frameTimes m with
  | [] => m
  | _ =>
      let avgFrameTime := (foldl (fun a b => (a + b)%float) 0%float (frameTimes m)
                           / of_nat (length (frameTimes m)))%float in
      mk (frameCount m) (lastTime m) (fps m) (frameTime m) (frameTimes m) (maxFrameHistory m)
         (gpuMemory m) (audioLatency m)
         (Math_min 100%float (avgFrameTime / maxFrameTime (thresholds m) * 100)%float)
         (isRunning m) (startTime m) (thresholds m)
         (performanceDrop m) (memoryWarningSet m) (criticalPerformance m) (calls m)
  end.

Definition getCurrentFPS (m : t) : number := fps m.

(** [onPerformanceDrop], [onMemoryWarning] and [onCriticalPerformance],
    by the slot they fill; [callback] tells whether what is put there is
    a function. *)
Definition register (c : Callback) (callback : bool) (m : t) : t :=
  mk (frameCount m) (lastTime m) (fps m) (frameTime m) (frameTimes m) (maxFrameHistory m)
     (gpuMemory m) (audioLatency m) (cpuUsage m) (isRunning m) (startTime m) (thresholds m)
     (match c with onPerformanceDrop => callback | _ => performanceDrop m end)
     (match c with onMemoryWarning => callback | _ => memoryWarningSet m end)
     (match c with onCriticalPerformance => callback | _ => criticalPerformance m end)
     (calls m).

End PerformanceMonitor.

(** ** Device capabilities ([OptimizationManager], continued) *)

Module DeviceCapabilities.
Import JS OptimizationManager.

(** What [detectDeviceCapabilities] reads from the page: properties of
    [navigator] ([None] for [undefined]), whether a probe canvas yields a
    WebGL 2 or a WebGL context, the two limits such a context reports, and
    whether the user agent matches the list of mobile names. *)
Record Page := mkPage {
  hardwareConcurrency : option number;
  deviceMemory : option number;
  hasWebgl2 : bool;
  hasWebgl : bool;
  MAX_TEXTURE_SIZE : number;
  MAX_RENDERBUFFER_SIZE : number;
  mobileUserAgent : bool
}.

(** [deviceCapabilities], set once by the constructor. *)
Record t := mk {
  cores : number;
  memory : number;
  webgl2 : bool;
  webgl : bool;
  maxTextureSize : number;
  maxRenderbufferSize : number;
  isMobile : bool;
  isLowEnd : bool
}.

(** [v || d] for a property that is a number or [undefined]. *)
Definition or_else (v : option number) (d : number) : number :=
  match v with
  | Some x => if truthy x then x else d
  | None => d
  end.

Definition detectDeviceCapabilities (page : Page) : t :=
  let gl := hasWebgl2 page || hasWebgl page in
  let cores := or_else (hardwareConcurrency page) 4%float in
  let memory := or_else (deviceMemory page) 4%float in
  let isMobile := mobileUserAgent page in
  mk cores memory (hasWebgl2 page) gl
     (if gl then MAX_TEXTURE_SIZE page else 2048%float)
     (if gl then MAX_RENDERBUFFER_SIZE page else 2048%float)
     isMobile
     ((cores <=? 2)%float || (memory <=? 2)%float || isMobile).

(** [getOptimalCanvasSize]; [innerWidth] and [innerHeight] are the
    window's. *)
Definition getOptimalCanvasSize (caps : t) (innerWidth innerHeight : number)
    (s : OptimizationManager.t) : number * number :=
  let size :=
    if isLowEnd caps then
      (Math_min innerWidth 1280%float, Math_min innerHeight 720%float)
    else if isMobile caps then
      (Math_min innerWidth 1920%float, Math_min innerHeight 1080%float)
    else (innerWidth, innerHeight) in
  (Math_floor (fst size * resolution (qualitySettings s))%float,
   Math_floor (snd size * resolution (qualitySettings s))%float).

(** [getFluidParams]: every property of the result is set. *)
Definition getFluidParams (caps : t) (s : OptimizationManager.t) : FluidSimulation.ParamsArg :=
  let particleCount := particles (qualitySettings s) in
  let resolution := resolution (qualitySettings s) in
  FluidSimulation.mkParamsArg
    (Some 0.0001%float) (Some 1%float) (Some 1%float)
    (Some (if isLowEnd caps then Nat.min particleCount 500 else particleCount))
    (Some (if isLowEnd caps then Math_min resolution 0.75%float else resolution)).

(** The [type] of a recommendation. *)
Inductive Recommendation := device_rec | webgl_rec | cpu_rec.

Definition getOptimizationRecommendations (caps : t) : list Recommendation :=
  (if isLowEnd caps then [device_rec] else [])
  ++ (if negb (webgl2 caps) then [webgl_rec] else [])
  ++ (if (cores caps <=? 2)%float then [cpu_rec] else []).

End DeviceCapabilities.

(** ** The application ([main.js], class [OptimizedFluidApp]) *)

Module App.
Import JS.

(** The parts of the application object that its frame loop reads and
    writes; [fluidSim] is [None] while it is [null]. Drawing and the
    updates of the page's text fields change none of them. *)
Record t := mk {
  performanceMonitor : PerformanceMonitor.t;
  optimizationManager : OptimizationManager.t;
  workerPool : WorkerPool.t;
  fluidSim : option FluidSimulation.t;
  isRunning : bool;
  lastFrameTime : number;
  targetFPS : number;
  frameInterval : number
}.

(** The constructor, up to its call of [init]; [cores] is
    [navigator.hardwareConcurrency]. *)
Definition new (cores : option nat) : t :=
  mk PerformanceMonitor.new OptimizationManager.new
     (WorkerPool.new (match cores with Some (S n) => S n | _ => 4%nat end))
     None false 0%float 120%float (1000 / 120)%float.

(** [initializeComponents], given the size the canvas was set to and the
    device's capabilities; [now] is [performance.now()] when the monitor
    starts. *)
Definition initializeComponents (rnd : nat -> number) (canvasWidth canvasHeight : number)
    (caps : DeviceCapabilities.t) (now : number) (baseLatency : option number) (a : t)
    : option t :=
  sim ← FluidSimulation.new rnd canvasWidth canvasHeight
          (DeviceCapabilities.getFluidParams caps (optimizationManager a));
  Some (mk (PerformanceMonitor.start now baseLatency (performanceMonitor a))
           (optimizationManager a) (workerPool a) (Some sim)
           (isRunning a) (lastFrameTime a) (targetFPS a) (frameInterval a)).

Definition startRenderLoop (a : t) : t :=
  mk (performanceMonitor a) (optimizationManager a) (workerPool a) (fluidSim a)
     true (lastFrameTime a) (targetFPS a) (frameInterval a).

(** [update(deltaTime)]; [audioData] is what
    [audioProcessor.getFrequencyData()] returns and [now] what [Date.now()]
    returns during the simulation's update. Calling a method of [fluidSim]
    while it is [null] throws. *)
Definition update `{M : MathLib} (now : nat -> number) (deltaTime : number)
    (audioData : list number) (a : t) : option t :=
  sim ← fluidSim a;
  sim' ← FluidSimulation.update now deltaTime (Some audioData) sim;
  let manager :=
    if OptimizationManager.isAdaptiveQualityEnabled (optimizationManager a) then
      OptimizationManager.adjustQuality
        (PerformanceMonitor.getCurrentFPS (performanceMonitor a)) (targetFPS a)
        (optimizationManager a)
    else optimizationManager a in
  Some (mk (performanceMonitor a) manager (workerPool a) (Some sim')
           (isRunning a) (lastFrameTime a) (targetFPS a) (frameInterval a)).

(** One call of [renderLoop]; [currentTime] is what [performance.now()]
    returns. *)
Definition renderLoop `{M : MathLib} (now : nat -> number) (currentTime : number)
    (audioData : list number) (a : t) : option t :=
  if negb (isRunning a) then Some a
  else
    let deltaTime := (currentTime - lastFrameTime a)%float in
    if (frameInterval a <=? deltaTime)%float then
      a1 ← update now deltaTime audioData a;
      Some (mk (PerformanceMonitor.recordFrame currentTime (performanceMonitor a1))
               (optimizationManager a1) (workerPool a1) (fluidSim a1) (isRunning a1)
               (currentTime - rem deltaTime (frameInterval a1))%float
               (targetFPS a1) (frameInterval a1))
    else Some a.

(** [handleResize], given the size [setupCanvas] has set the canvas to. *)
Definition handleResize (canvasWidth canvasHeight : number) (a : t) : option t :=
  sim ← fluidSim a;
  sim' ← FluidSimulation.resize canvasWidth canvasHeight sim;
  Some (mk (performanceMonitor a) (optimizationManager a) (workerPool a) (Some sim')
           (isRunning a) (lastFrameTime a) (targetFPS a) (frameInterval a)).

Definition setScene (sceneName : string) (a : t) : option t :=
  sim ← fluidSim a;
  Some (mk (performanceMonitor a) (optimizationManager a) (workerPool a)
           (Some (FluidSimulation.setScene sceneName sim))
           (isRunning a) (lastFrameTime a) (targetFPS a) (frameInterval a)).

Definition destroy (a : t) : t :=
  mk (PerformanceMonitor.stop (performanceMonitor a)) (optimizationManager a)
     (WorkerPool.terminate (workerPool a)) (fluidSim a)
     false (lastFrameTime a) (targetFPS a) (frameInterval a).

End App.

(** * The audio analysis ([audio/AudioProcessor.js]) *)

Module AudioProcessor.
Import JS.

(** A bin of a [Uint8Array] as a number. *)
Definition bin (b : Byte.byte) : number := of_nat (Byte.to_nat b).

(** An object used as a map from names to numbers: a property is
    overwritten where it stands or added at the end. *)
Fixpoint assoc_set (k : string) (v : number) (m : list (string * number))
    : list (string * number) :=
  match m with
  | [] => [(k, v)]
  | (k', v') :: m' => if String.eqb k' k then (k, v) :: m' else (k', v') :: assoc_set k v m'
  end.

Fixpoint assoc_get (k : string) (m : list (string * number)) : option number :=
  match m with
  | [] => None
  | (k', v') :: m' => if String.eqb k' k then Some v' else assoc_get k m'
  end.

(** The fields of the processor that its analysis reads and writes.
    [analyser] tells whether the analyser node exists; the arrays are
    [None] while they are [null]. A band is its name with [start] and
    [end]. *)
Record t := mk {
  analyser : bool;
  frequencyData : option (list Byte.byte);
  timeData : option (list Byte.byte);
  isInitialized : bool;
  isRunning : bool;
  currentLevel : number;
  peakLevel : number;
  levelHistory : list number;
  maxLevelHistory : nat;
  frequencyBands : list (string * (nat * nat));
  bandLevels : list (string * number)
}.

Definition new : t :=
  mk false None None false false 0%float 0%float [] 100
     [("bass", (0, 4)); ("lowMid", (4, 16)); ("mid", (16, 64)); ("highMid", (64, 128));
      ("treble", (128, 256))]%nat
     [].

(** [initialize], on a page whose analyser has [frequencyBinCount] bins.
    The result is the processor as the call leaves it, with [true] when
    the call returns and [false] when it throws: before anything is
    assigned on a page without audio contexts ([frequencyBinCount] is
    [None]), or, with the analyser and the arrays in place, when
    [setupMicrophone] throws ([source] is [false]). *)
Definition initialize (frequencyBinCount : option nat) (source : bool) (a : t) : t * bool :=
  match frequencyBinCount with
  | None => (a, false)
  | Some n =>
      (mk true (Some (replicate n Byte.x00)) (Some (replicate n Byte.x00))
          (if source then true else isInitialized a) (isRunning a)
          (currentLevel a) (peakLevel a) (levelHistory a) (maxLevelHistory a)
          (frequencyBands a) (bandLevels a),
       source)
  end.

Definition start (a : t) : t :=
  if negb (isInitialized a) then a
  else mk (analyser a) (frequencyData a) (timeData a) (isInitialized a) true
          (currentLevel a) (peakLevel a) (levelHistory a) (maxLevelHistory a)
          (frequencyBands a) (bandLevels a).

Definition stop (a : t) : t :=
  mk (analyser a) (frequencyData a) (timeData a) (isInitialized a) false
     (currentLevel a) (peakLevel a) (levelHistory a) (maxLevelHistory a)
     (frequencyBands a) (bandLevels a).

(** [getByteFrequencyData(array)]: the analyser's bins overwrite the
    array as far as both reach. *)
Definition fill (data array : list Byte.byte) : list Byte.byte :=
  take (length array) data ++ drop (length data) array.

(** Reading [length] of an array that is [null] throws. *)
Definition calculateAudioLevel (a : t) : option t :=
  data ← frequencyData a;
  let sum := foldl (fun sum b => (sum + bin b)%float) 0%float data in
  let peak := foldl (fun peak b => if (peak <? bin b)%float then bin b else peak) 0%float data in
  Some (mk (analyser a) (frequencyData a) (timeData a) (isInitialized a) (isRunning a)
           (sum / of_nat (length data) / 255)%float (peak / 255)%float
           (levelHistory a) (maxLevelHistory a) (frequencyBands a) (bandLevels a)).

(** The level of one band: the bins from [start] to [end], as far as the
    data reaches, summed and divided by the width of the band. The length
    of the data is read only when the band is not empty, and reading it
    throws when the array is [null]. *)
Definition bandLevel (data : option (list Byte.byte)) (band : nat * nat) : option number :=
  let count := (of_nat (snd band) - of_nat (fst band))%float in
  sum ← (if Nat.ltb (fst band) (snd band) then
           d ← data;
           Some (foldl (fun sum b => (sum + bin b)%float) 0%float
                       (take (snd band - fst band) (drop (fst band) d)))
         else Some 0%float);
  Some (sum / count / 255)%float.

Definition analyzeFrequencyBands (a : t) : option t :=
  levels ← forM (frequencyBands a)
              (fun band levels =>
                 level ← bandLevel (frequencyData a) (snd band);
                 Some (assoc_set (fst band) level levels))
              (bandLevels a);
  Some (mk (analyser a) (frequencyData a) (timeData a) (isInitialized a) (isRunning a)
           (currentLevel a) (peakLevel a) (levelHistory a) (maxLevelHistory a)
           (frequencyBands a) levels).

Definition updateLevelHistory (a : t) : t :=
  let pushed := levelHistory a ++ [currentLevel a] in
  mk (analyser a) (frequencyData a) (timeData a) (isInitialized a) (isRunning a)
     (currentLevel a) (peakLevel a)
     (if Nat.ltb (maxLevelHistory a) (length pushed) then drop 1 pushed else pushed)
     (maxLevelHistory a) (frequencyBands a) (bandLevels a).

(** [processAudioData]; [freq] and [time] are the bins the analyser holds
    when it is asked. Handing the analyser an array that is [null]
    throws. *)
Definition processAudioData (freq time : list Byte.byte) (a : t) : option t :=
  if negb (isRunning a) || negb (analyser a) then Some a
  else
    fd ← frequencyData a;
    td ← timeData a;
    let a1 := mk (analyser a) (Some (fill freq fd)) (Some (fill time td)) (isInitialized a)
                 (isRunning a) (currentLevel a) (peakLevel a) (levelHistory a)
                 (maxLevelHistory a) (frequencyBands a) (bandLevels a) in
    a2 ← calculateAudioLevel a1;
    a3 ← analyzeFrequencyBands a2;
    Some (updateLevelHistory a3).

Definition getFrequencyData (a : t) : list number :=
  match frequencyData a with
  | Some data => bin <$> data
  | None => []
  end.

Definition getAudioLevel (a : t) : number := currentLevel a.

Definition getPeakLevel (a : t) : number := peakLevel a.

Definition getBandLevel (bandName : string) (a : t) : number :=
  or_zero (assoc_get bandName (bandLevels a)).

Definition getAverageLevel (a : t) : number :=
  match levelHistory a with
  | [] => 0%float
  | _ => (foldl (fun x y => (x + y)%float) 0%float (levelHistory a)
          / of_nat (length (levelHistory a)))%float
  end.

Definition getAverageBandLevel (bandName : string) (a : t) : number :=
  (getBandLevel bandName a * 0.7)%float.

Definition detectBeat (a : t) : bool :=
  let bassLevel := getBandLevel "bass" a in
  let avgBass := getAverageBandLevel "bass" a in
  (avgBass * 1.5 <? bassLevel)%float.

End AudioProcessor.

(** * Properties *)

(** ** Comparisons of binary64 numbers *)

Section FloatOrder.

Lemma SFcompare_antisym x y c :
  SFcompare x y = Some c -> SFcompare y x = Some (CompOpp c).
Proof.
  destruct x as [sx|sx| |sx mx ex], y as [sy|sy| |sy my ey]; simpl; intros Hc;
    try discriminate; try (injection Hc as <-);
    try (destruct sx; reflexivity); try (destruct sy; reflexivity);
    try (destruct sx, sy; reflexivity).
  change (PosDef.Pos.compare_cont Eq my mx) with (Pos.compare my mx).
  change (PosDef.Pos.compare_cont Eq mx my) with (Pos.compare mx my).
  rewrite (Pos.compare_antisym mx my), (Z.compare_antisym ex ey).
  destruct sx, sy; try reflexivity;
    destruct (ex ?= ey)%Z; simpl; try reflexivity;
    destruct (mx ?= my)%positive; reflexivity.
Qed.

Lemma SFcompare_refl x : x <> S754_nan -> SFcompare x x = Some Eq.
Proof.
  destruct x as [s|s| |s m e]; simpl; intros H; try congruence;
    try (destruct s; reflexivity).
  change (PosDef.Pos.compare_cont Eq m m) with (Pos.compare m m).
  rewrite Pos.compare_refl, Z.compare_refl. destruct s; reflexivity.
Qed.

Lemma SFcompare_None x y :
  SFcompare x y = None <-> x = S754_nan \/ y = S754_nan.
Proof.
  destruct x as [sx|sx| |sx mx ex], y as [sy|sy| |sy my ey]; simpl;
    split; intros H; try discriminate; try (destruct H; discriminate); auto.
Qed.

Lemma is_nan_spec x : is_nan x = true <-> Prim2SF x = S754_nan.
Proof.
  unfold is_nan. rewrite FloatAxioms.eqb_spec. unfold SFeqb.
  split.
  - destruct (Prim2SF x) eqn:E; try reflexivity; intros H; exfalso.
    all: rewrite SFcompare_refl in H by discriminate; discriminate.
  - intros ->. reflexivity.
Qed.

Lemma is_nan_false x : is_nan x = false <-> Prim2SF x <> S754_nan.
Proof. rewrite <- is_nan_spec. destruct (is_nan x); split; congruence. Qed.

Lemma is_nan_eq x : is_nan x = true -> x = nan.
Proof. intros H. apply Prim2SF_inj. apply is_nan_spec in H. rewrite H. reflexivity. Qed.

(** Among comparable numbers, [x < y] fails only when [y <= x]. *)
Lemma ltb_false_leb x y :
  is_nan x = false -> is_nan y = false -> (x <? y)%float = false ->
  (y <=? x)%float = true.
Proof.
  rewrite !is_nan_false, FloatAxioms.ltb_spec, FloatAxioms.leb_spec.
  unfold SFltb, SFleb. intros Hx Hy.
  destruct (SFcompare (Prim2SF x) (Prim2SF y)) as [c|] eqn:E.
  - rewrite (SFcompare_antisym _ _ _ E). destruct c; simpl; congruence.
  - apply SFcompare_None in E. tauto.
Qed.

Lemma leb_not_nan_r x y : (x <=? y)%float = true -> is_nan y = false.
Proof.
  rewrite FloatAxioms.leb_spec, is_nan_false. unfold SFleb. intros H E.
  rewrite E in H. destruct (Prim2SF x); discriminate.
Qed.

Lemma leb_refl x : is_nan x = false -> (x <=? x)%float = true.
Proof.
  rewrite is_nan_false, FloatAxioms.leb_spec. unfold SFleb. intros H.
  rewrite SFcompare_refl; auto.
Qed.

Lemma ltb_nan_l y : (nan <? y)%float = false.
Proof. rewrite FloatAxioms.ltb_spec. reflexivity. Qed.

Lemma ltb_nan_r x : (x <? nan)%float = false.
Proof.
  rewrite FloatAxioms.ltb_spec. change (Prim2SF nan) with S754_nan.
  unfold SFltb. destruct (Prim2SF x); reflexivity.
Qed.

(** A number above a non-negative one is not negative. *)
Lemma above_nonneg_not_neg w x :
  (0 <=? w)%float = true -> (w <? x)%float = true -> (x <? 0)%float = false.
Proof.
  rewrite FloatAxioms.leb_spec, !FloatAxioms.ltb_spec. unfold SFleb, SFltb.
  change (Prim2SF 0) with (S754_zero false).
  destruct (Prim2SF w) as [sw|sw| |sw mw ew], (Prim2SF x) as [sx|sx| |sx mx ex]; simpl;
    try discriminate; try reflexivity;
    try (destruct sw; simpl; try discriminate); try (destruct sx; simpl; try discriminate);
    try reflexivity.
Qed.

(** [x - x] is [+0] for a finite [x], and [NaN] otherwise. *)
Lemma sub_diag x : (x - x)%float = 0%float \/ (x - x)%float = nan.
Proof.
  destruct (Prim2SF x) as [s|s| |s m e] eqn:E.
  - left. apply Prim2SF_inj. rewrite sub_spec, E. destruct s; reflexivity.
  - right. apply Prim2SF_inj. rewrite sub_spec, E. destruct s; reflexivity.
  - right. apply Prim2SF_inj. rewrite sub_spec, E. reflexivity.
  - left. apply Prim2SF_inj. rewrite sub_spec, E. unfold SF64sub, SFsub.
    rewrite Z.sub_diag. reflexivity.
Qed.

End FloatOrder.

(** ** Loops *)

Section Loops.
Local Open Scope nat_scope.

Lemma div_ceil_lt n b k : 0 < b -> k < (n + b - 1) / b -> k * b < n.
Proof.
  intros Hb Hk. pose proof (Nat.Div0.mul_div_le (n + b - 1) b) as H1. nia.
Qed.

Lemma div_ceil_ge n b : 0 < b -> n <= (n + b - 1) / b * b.
Proof.
  intros Hb. pose proof (Nat.div_mod_eq (n + b - 1) b) as H2.
  pose proof (Nat.mod_upper_bound (n + b - 1) b) as H3. nia.
Qed.

Lemma forM_app {A S : Type} (l1 l2 : list A) (f : A -> S -> option S) (s : S) :
  JS.forM (l1 ++ l2) f s = JS.forM l1 f s ≫= JS.forM l2 f.
Proof.
  revert s. induction l1 as [|a l1 IH]; intros s; simpl; [reflexivity |].
  destruct (f a s); simpl; auto.
Qed.

(** The first [k] slices of size [b] of the indices below [n]. *)
Lemma steps_prefix n b k :
  0 < b -> k <= (n + b - 1) / b ->
  concat ((fun i => seq i (Nat.min (i + b) n - i)) <$> ((fun k => k * b) <$> seq 0 k))
  = seq 0 (Nat.min (k * b) n).
Proof.
  intros Hb. induction k as [|k IH]; intros Hk; [reflexivity |].
  rewrite seq_S, !fmap_app, concat_app, IH by lia.
  cbn [fmap list_fmap concat Nat.add]. rewrite app_nil_r.
  pose proof (div_ceil_lt n b k Hb) as Hlt.
  replace (Nat.min (S k * b) n) with
    (Nat.min (k * b) n + (Nat.min (k * b + b) n - k * b)) by lia.
  rewrite seq_app. f_equal. f_equal. lia.
Qed.

(** The slices of size [b] visit every index below [n] once, in order. *)
Lemma steps_cover n b :
  0 < b -> concat ((fun i => seq i (Nat.min (i + b) n - i)) <$> JS.steps n b) = seq 0 n.
Proof.
  intros Hb. unfold JS.steps. rewrite steps_prefix by lia.
  pose proof (div_ceil_ge n b Hb). f_equal. lia.
Qed.

End Loops.

(** ** Boundary handling and the interactive impulse *)

Module SimulationFacts.
Import JS FluidSimulation.

(** A position inside the canvas, walls included. *)
Definition inBounds (s : t) (p : Particle.t) : bool :=
  (0 <=? Particle.x p)%float && (Particle.x p <=? width s)%float &&
  (0 <=? Particle.y p)%float && (Particle.y p <=? height s)%float.

(** A simulation on an 800 by 600 canvas holding the particles [ps], with
    buffers sized for them. *)
Definition canvas (ps : list Particle.t) : t :=
  mk 800%float 600%float
     (mkParams 0.0001%float 1%float 1%float (length ps) 1%float)
     ps [] [] true true true [] 20%float
     (new_Float32Array (length ps * 2)) (new_Float32Array (length ps * 2))
     (new_Float32Array (length ps * 2)) "default" 0%float.

(** What boundary handling does to the horizontal components. *)
Lemma handleBoundaries_x s p :
  Particle.x (handleBoundaries s p) =
    (if (Particle.x p <? 0)%float then 0%float
     else if (width s <? Particle.x p)%float then width s else Particle.x p)
  /\ Particle.vx (handleBoundaries s p) =
    (if (Particle.x p <? 0)%float || (width s <? Particle.x p)%float
     then (- Particle.vx p * 0.8)%float else Particle.vx p).
Proof.
  unfold handleBoundaries.
  destruct (Particle.x p <? 0)%float, (width s <? Particle.x p)%float; simpl;
    repeat match goal with |- context [if ?c then _ else _] => destruct c end;
    simpl; auto.
Qed.

(** What boundary handling does to the vertical components. *)
Lemma handleBoundaries_y s p :
  Particle.y (handleBoundaries s p) =
    (if (Particle.y p <? 0)%float then 0%float
     else if (height s <? Particle.y p)%float then height s else Particle.y p)
  /\ Particle.vy (handleBoundaries s p) =
    (if (Particle.y p <? 0)%float || (height s <? Particle.y p)%float
     then (- Particle.vy p * 0.8)%float else Particle.vy p).
Proof.
  unfold handleBoundaries.
  destruct (Particle.x p <? 0)%float, (width s <? Particle.x p)%float; simpl;
    destruct (Particle.y p <? 0)%float, (height s <? Particle.y p)%float; simpl; auto.
Qed.

Lemma handleBoundaries_rest s p :
  Particle.life (handleBoundaries s p) = Particle.life p
  /\ Particle.color (handleBoundaries s p) = Particle.color p
  /\ Particle.size (handleBoundaries s p) = Particle.size p.
Proof.
  unfold handleBoundaries.
  repeat match goal with |- context [if ?c then _ else _] => destruct c end;
    simpl; auto.
Qed.

(** A coordinate clamped as [handleBoundaries] does lies between the walls,
    provided it is a number and the far wall is not negative. *)
Lemma clamp_between (w v : float) :
  (0 <=? w)%float = true -> is_nan v = false ->
  let v' := if (v <? 0)%float then 0%float
            else if (w <? v)%float then w else v in
  (0 <=? v')%float = true /\ (v' <=? w)%float = true.
Proof.
  intros Hw Hv. pose proof (leb_not_nan_r _ _ Hw) as Hwn. simpl.
  destruct (v <? 0)%float eqn:E1; [split; [reflexivity | exact Hw] |].
  destruct (w <? v)%float eqn:E2; [split; [exact Hw | apply leb_refl; exact Hwn] |].
  split; apply ltb_false_leb; auto.
Qed.

(** C7 as the specification states it fails on a particle whose position is
    [NaN]: both comparisons of [handleBoundaries] are false and the particle
    is left where it is, outside every canvas. *)
Lemma handleBoundaries_keeps_NaN_position :
  let p := Particle.mk nan nan 1%float 1%float 1%float 0%float 1%float in
  handleBoundaries (canvas [p]) p = p /\ inBounds (canvas [p]) (handleBoundaries (canvas [p]) p) = false.
Proof. vm_compute. split; reflexivity. Qed.

(** C7 (amended): on a canvas whose width and height are not negative, a
    particle left of the canvas ends at [x = 0] with [vx' = -vx * 0.8], one
    right of it at [x = width] with [vx' = -vx * 0.8], and likewise for [y]
    against [0] and [height]; and when the particle's coordinates are
    numbers (not [NaN]) its position after [handleBoundaries] lies within
    [[0,width] x [0,height]]. *)
Theorem handleBoundaries_reflects_and_clamps (s : t) (p : Particle.t) :
  (0 <=? width s)%float = true -> (0 <=? height s)%float = true ->
  let p' := handleBoundaries s p in
  ((Particle.x p <? 0)%float = true ->
     Particle.x p' = 0%float /\ Particle.vx p' = (- Particle.vx p * 0.8)%float)
  /\ ((width s <? Particle.x p)%float = true ->
     Particle.x p' = width s /\ Particle.vx p' = (- Particle.vx p * 0.8)%float)
  /\ ((Particle.y p <? 0)%float = true ->
     Particle.y p' = 0%float /\ Particle.vy p' = (- Particle.vy p * 0.8)%float)
  /\ ((height s <? Particle.y p)%float = true ->
     Particle.y p' = height s /\ Particle.vy p' = (- Particle.vy p * 0.8)%float)
  /\ (is_nan (Particle.x p) = false -> is_nan (Particle.y p) = false ->
     inBounds s p' = true).
Proof.
  intros Hw Hh p'.
  destruct (handleBoundaries_x s p) as [Hx Hvx].
  destruct (handleBoundaries_y s p) as [Hy Hvy].
  fold p' in Hx, Hvx, Hy, Hvy.
  repeat split.
  - rewrite Hx, H. reflexivity.
  - rewrite Hvx, H. reflexivity.
  - rewrite Hx, H, (above_nonneg_not_neg _ _ Hw H). reflexivity.
  - rewrite Hvx, H. rewrite orb_true_r. reflexivity.
  - rewrite Hy, H. reflexivity.
  - rewrite Hvy, H. reflexivity.
  - rewrite Hy, H, (above_nonneg_not_neg _ _ Hh H). reflexivity.
  - rewrite Hvy, H. rewrite orb_true_r. reflexivity.
  - intros Hnx Hny. unfold inBounds. rewrite Hx, Hy.
    pose proof (clamp_between (width s) (Particle.x p) Hw Hnx) as Hcx.
    pose proof (clamp_between (height s) (Particle.y p) Hh Hny) as Hcy.
    cbv zeta in Hcx, Hcy.
    destruct Hcx as [-> ->], Hcy as [-> ->]. reflexivity.
Qed.

(** The amended C7 at work on a particle that left through the top-left
    corner of the 800 by 600 canvas. *)
Lemma handleBoundaries_reflects_and_clamps_witness :
  let p := Particle.mk (-5)%float (-2)%float 3%float 4%float 1%float 0%float 1%float in
  let p' := handleBoundaries (canvas [p]) p in
  (Particle.x p' = 0%float /\ Particle.vx p' = (- 3 * 0.8)%float)
  /\ (Particle.y p' = 0%float /\ Particle.vy p' = (- 4 * 0.8)%float)
  /\ inBounds (canvas [p]) p' = true.
Proof.
  intros p p'.
  destruct (handleBoundaries_reflects_and_clamps (canvas [p]) p)
    as (Hl & _ & Ht & _ & Hin); [reflexivity | reflexivity |].
  split; [apply Hl; reflexivity |].
  split; [apply Ht; reflexivity |].
  apply Hin; reflexivity.
Defined.


(** ** The interactive impulse *)

Lemma leb_true_ltb_false a b : (a <=? b)%float = true -> (b <? a)%float = false.
Proof.
  rewrite FloatAxioms.leb_spec, FloatAxioms.ltb_spec. unfold SFleb, SFltb.
  destruct (SFcompare (Prim2SF a) (Prim2SF b)) as [c|] eqn:E; [|discriminate].
  rewrite (SFcompare_antisym _ _ _ E). destruct c; simpl; congruence.
Qed.

(** A particle standing exactly on the point of the impulse is returned as
    it is: the squared distance is [0] (or [NaN] for a position that is not
    finite) and fails the test [distanceSquared > 0]. *)
Lemma addForceTo_origin x y strength p :
  Particle.x p = x -> Particle.y p = y -> addForceTo x y strength p = p.
Proof.
  intros <- <-. unfold addForceTo.
  destruct (sub_diag (Particle.x p)) as [-> | ->], (sub_diag (Particle.y p)) as [-> | ->];
    reflexivity.
Qed.

(** C8: [addForce] runs [addForceTo] on every particle. With [dx], [dy] the
    offsets from the point of the impulse, [d2 = dx*dx + dy*dy] and
    [d = sqrt d2] as the code computes them: a particle with [d2 >= 50*50]
    (distance at least 50) is unchanged; one with [0 < d2 < 50*50] gets the
    impulse [(50 - d)/50 * strength * 100] along the unit vector
    [(dx/d, dy/d)] added to its velocity; one with [d2] not above [0], in
    particular one standing exactly on the point, is unchanged, so that the
    division by [d] is never evaluated at distance [0]. *)
Theorem addForce_impulse (x y strength : number) (s : t) :
  particles (addForce x y strength s) = addForceTo x y strength <$> particles s
  /\ forall p : Particle.t,
      let dx := (Particle.x p - x)%float in
      let dy := (Particle.y p - y)%float in
      let d2 := (dx * dx + dy * dy)%float in
      let d := Math_sqrt d2 in
      let p' := addForceTo x y strength p in
      ((50 * 50 <=? d2)%float = true -> p' = p)
      /\ ((0 <? d2)%float = true -> (d2 <? 50 * 50)%float = true ->
          Particle.vx p' = (Particle.vx p + dx / d * ((50 - d) / 50 * strength * 100))%float
          /\ Particle.vy p' = (Particle.vy p + dy / d * ((50 - d) / 50 * strength * 100))%float
          /\ Particle.x p' = Particle.x p /\ Particle.y p' = Particle.y p)
      /\ ((0 <? d2)%float = false -> p' = p)
      /\ (Particle.x p = x -> Particle.y p = y -> p' = p).
Proof.
  split; [reflexivity |].
  intros p dx dy d2 d p'. repeat split.
  - intros H. apply leb_true_ltb_false in H. unfold p', addForceTo.
    fold dx dy. fold d2. rewrite H. reflexivity.
  - unfold p', addForceTo. fold dx dy. fold d2. rewrite H, H0. reflexivity.
  - unfold p', addForceTo. fold dx dy. fold d2. rewrite H, H0. reflexivity.
  - unfold p', addForceTo. fold dx dy. fold d2. rewrite H, H0. reflexivity.
  - unfold p', addForceTo. fold dx dy. fold d2. rewrite H, H0. reflexivity.
  - intros H. unfold p', addForceTo. fold dx dy. fold d2. rewrite H, andb_false_r.
    reflexivity.
  - apply addForceTo_origin.
Qed.

(** Three particles around an impulse of strength 1 at (100, 100): one 30
    away, one 50 away and one on the point. *)
Example addForce_ex :
  let near := Particle.mk 130%float 100%float 0%float 0%float 1%float 0%float 1%float in
  let far := Particle.mk 100%float 150%float 1%float 2%float 1%float 0%float 1%float in
  let on := Particle.mk 100%float 100%float 1%float 2%float 1%float 0%float 1%float in
  particles (addForce 100%float 100%float 1%float (canvas [near; far; on]))
  = [Particle.mk 130%float 100%float 40%float 0%float 1%float 0%float 1%float; far; on].
Proof. vm_compute. reflexivity. Qed.


(** ** The frame update *)

Arguments particleForce : simpl never.
Arguments sceneForce : simpl never.
Arguments handleBoundaries : simpl never.
Arguments integrate : simpl never.
Arguments cellKey : simpl never.
Arguments f32_set : simpl never.
Arguments fround : simpl never.

Section Update.
Context `{M : MathLib}.
Local Open Scope nat_scope.

(** What the per-particle code reads from the simulation besides the
    particle and the buffers. *)
Definition env (s : t) :=
  (width s, height s, params s, currentScene s, audioInfluence s, cellSize s,
   useSpatialHashing s).

Lemma particleForce_env now s s0 p :
  env s = env s0 -> particleForce now s p = particleForce now s0 p.
Proof.
  unfold env. intros [= Hw Hh Hp Hc Ha _ _].
  unfold particleForce, sceneForce. rewrite Hw, Hh, Hp, Hc, Ha. reflexivity.
Qed.

Lemma integrate_env s s0 dt fx fy p :
  env s = env s0 -> integrate s dt fx fy p = integrate s0 dt fx fy p.
Proof. unfold env. intros [= _ _ Hp _ _ _ _]. unfold integrate. rewrite Hp. reflexivity. Qed.

Lemma handleBoundaries_env s s0 p :
  env s = env s0 -> handleBoundaries s p = handleBoundaries s0 p.
Proof.
  unfold env. intros [= Hw Hh _ _ _ _ _]. unfold handleBoundaries.
  rewrite Hw, Hh. reflexivity.
Qed.

Lemma cellKey_env s s0 p : env s = env s0 -> cellKey s p = cellKey s0 p.
Proof. unfold env. intros [= _ _ _ _ _ Hc _]. unfold cellKey. rewrite Hc. reflexivity. Qed.

(** What is read back from slot [j] of a [Float32Array] after [v] was
    stored there: the rounded value, or [undefined] (in arithmetic, [NaN])
    when the buffer has no such slot. *)
Definition readback (buf : Float32Array) (j : nat) (v : number) : number :=
  if Nat.ltb j (length buf) then fround v else nan.

Lemma f32_set_pair_lookup (buf : Float32Array) i a b :
  ToNumber (f32_set (i * 2 + 1) b (f32_set (i * 2) a buf) !! (i * 2)) = readback buf (i * 2) a
  /\ ToNumber (f32_set (i * 2 + 1) b (f32_set (i * 2) a buf) !! (i * 2 + 1))
     = readback buf (i * 2 + 1) b.
Proof.
  unfold f32_set, readback. split.
  - rewrite list_lookup_insert_ne by lia.
    destruct (Nat.ltb_spec (i * 2) (length buf)).
    + rewrite list_lookup_insert_eq by lia. reflexivity.
    + rewrite lookup_ge_None_2 by (rewrite length_insert; lia). reflexivity.
  - destruct (Nat.ltb_spec (i * 2 + 1) (length buf)).
    + rewrite list_lookup_insert_eq by (rewrite length_insert; lia). reflexivity.
    + rewrite lookup_ge_None_2 by (rewrite !length_insert; lia). reflexivity.
Qed.

(** A slot of a buffer after the pair of stores at [i*2] and [i*2+1]. *)
Lemma f32_set_pair (buf : Float32Array) i a b k :
  f32_set (i * 2 + 1) b (f32_set (i * 2) a buf) !! k =
    if Nat.eqb k (i * 2) then (fun _ => fround a) <$> buf !! k
    else if Nat.eqb k (i * 2 + 1) then (fun _ => fround b) <$> buf !! k
    else buf !! k.
Proof.
  unfold f32_set.
  destruct (Nat.eqb_spec k (i * 2)) as [-> | Hne1].
  - rewrite list_lookup_insert_ne by lia.
    destruct (buf !! (i * 2)) eqn:E.
    + apply lookup_lt_Some in E. rewrite list_lookup_insert_eq by lia. reflexivity.
    + apply lookup_ge_None in E. rewrite lookup_ge_None_2 by (rewrite length_insert; lia).
      reflexivity.
  - destruct (Nat.eqb_spec k (i * 2 + 1)) as [-> | Hne2].
    + destruct (buf !! (i * 2 + 1)) eqn:E.
      * apply lookup_lt_Some in E.
        rewrite list_lookup_insert_eq by (rewrite length_insert; lia). reflexivity.
      * apply lookup_ge_None in E.
        rewrite lookup_ge_None_2 by (rewrite !length_insert; lia). reflexivity.
    + rewrite !list_lookup_insert_ne by lia. reflexivity.
Qed.

Lemma f32_set_length i v (buf : Float32Array) : length (f32_set i v buf) = length buf.
Proof. apply length_insert. Qed.

(** The particle [p] of index [i] after one frame of a simulation in state
    [s]: force, velocity, damping, position, walls. *)
Definition moved (now : nat -> number) (dt : number) (s : t) (i : nat) (p : Particle.t)
    : Particle.t :=
  let f := particleForce (now i) s p in
  handleBoundaries s
    (integrate s dt (readback (forces s) (i * 2) (fst f))
                    (readback (forces s) (i * 2 + 1) (snd f)) p).

(** [updateSpatialHash] on the map alone. *)
Definition hashInsert (k : key) (i : nat) (h : SpatialHash) : SpatialHash :=
  hash_push k i (if hash_has k h then h else h ++ [(k, [])]).

(** The spatial hash after the particles below [m] were entered. *)
Definition hashAfter (now : nat -> number) (dt : number) (s : t) (m : nat) : SpatialHash :=
  foldl (fun h j => match particles s !! j with
                    | Some p => hashInsert (cellKey s (moved now dt s j p)) j h
                    | None => h
                    end)
        (spatialHash s) (seq 0 m).

(** The state of the loop of [update] once the particles below [m] are
    done, in terms of the state [s0] the loop started in. *)
Record LoopInv (now : nat -> number) (dt : number) (s0 : t) (m : nat) (s : t) : Prop := {
  inv_env : env s = env s0;
  inv_fields : velocityField s = velocityField s0 /\ pressureField s = pressureField s0
               /\ useGPU s = useGPU s0 /\ useWorkers s = useWorkers s0;
  inv_length : length (particles s) = length (particles s0)
               /\ length (forces s) = length (forces s0)
               /\ length (positions s) = length (positions s0)
               /\ length (velocities s) = length (velocities s0);
  inv_particles : forall j,
      particles s !! j
      = (fun p => if Nat.ltb j m then moved now dt s0 j p else p) <$> particles s0 !! j;
  inv_positions : forall j p, j < m -> particles s0 !! j = Some p ->
      positions s !! (j * 2)
        = (fun _ => fround (Particle.x (moved now dt s0 j p))) <$> positions s0 !! (j * 2)
      /\ positions s !! (j * 2 + 1)
        = (fun _ => fround (Particle.y (moved now dt s0 j p))) <$> positions s0 !! (j * 2 + 1);
  inv_velocities : forall j p, j < m -> particles s0 !! j = Some p ->
      velocities s !! (j * 2)
        = (fun _ => fround (Particle.vx (moved now dt s0 j p))) <$> velocities s0 !! (j * 2)
      /\ velocities s !! (j * 2 + 1)
        = (fun _ => fround (Particle.vy (moved now dt s0 j p))) <$> velocities s0 !! (j * 2 + 1);
  inv_hash : spatialHash s
             = if useSpatialHashing s0 then hashAfter now dt s0 m else spatialHash s0
}.

Lemma LoopInv_start now dt s0 : LoopInv now dt s0 0 s0.
Proof.
  split; auto.
  - intros j. destruct (particles s0 !! j); reflexivity.
  - intros; lia.
  - intros; lia.
  - destruct (useSpatialHashing s0); reflexivity.
Qed.

Lemma moved_env now dt s s0 i p :
  env s = env s0 -> length (forces s) = length (forces s0) ->
  moved now dt s i p = moved now dt s0 i p.
Proof.
  intros He Hl. unfold moved, readback.
  rewrite (handleBoundaries_env _ _ _ He), (integrate_env _ _ _ _ _ _ He),
    (particleForce_env _ _ _ _ He), Hl. reflexivity.
Qed.

(** One turn of the loop, as a whole. *)
Lemma updateParticle_eq now dt i s p :
  particles s !! i = Some p ->
  let p' := moved now dt s i p in
  let f := particleForce (now i) s p in
  updateParticle now dt i s =
    Some (mk (width s) (height s) (params s) (<[i:=p']> (particles s))
             (velocityField s) (pressureField s) (useGPU s) (useWorkers s)
             (useSpatialHashing s)
             (if useSpatialHashing s then hashInsert (cellKey s p') i (spatialHash s)
              else spatialHash s)
             (cellSize s)
             (f32_set (i * 2 + 1) (snd f) (f32_set (i * 2) (fst f) (forces s)))
             (f32_set (i * 2 + 1) (Particle.y p') (f32_set (i * 2) (Particle.x p') (positions s)))
             (f32_set (i * 2 + 1) (Particle.vy p') (f32_set (i * 2) (Particle.vx p') (velocities s)))
             (currentScene s) (audioInfluence s)).
Proof.
  intros Hp p' f. unfold updateParticle. rewrite Hp. cbn [mbind option_bind].
  set (s1 := applyParticleForces (now i) p i dt s).
  assert (Henv1 : env s1 = env s) by reflexivity.
  assert (Hmoved : handleBoundaries s1
            (integrate s1 dt (ToNumber (forces s1 !! (i * 2)))
                       (ToNumber (forces s1 !! (i * 2 + 1))) p) = p').
  { unfold p', moved.
    rewrite (handleBoundaries_env _ _ _ Henv1), (integrate_env _ _ _ _ _ _ Henv1).
    change (forces s1) with
      (f32_set (i * 2 + 1) (snd (particleForce (now i) s p))
         (f32_set (i * 2) (fst (particleForce (now i) s p)) (forces s))).
    destruct (f32_set_pair_lookup (forces s) i (fst (particleForce (now i) s p))
                (snd (particleForce (now i) s p))) as [-> ->].
    reflexivity. }
  rewrite Hmoved. clear Hmoved Henv1. subst s1.
  change (useSpatialHashing (set_particles (applyParticleForces (now i) p i dt s)
            (<[i:=p']> (particles (applyParticleForces (now i) p i dt s)))))
    with (useSpatialHashing s).
  unfold set_buffers, updateSpatialHash, set_spatialHash, set_particles,
    applyParticleForces, set_forces, hashInsert.
  destruct (useSpatialHashing s) eqn:E;
    cbn [width height params particles velocityField pressureField useGPU useWorkers
         useSpatialHashing spatialHash cellSize forces positions velocities
         currentScene audioInfluence]; rewrite ?E; reflexivity.
Qed.

Lemma lookup_const_fmap {A B : Type} (l1 l2 : list A) (k : nat) (v : B) :
  length l1 = length l2 -> (fun _ => v) <$> l1 !! k = (fun _ => v) <$> l2 !! k.
Proof.
  intros Hl. destruct (l1 !! k) eqn:E1, (l2 !! k) eqn:E2; try reflexivity; exfalso;
    [apply lookup_lt_Some in E1; apply lookup_ge_None in E2
    |apply lookup_lt_Some in E2; apply lookup_ge_None in E1]; lia.
Qed.

(** The pair of stores of turn [m] seen from the slots of particle [j]. *)
Lemma f32_set_pair_inv (buf buf0 : Float32Array) (m j : nat) (a b a0 b0 : number) :
  length buf = length buf0 -> j < S m ->
  (j = m -> a0 = a /\ b0 = b) ->
  (j < m -> buf !! (j * 2) = (fun _ => fround a0) <$> buf0 !! (j * 2)
            /\ buf !! (j * 2 + 1) = (fun _ => fround b0) <$> buf0 !! (j * 2 + 1)) ->
  f32_set (m * 2 + 1) b (f32_set (m * 2) a buf) !! (j * 2)
    = (fun _ => fround a0) <$> buf0 !! (j * 2)
  /\ f32_set (m * 2 + 1) b (f32_set (m * 2) a buf) !! (j * 2 + 1)
    = (fun _ => fround b0) <$> buf0 !! (j * 2 + 1).
Proof.
  intros Hl Hj Heq Hlt. rewrite !f32_set_pair.
  destruct (Nat.eq_dec j m) as [-> | Hne].
  - destruct (Heq eq_refl) as [-> ->].
    rewrite Nat.eqb_refl. replace (m * 2 + 1 =? m * 2) with false
      by (symmetry; apply Nat.eqb_neq; lia). rewrite Nat.eqb_refl.
    split; apply lookup_const_fmap; exact Hl.
  - replace (j * 2 =? m * 2) with false by (symmetry; apply Nat.eqb_neq; lia).
    replace (j * 2 =? m * 2 + 1) with false by (symmetry; apply Nat.eqb_neq; lia).
    replace (j * 2 + 1 =? m * 2) with false by (symmetry; apply Nat.eqb_neq; lia).
    replace (j * 2 + 1 =? m * 2 + 1) with false by (symmetry; apply Nat.eqb_neq; lia).
    apply Hlt. lia.
Qed.

Lemma updateParticle_step now dt s0 m s :
  LoopInv now dt s0 m s -> m < length (particles s0) ->
  exists s', updateParticle now dt m s = Some s' /\ LoopInv now dt s0 (S m) s'.
Proof.
  intros [Henv Hfields (Hlp & Hlf & Hlq & Hlv) Hparts Hpos Hvel Hhash] Hm.
  destruct (lookup_lt_is_Some_2 (particles s0) m Hm) as [p Hp].
  assert (Hsp : particles s !! m = Some p).
  { rewrite Hparts, Hp. simpl. rewrite Nat.ltb_irrefl. reflexivity. }
  rewrite (updateParticle_eq now dt m s p Hsp).
  rewrite (moved_env now dt s s0 m p Henv Hlf).
  set (p' := moved now dt s0 m p).
  eexists. split; [reflexivity |].
  assert (Hus : useSpatialHashing s = useSpatialHashing s0).
  { unfold env in Henv. injection Henv. auto. }
  split; cbn [width height params particles velocityField pressureField useGPU useWorkers
              useSpatialHashing spatialHash cellSize forces positions velocities
              currentScene audioInfluence env].
  - exact Henv.
  - exact Hfields.
  - rewrite !f32_set_length, length_insert. auto.
  - intros j. destruct (Nat.eq_dec j m) as [-> | Hne].
    + rewrite list_lookup_insert_eq by lia. rewrite Hp. simpl.
      destruct (Nat.ltb_spec m (S m)); [reflexivity | lia].
    + rewrite list_lookup_insert_ne by lia. rewrite Hparts.
      destruct (particles s0 !! j); simpl; [| reflexivity].
      destruct (Nat.ltb_spec j m), (Nat.ltb_spec j (S m)); try lia; reflexivity.
  - intros j q Hj Hq. apply f32_set_pair_inv; [exact Hlq | exact Hj | |].
    + intros ->. assert (q = p) by congruence. subst q. auto.
    + intros Hlt. apply Hpos; auto.
  - intros j q Hj Hq. apply f32_set_pair_inv; [exact Hlv | exact Hj | |].
    + intros ->. assert (q = p) by congruence. subst q. auto.
    + intros Hlt. apply Hvel; auto.
  - rewrite <- Hus. destruct (useSpatialHashing s) eqn:Eus.
    + rewrite <- Hus in Hhash. unfold hashAfter. rewrite seq_S, foldl_app. simpl.
      rewrite Hp. fold (hashAfter now dt s0 m). rewrite <- Hhash.
      rewrite (cellKey_env _ _ _ Henv). reflexivity.
    + rewrite <- Hus in Hhash. exact Hhash.
Qed.

Lemma loop_prefix now dt s0 m :
  m <= length (particles s0) ->
  exists s, forM (seq 0 m) (updateParticle now dt) s0 = Some s /\ LoopInv now dt s0 m s.
Proof.
  induction m as [|m IH]; intros Hm.
  - exists s0. split; [reflexivity | apply LoopInv_start].
  - destruct IH as (s & Hs & Hinv); [lia |].
    destruct (updateParticle_step now dt s0 m s Hinv) as (s' & Hs' & Hinv'); [lia |].
    exists s'. split; [| exact Hinv'].
    rewrite seq_S, forM_app, Hs. simpl. rewrite Hs'. reflexivity.
Qed.

(** The batches of 100 of [update] visit every particle once, in order. *)
Lemma batches_cover n :
  concat ((fun i => seq i (Nat.min (i + 100) n - i)) <$> steps n 100) = seq 0 n.
Proof. apply steps_cover. lia. Qed.

Lemma batches_flatten now dt s0 :
  forM (steps (length (particles s0)) 100)
       (fun i s => updateParticleBatch now i (Nat.min (i + 100) (length (particles s))) dt s) s0
  = forM (seq 0 (length (particles s0))) (updateParticle now dt) s0.
Proof.
  set (n := length (particles s0)). unfold steps.
  assert (H : forall k, k <= (n + 100 - 1) / 100 ->
            forM ((fun k => k * 100) <$> seq 0 k)
              (fun i s => updateParticleBatch now i (Nat.min (i + 100) (length (particles s))) dt s) s0
            = forM (seq 0 (Nat.min (k * 100) n)) (updateParticle now dt) s0).
  { induction k as [|k IH]; intros Hk; [reflexivity |].
    rewrite seq_S, fmap_app, forM_app, IH by lia.
    destruct (loop_prefix now dt s0 (Nat.min (k * 100) n)) as (s & Hs & Hinv); [lia |].
    rewrite Hs. cbn [fmap list_fmap Nat.add mbind option_bind forM].
    unfold updateParticleBatch.
    destruct Hinv as [_ _ (-> & _) _ _ _ _]. fold n.
    pose proof (div_ceil_lt n 100 k) as Hlt.
    replace (Nat.min (S k * 100) n) with
      (Nat.min (k * 100) n + (Nat.min (k * 100 + 100) n - k * 100)) by lia.
    rewrite seq_app, forM_app, Hs. cbn [mbind option_bind].
    replace (0 + Nat.min (k * 100) n) with (k * 100) by lia.
    destruct (forM _ _ s); reflexivity. }
  rewrite H by lia. pose proof (div_ceil_ge n 100). f_equal. f_equal. lia.
Qed.

(** [update] never throws; its result is the state the loop over all the
    particles ends in, with the velocity field decayed. *)
Lemma update_inv now deltaTime audioData s :
  let dt := Math_min (deltaTime / 1000)%float 0.016%float in
  let s1 := match audioData with
            | Some a => updateAudioInfluence a s
            | None => s
            end in
  let s2 := if useSpatialHashing s1 then set_spatialHash s1 [] else s1 in
  exists s3, update now deltaTime audioData s = Some (updateVelocityField dt s3)
             /\ LoopInv now dt s2 (length (particles s)) s3.
Proof.
  intros dt s1 s2. unfold update. fold dt. fold s1. fold s2.
  assert (Hl : length (particles s2) = length (particles s)).
  { unfold s2, s1. destruct audioData; simpl;
      match goal with |- context [if ?c then _ else _] => destruct c end; reflexivity. }
  rewrite batches_flatten.
  destruct (loop_prefix now dt s2 (length (particles s2))) as (s3 & Hs3 & Hinv); [lia |].
  rewrite Hs3. simpl. exists s3. split; [reflexivity |]. rewrite <- Hl. exact Hinv.
Qed.


(** *** The spatial hash *)

Lemma key_eqb_eq (k1 k2 : key) : key_eqb k1 k2 = true <-> k1 = k2.
Proof.
  unfold key_eqb. rewrite andb_true_iff, !Leibniz.eqb_spec.
  destruct k1, k2; simpl; split; [intros [-> ->] | intros [= -> ->]]; auto.
Qed.

Lemma key_eqb_refl (k : key) : key_eqb k k = true.
Proof. apply key_eqb_eq. reflexivity. Qed.

Lemma hash_has_get k h : hash_has k h = false <-> hash_get k h = None.
Proof.
  unfold hash_has, hash_get. induction h as [|e h IH]; simpl; [tauto |].
  destruct (key_eqb (fst e) k); simpl; [split; discriminate | exact IH].
Qed.

Lemma hash_get_push k k' i h :
  hash_get k (hash_push k' i h)
  = if key_eqb k' k then (fun l => l ++ [i]) <$> hash_get k h else hash_get k h.
Proof.
  unfold hash_get. induction h as [|e h IH]; simpl.
  - destruct (key_eqb k' k); reflexivity.
  - destruct (key_eqb (fst e) k') eqn:E1; simpl.
    + apply key_eqb_eq in E1. rewrite E1.
      destruct (key_eqb k' k); reflexivity.
    + destruct (key_eqb (fst e) k) eqn:E2; simpl.
      * apply key_eqb_eq in E2. rewrite <- E2.
        destruct (key_eqb k' (fst e)) eqn:E3; [| reflexivity].
        apply key_eqb_eq in E3. rewrite E3, key_eqb_refl in E1. discriminate.
      * exact IH.
Qed.

Lemma hash_get_snoc k k' h :
  hash_get k (h ++ [(k', [])])
  = match hash_get k h with
    | Some l => Some l
    | None => if key_eqb k' k then Some [] else None
    end.
Proof.
  unfold hash_get. induction h as [|e h IH]; simpl.
  - destruct (key_eqb k' k); reflexivity.
  - destruct (key_eqb (fst e) k); simpl; [reflexivity | exact IH].
Qed.

(** Entering [i] under [k] appends it to the indices of [k] and leaves the
    other cells alone. *)
Lemma hash_get_insert k k' i h :
  hash_get k (hashInsert k' i h)
  = if key_eqb k' k then Some (default [] (hash_get k h) ++ [i]) else hash_get k h.
Proof.
  unfold hashInsert. rewrite hash_get_push.
  destruct (hash_has k' h) eqn:Eh.
  - destruct (key_eqb k' k) eqn:E; [| reflexivity].
    apply key_eqb_eq in E. subst k'.
    destruct (hash_get k h) eqn:Eg; [reflexivity |].
    apply hash_has_get in Eg. congruence.
  - rewrite hash_get_snoc. destruct (key_eqb k' k) eqn:E.
    + apply key_eqb_eq in E. subst k'. apply hash_has_get in Eh. rewrite Eh. reflexivity.
    + destruct (hash_get k h); reflexivity.
Qed.

Lemma hash_get_insert_keeps k k' i j h l :
  hash_get k h = Some l -> i ∈ l ->
  exists l', hash_get k (hashInsert k' j h) = Some l' /\ i ∈ l'.
Proof.
  intros Hg Hi. rewrite hash_get_insert, Hg. destruct (key_eqb k' k).
  - eexists. split; [reflexivity |]. simpl. apply elem_of_app. auto.
  - eauto.
Qed.

(** Every particle below [m] is found in the hash under the cell of its
    new position. *)
Lemma hashAfter_member now dt s m i p :
  i < m -> particles s !! i = Some p ->
  exists l, hash_get (cellKey s (moved now dt s i p)) (hashAfter now dt s m) = Some l
            /\ i ∈ l.
Proof.
  induction m as [|m IH]; intros Hi Hp; [lia |].
  unfold hashAfter. rewrite seq_S, foldl_app. fold (hashAfter now dt s m).
  cbn [foldl Nat.add].
  destruct (Nat.eq_dec i m) as [-> | Hne].
  - rewrite Hp, hash_get_insert, key_eqb_refl.
    eexists. split; [reflexivity |]. apply elem_of_app. right. apply list_elem_of_singleton.
    reflexivity.
  - destruct IH as (l & Hl & Hil); [lia | exact Hp |].
    destruct (particles s !! m); [| eauto].
    eapply hash_get_insert_keeps; eauto.
Qed.


(** *** The frame as a whole *)

(** The state [update] computes forces in: the audio influence is
    refreshed when audio data is passed. *)
Definition afterAudio (audioData : option (list number)) (s : t) : t :=
  match audioData with
  | Some a => updateAudioInfluence a s
  | None => s
  end.

Lemma update_result now deltaTime audioData s :
  let dt := Math_min (deltaTime / 1000)%float 0.016%float in
  let s1 := afterAudio audioData s in
  exists s',
    update now deltaTime audioData s = Some s'
    /\ env s' = env s1
    /\ length (particles s') = length (particles s)
    /\ length (forces s') = length (forces s)
    /\ length (positions s') = length (positions s)
    /\ length (velocities s') = length (velocities s)
    /\ (forall i p, particles s !! i = Some p ->
          particles s' !! i = Some (moved now dt s1 i p)
          /\ positions s' !! (i * 2)
             = (fun _ => fround (Particle.x (moved now dt s1 i p))) <$> positions s !! (i * 2)
          /\ positions s' !! (i * 2 + 1)
             = (fun _ => fround (Particle.y (moved now dt s1 i p))) <$> positions s !! (i * 2 + 1)
          /\ velocities s' !! (i * 2)
             = (fun _ => fround (Particle.vx (moved now dt s1 i p))) <$> velocities s !! (i * 2)
          /\ velocities s' !! (i * 2 + 1)
             = (fun _ => fround (Particle.vy (moved now dt s1 i p))) <$> velocities s !! (i * 2 + 1)
          /\ (useSpatialHashing s = true ->
              exists l, hash_get (cellKey s (moved now dt s1 i p)) (spatialHash s') = Some l
                        /\ i ∈ l)).
Proof.
  intros dt s1.
  destruct (update_inv now deltaTime audioData s) as (s3 & Hu & Hinv).
  fold dt in Hu, Hinv. fold (afterAudio audioData s) in Hinv. fold s1 in Hinv.
  set (s2 := if useSpatialHashing s1 then set_spatialHash s1 [] else s1) in Hinv.
  assert (He2 : env s2 = env s1) by (unfold s2; destruct (useSpatialHashing s1); reflexivity).
  assert (Hf2 : forces s2 = forces s /\ positions s2 = positions s
                /\ velocities s2 = velocities s /\ particles s2 = particles s
                /\ useSpatialHashing s2 = useSpatialHashing s /\ cellSize s2 = cellSize s).
  { unfold s2, s1, afterAudio. destruct audioData; simpl;
      match goal with |- context [if ?c then _ else _] => destruct c eqn:E end;
      simpl; rewrite ?E; repeat split; reflexivity. }
  destruct Hf2 as (Hf & Hq & Hv & Hp & Hus & Hcs).
  assert (Hmv : forall i p, moved now dt s2 i p = moved now dt s1 i p).
  { intros. apply moved_env; [exact He2 |]. rewrite Hf. unfold s1, afterAudio.
    destruct audioData; reflexivity. }
  destruct Hinv as [Henv Hfields (Hlp & Hlf & Hlq & Hlv) Hparts Hpos Hvel Hhash].
  exists (updateVelocityField dt s3). split; [exact Hu |].
  split; [rewrite <- He2; exact Henv |].
  rewrite Hp in Hlp. rewrite Hf in Hlf. rewrite Hq in Hlq. rewrite Hv in Hlv.
  do 4 (split; [assumption |]).
  intros i p Hi. pose proof (lookup_lt_Some _ _ _ Hi) as Hlt.
  rewrite <- Hp in Hi.
  destruct (Hpos i p Hlt Hi) as [Hp1 Hp2]. destruct (Hvel i p Hlt Hi) as [Hv1 Hv2].
  rewrite Hmv in Hp1, Hp2, Hv1, Hv2. rewrite Hq in Hp1, Hp2. rewrite Hv in Hv1, Hv2.
  split.
  { change (particles (updateVelocityField dt s3)) with (particles s3).
    rewrite Hparts, Hi. simpl. destruct (Nat.ltb_spec i (length (particles s))); [| lia].
    rewrite Hmv. reflexivity. }
  do 4 (split; [assumption |]).
  intros Hu1. change (spatialHash (updateVelocityField dt s3)) with (spatialHash s3).
  rewrite Hhash, Hus, Hu1.
  destruct (hashAfter_member now dt s2 (length (particles s)) i p Hlt Hi) as (l & Hl & Hil).
  exists l. split; [| exact Hil]. rewrite <- Hl, Hmv. f_equal.
  unfold cellKey. rewrite Hcs. reflexivity.
Qed.

(** [update] with an empty array of audio samples: the call returns, and
    [audioInfluence] is [NaN] afterwards. *)
Theorem update_empty_audio_stores_NaN (now : nat -> number) (deltaTime : number) (s : t) :
  exists s', update now deltaTime (Some []) s = Some s'
             /\ audioInfluence s' = nan
             /\ (audioInfluence s <> nan -> audioInfluence s' <> audioInfluence s).
Proof.
  destruct (update_result now deltaTime (Some []) s) as (s' & Hu & He & _).
  exists s'. split; [exact Hu |].
  assert (Ha : audioInfluence s' = nan).
  { unfold env in He. injection He. intros _ _ -> _ _ _ _. reflexivity. }
  split; [exact Ha |]. rewrite Ha. auto.
Qed.

(** C6: [update] returns; its batches of 100 cover the particles once, in
    order; the step is [dt = min(deltaTime/1000, 0.016)]; and particle [i]
    ends as: force [f] computed and stored in [forces], velocity
    [v1 = v + f*dt], damping [v2 = v1 * 0.99], position
    [p1 = p + v2*dt*speed], boundary handling, and, when spatial hashing is
    on, its index entered in the hash under the cell of the position it
    ends at. *)
Theorem update_pipeline (now : nat -> number) (deltaTime : number)
    (audioData : option (list number)) (s : t) :
  let dt := Math_min (deltaTime / 1000)%float 0.016%float in
  let s1 := afterAudio audioData s in
  exists s',
    update now deltaTime audioData s = Some s'
    /\ concat ((fun i => seq i (Nat.min (i + 100) (length (particles s)) - i))
                 <$> steps (length (particles s)) 100)
       = seq 0 (length (particles s))
    /\ length (particles s') = length (particles s)
    /\ forall i p, particles s !! i = Some p ->
        let f := particleForce (now i) s1 p in
        let fx := readback (forces s) (i * 2) (fst f) in
        let fy := readback (forces s) (i * 2 + 1) (snd f) in
        let vx1 := (Particle.vx p + fx * dt)%float in
        let vy1 := (Particle.vy p + fy * dt)%float in
        let vx2 := (vx1 * 0.99)%float in
        let vy2 := (vy1 * 0.99)%float in
        let x1 := (Particle.x p + vx2 * dt * speed (params s))%float in
        let y1 := (Particle.y p + vy2 * dt * speed (params s))%float in
        let p' := handleBoundaries s
                    (Particle.mk x1 y1 vx2 vy2
                       (Particle.life p) (Particle.color p) (Particle.size p)) in
        particles s' !! i = Some p'
        /\ (useSpatialHashing s = true ->
            exists l, hash_get (cellKey s p') (spatialHash s') = Some l /\ i ∈ l).
Proof.
  intros dt s1.
  destruct (update_result now deltaTime audioData s) as (s' & Hu & _ & Hl & _ & _ & _ & H).
  fold dt in H. fold s1 in H.
  exists s'. split; [exact Hu |]. split; [apply batches_cover |]. split; [exact Hl |].
  intros i p Hi f fx fy vx1 vy1 vx2 vy2 x1 y1 p'.
  assert (Hm : moved now dt s1 i p = p').
  { unfold moved, p', x1, y1, vx2, vy2, vx1, vy1, fx, fy, f, s1, afterAudio.
    destruct audioData; reflexivity. }
  destruct (H i p Hi) as (Hp & _ & _ & _ & _ & Hh). rewrite Hm in Hp, Hh. auto.
Qed.


(** *** The typed buffers mirror the particles *)

(** The buffers are sized for the particles. *)
Definition sized (s : t) : Prop :=
  length (particles s) = particleCount (params s)
  /\ length (forces s) = particleCount (params s) * 2
  /\ length (positions s) = particleCount (params s) * 2
  /\ length (velocities s) = particleCount (params s) * 2.

(** [positions] holds every particle's position, rounded to binary32 by
    the store. *)
Definition positionsMirror (s : t) : Prop :=
  forall i p, particles s !! i = Some p ->
    positions s !! (i * 2) = Some (fround (Particle.x p))
    /\ positions s !! (i * 2 + 1) = Some (fround (Particle.y p)).

(** [velocities] holds every particle's velocity, rounded to binary32. *)
Definition velocitiesMirror (s : t) : Prop :=
  forall i p, particles s !! i = Some p ->
    velocities s !! (i * 2) = Some (fround (Particle.vx p))
    /\ velocities s !! (i * 2 + 1) = Some (fround (Particle.vy p)).

Lemma f32_set_pair_new (buf : Float32Array) (m i : nat) (a b a0 b0 : number) :
  m * 2 + 1 < length buf -> i <= m ->
  (i = m -> a0 = a /\ b0 = b) ->
  (i < m -> buf !! (i * 2) = Some (fround a0) /\ buf !! (i * 2 + 1) = Some (fround b0)) ->
  f32_set (m * 2 + 1) b (f32_set (m * 2) a buf) !! (i * 2) = Some (fround a0)
  /\ f32_set (m * 2 + 1) b (f32_set (m * 2) a buf) !! (i * 2 + 1) = Some (fround b0).
Proof.
  intros Hm Hi Heq Hlt. rewrite !f32_set_pair.
  destruct (Nat.eq_dec i m) as [-> | Hne].
  - destruct (Heq eq_refl) as [-> ->].
    rewrite Nat.eqb_refl. replace (m * 2 + 1 =? m * 2) with false
      by (symmetry; apply Nat.eqb_neq; lia). rewrite Nat.eqb_refl.
    destruct (lookup_lt_is_Some_2 buf (m * 2)) as [v1 ->]; [lia |].
    destruct (lookup_lt_is_Some_2 buf (m * 2 + 1)) as [v2 ->]; [lia |].
    split; reflexivity.
  - replace (i * 2 =? m * 2) with false by (symmetry; apply Nat.eqb_neq; lia).
    replace (i * 2 =? m * 2 + 1) with false by (symmetry; apply Nat.eqb_neq; lia).
    replace (i * 2 + 1 =? m * 2) with false by (symmetry; apply Nat.eqb_neq; lia).
    replace (i * 2 + 1 =? m * 2 + 1) with false by (symmetry; apply Nat.eqb_neq; lia).
    apply Hlt. lia.
Qed.

(** The loop of [initializeParticles] after [m] turns. *)
Record InitInv (s0 : t) (m : nat) (s : t) : Prop := {
  init_params : params s = params s0;
  init_forces : forces s = forces s0;
  init_count : length (particles s) = m;
  init_length : length (positions s) = length (positions s0)
                /\ length (velocities s) = length (velocities s0);
  init_positions : positionsMirror s;
  init_velocities : velocitiesMirror s
}.

Lemma initializeParticle_step rnd s0 m s :
  InitInv s0 m s -> m * 2 + 1 < length (positions s0) ->
  m * 2 + 1 < length (velocities s0) ->
  InitInv s0 (S m) (initializeParticle rnd m s).
Proof.
  intros [Hp Hf Hc (Hlq & Hlv) Hpos Hvel] Hmq Hmv.
  unfold initializeParticle.
  set (p := Particle.mk _ _ _ _ _ _ _).
  assert (Hq : default p ((particles s ++ [p]) !! m) = p).
  { rewrite lookup_app_r by lia. rewrite Hc, Nat.sub_diag. reflexivity. }
  rewrite Hq.
  assert (Hlk : forall i q, (particles s ++ [p]) !! i = Some q ->
                  i <= m /\ (i = m -> q = p) /\ (i < m -> particles s !! i = Some q)).
  { intros i q Hi. apply lookup_app_Some in Hi. destruct Hi as [Hi | [Hge Hi]].
    - pose proof (lookup_lt_Some _ _ _ Hi). split; [lia | split; [lia | auto]].
    - rewrite Hc in Hge, Hi. destruct (i - m) eqn:E; simpl in Hi; [| discriminate].
      injection Hi as <-. split; [lia | split; [auto | lia]]. }
  split; cbn [params forces particles positions velocities].
  - exact Hp.
  - exact Hf.
  - rewrite length_app, Hc. simpl. lia.
  - rewrite !f32_set_length. auto.
  - intros i q Hi. destruct (Hlk i q Hi) as (Hle & Heq & Hlt).
    apply f32_set_pair_new; [lia | exact Hle | | ].
    + intros E. rewrite (Heq E). auto.
    + intros E. apply Hpos. auto.
  - intros i q Hi. destruct (Hlk i q Hi) as (Hle & Heq & Hlt).
    apply f32_set_pair_new; [lia | exact Hle | | ].
    + intros E. rewrite (Heq E). auto.
    + intros E. apply Hvel. auto.
Qed.

(** [initializeParticles] on buffers sized for the particle count. *)
Lemma initializeParticles_mirror rnd s :
  length (positions s) = particleCount (params s) * 2 ->
  length (velocities s) = particleCount (params s) * 2 ->
  let s' := initializeParticles rnd s in
  params s' = params s /\ forces s' = forces s
  /\ length (particles s') = particleCount (params s)
  /\ length (positions s') = particleCount (params s) * 2
  /\ length (velocities s') = particleCount (params s) * 2
  /\ positionsMirror s' /\ velocitiesMirror s'.
Proof.
  intros Hq Hv s'.
  assert (H : forall m, m <= particleCount (params s) ->
            InitInv s m (foldl (fun s i => initializeParticle rnd i s)
                               (set_particles s []) (seq 0 m))).
  { induction m as [|m IH]; intros Hm.
    - split; auto; intros i p Hi; discriminate.
    - rewrite seq_S, foldl_app. apply initializeParticle_step; [apply IH |..]; lia. }
  destruct (H (particleCount (params s))) as [Hp Hf Hc (Hlq & Hlv) Hpos Hvel]; [lia |].
  fold (initializeParticles rnd s) in Hp, Hf, Hc, Hlq, Hlv, Hpos, Hvel. fold s' in Hp, Hf, Hc, Hlq, Hlv, Hpos, Hvel.
  repeat split; try assumption; try congruence; try apply Hpos; try apply Hvel; auto.
Qed.


(** The states a simulation goes through: built by the constructor, then
    changed by its methods. *)
Inductive reachable : t -> Prop :=
| reach_new rnd w h a s :
    new rnd w h a = Some s -> reachable s
| reach_update now deltaTime audioData s s' :
    reachable s -> update now deltaTime audioData s = Some s' -> reachable s'
| reach_addForce x y strength s :
    reachable s -> reachable (addForce x y strength s)
| reach_setScene sceneName s :
    reachable s -> reachable (setScene sceneName s)
| reach_setViscosity v s :
    reachable s -> reachable (setViscosity v s)
| reach_setDensity v s :
    reachable s -> reachable (setDensity v s)
| reach_setSpeed v s :
    reachable s -> reachable (setSpeed v s)
| reach_setResolution v s :
    reachable s -> reachable (setResolution v s)
| reach_setParticleCount rnd count s :
    reachable s -> reachable (setParticleCount rnd count s)
| reach_resize w h s s' :
    reachable s -> resize w h s = Some s' -> reachable s'.

Lemma initializeFields_keeps s s' :
  initializeFields s = Some s' ->
  params s' = params s /\ particles s' = particles s /\ forces s' = forces s
  /\ positions s' = positions s /\ velocities s' = velocities s.
Proof.
  unfold initializeFields. destruct (ToLength _); simpl; [| discriminate].
  intros [= <-]. repeat split; reflexivity.
Qed.

Lemma new_mirror rnd w h a s :
  new rnd w h a = Some s ->
  sized s /\ positionsMirror s /\ velocitiesMirror s
  /\ particleCount (params s) = default 1000 (arg_particleCount a).
Proof.
  unfold new. intros Hn. apply initializeFields_keeps in Hn.
  destruct Hn as (Hp & Hps & Hf & Hq & Hv).
  match type of Hp with _ = params (initializeParticles rnd ?st) => set (s0 := st) in * end.
  destruct (initializeParticles_mirror rnd s0) as (Hp' & Hf' & Hc & Hlq & Hlv & Hpm & Hvm).
  { unfold s0. simpl. apply length_replicate. }
  { unfold s0. simpl. apply length_replicate. }
  unfold sized, positionsMirror, velocitiesMirror.
  rewrite Hp, Hps, Hf, Hq, Hv, Hp', Hf'.
  repeat split; try assumption; try apply Hpm; try apply Hvm; auto.
  unfold s0. simpl. apply length_replicate.
Qed.

Lemma setParticleCount_mirror rnd count s :
  count <> particleCount (params s) ->
  let s' := setParticleCount rnd count s in
  sized s' /\ particleCount (params s') = count /\ positionsMirror s' /\ velocitiesMirror s'.
Proof.
  intros Hne s'. unfold s', setParticleCount.
  destruct (Nat.eqb_spec count (particleCount (params s))) as [E | _]; [contradiction |].
  match goal with |- context [initializeParticles rnd ?st] => set (s0 := st) end.
  destruct (initializeParticles_mirror rnd s0) as (Hp' & Hf' & Hc & Hlq & Hlv & Hpm & Hvm).
  { unfold s0. simpl. apply length_replicate. }
  { unfold s0. simpl. apply length_replicate. }
  unfold sized. rewrite Hp', Hf'.
  repeat split; try assumption; try apply Hpm; try apply Hvm; auto.
  unfold s0. simpl. apply length_replicate.
Qed.

Lemma addForceTo_keeps x y strength p :
  Particle.x (addForceTo x y strength p) = Particle.x p
  /\ Particle.y (addForceTo x y strength p) = Particle.y p
  /\ Particle.life (addForceTo x y strength p) = Particle.life p
  /\ Particle.color (addForceTo x y strength p) = Particle.color p
  /\ Particle.size (addForceTo x y strength p) = Particle.size p.
Proof.
  unfold addForceTo.
  match goal with |- context [if ?c then _ else _] => destruct c end;
    repeat split; reflexivity.
Qed.

Lemma update_mirror now deltaTime audioData s s' :
  sized s -> update now deltaTime audioData s = Some s' ->
  sized s' /\ positionsMirror s' /\ velocitiesMirror s'.
Proof.
  intros (Hc & Hf & Hq & Hv) Hu.
  destruct (update_result now deltaTime audioData s)
    as (s'' & Hu' & He & Hlp & Hlf & Hlq & Hlv & H).
  rewrite Hu in Hu'. injection Hu' as <-.
  assert (Hpar : params s' = params s).
  { unfold env in He. injection He. intros _ _ _ _ -> _ _.
    unfold afterAudio. destruct audioData; reflexivity. }
  assert (Hlk : forall i p', particles s' !! i = Some p' ->
            exists p, particles s !! i = Some p /\ i * 2 + 1 < length (positions s)
                      /\ i * 2 + 1 < length (velocities s)).
  { intros i p' Hi. apply lookup_lt_Some in Hi. rewrite Hlp in Hi.
    destruct (lookup_lt_is_Some_2 (particles s) i Hi) as [p Hp].
    exists p. split; [exact Hp |]. lia. }
  split; [unfold sized; rewrite Hpar; lia |].
  split; intros i p' Hi; destruct (Hlk i p' Hi) as (p & Hp & Hbq & Hbv);
    destruct (H i p Hp) as (Hp' & Hq1 & Hq2 & Hv1 & Hv2 & _);
    assert (moved now (Math_min (deltaTime / 1000)%float 0.016%float)
                  (afterAudio audioData s) i p = p') as <- by congruence.
  - rewrite Hq1, Hq2.
    destruct (lookup_lt_is_Some_2 (positions s) (i * 2)) as [v1 ->]; [lia |].
    destruct (lookup_lt_is_Some_2 (positions s) (i * 2 + 1)) as [v2 ->]; [lia |].
    split; reflexivity.
  - rewrite Hv1, Hv2.
    destruct (lookup_lt_is_Some_2 (velocities s) (i * 2)) as [v1 ->]; [lia |].
    destruct (lookup_lt_is_Some_2 (velocities s) (i * 2 + 1)) as [v2 ->]; [lia |].
    split; reflexivity.
Qed.

Lemma addForce_mirror x y strength s :
  sized s -> positionsMirror s ->
  sized (addForce x y strength s) /\ positionsMirror (addForce x y strength s).
Proof.
  intros Hs Hm. split.
  - unfold sized, addForce in *. simpl. rewrite length_fmap. exact Hs.
  - intros i p' Hi. unfold addForce in Hi. simpl in Hi.
    rewrite list_lookup_fmap in Hi.
    destruct (particles s !! i) as [p|] eqn:Hp; [| discriminate].
    injection Hi as <-. destruct (addForceTo_keeps x y strength p) as (-> & -> & _).
    apply (Hm i p Hp).
Qed.

(** In every state a simulation goes through, the buffers are sized for
    the particles and [positions] mirrors their positions. *)
Lemma reachable_mirror s : reachable s -> sized s /\ positionsMirror s.
Proof.
  induction 1 as [rnd w h a s Hn | now dT ad s s' _ [IHs IHm] Hu
                 | x y st s _ [IHs IHm] | sc s _ IH | v s _ IH | v s _ IH | v s _ IH
                 | v s _ IH | rnd count s _ [IHs IHm] | w h s s' _ [IHs IHm] Hr].
  - apply new_mirror in Hn. tauto.
  - destruct (update_mirror _ _ _ _ _ IHs Hu). tauto.
  - apply addForce_mirror; assumption.
  - exact IH.
  - exact IH.
  - exact IH.
  - exact IH.
  - exact IH.
  - destruct (Nat.eq_dec count (particleCount (params s))) as [E | Hne].
    + unfold setParticleCount. rewrite E, Nat.eqb_refl. auto.
    + destruct (setParticleCount_mirror rnd count s Hne) as (? & _ & ? & _). auto.
  - unfold resize in Hr. apply initializeFields_keeps in Hr.
    destruct Hr as (Hp & Hps & Hf & Hq & Hv).
    unfold sized, positionsMirror. rewrite Hp, Hps, Hf, Hq, Hv. auto.
Qed.


(** C9 (amended): the constructor leaves [positions] and [velocities] with
    exactly [2N] slots for the [N] particles it creates, holding every
    particle's [x], [y], [vx], [vy] rounded to binary32 (the buffers are
    [Float32Array]s); so does a [setParticleCount] that changes the count,
    while one that repeats the count changes nothing; and in every state
    the simulation goes through afterwards, in particular after every
    [update], the buffers have [2N] slots and [positions[2i]],
    [positions[2i+1]] are the binary32 roundings of [particles[i].x],
    [particles[i].y]. *)
Theorem buffers_mirror_particles :
  (forall rnd w h a s, new rnd w h a = Some s ->
     let N := default 1000 (arg_particleCount a) in
     length (particles s) = N
     /\ length (positions s) = 2 * N /\ length (velocities s) = 2 * N
     /\ positionsMirror s /\ velocitiesMirror s)
  /\ (forall rnd count s, reachable s ->
        let s' := setParticleCount rnd count s in
        length (particles s') = count
        /\ length (positions s') = 2 * count /\ length (velocities s') = 2 * count
        /\ positionsMirror s'
        /\ (count <> particleCount (params s) -> velocitiesMirror s')
        /\ (count = particleCount (params s) -> s' = s))
  /\ (forall s, reachable s ->
        length (positions s) = 2 * length (particles s)
        /\ length (velocities s) = 2 * length (particles s)
        /\ positionsMirror s)
  /\ (forall now deltaTime audioData s s', reachable s ->
        update now deltaTime audioData s = Some s' ->
        positionsMirror s' /\ velocitiesMirror s').
Proof.
  split; [| split; [| split]].
  - intros rnd w h a s Hn N. destruct (new_mirror rnd w h a s Hn) as ((Hc & _ & Hq & Hv) & Hpm & Hvm & HN).
    fold N in HN. rewrite HN in Hc, Hq, Hv. repeat split; try lia; try apply Hpm; try apply Hvm; auto.
  - intros rnd count s Hr s'.
    destruct (Nat.eq_dec count (particleCount (params s))) as [E | Hne].
    + assert (Hs : s' = s) by (unfold s', setParticleCount; rewrite E, Nat.eqb_refl; reflexivity).
      rewrite Hs. destruct (reachable_mirror s Hr) as ((Hc & _ & Hq & Hv) & Hpm).
      rewrite E. repeat split; try lia; try apply Hpm; auto; try (intros; contradiction).
    + destruct (setParticleCount_mirror rnd count s Hne) as ((Hc & _ & Hq & Hv) & Hn & Hpm & Hvm).
      fold s' in Hc, Hq, Hv, Hn, Hpm, Hvm. rewrite Hn in Hc, Hq, Hv.
      repeat split; try lia; try apply Hpm; try apply Hvm; auto; try (intros; contradiction).
  - intros s Hr. destruct (reachable_mirror s Hr) as ((Hc & _ & Hq & Hv) & Hpm).
    repeat split; try lia; apply Hpm; auto.
  - intros now dT ad s s' Hr Hu. destruct (reachable_mirror s Hr) as (Hs & _).
    destruct (update_mirror _ _ _ _ _ Hs Hu) as (_ & ? & ?). auto.
Qed.


(** C10: [addForce] changes nothing but the particles, and of a particle
    nothing but [vx] and [vy], and those only when the particle passes the
    radius test; the three typed buffers are the ones it was given, so
    [velocities] keeps the old [vx], [vy] until an [update] stores the
    current ones again. *)
Theorem addForce_frame (x y strength : number) (s : t) :
  let s' := addForce x y strength s in
  positions s' = positions s /\ velocities s' = velocities s /\ forces s' = forces s
  /\ (width s', height s', params s', currentScene s', audioInfluence s')
     = (width s, height s, params s, currentScene s, audioInfluence s)
  /\ (spatialHash s', cellSize s', velocityField s', pressureField s')
     = (spatialHash s, cellSize s, velocityField s, pressureField s)
  /\ length (particles s') = length (particles s)
  /\ (forall i p, particles s !! i = Some p ->
        exists p', particles s' !! i = Some p'
          /\ Particle.x p' = Particle.x p /\ Particle.y p' = Particle.y p
          /\ Particle.life p' = Particle.life p /\ Particle.color p' = Particle.color p
          /\ Particle.size p' = Particle.size p
          /\ (let dx := (Particle.x p - x)%float in
              let dy := (Particle.y p - y)%float in
              let d2 := (dx * dx + dy * dy)%float in
              (d2 <? 50 * 50)%float && (0 <? d2)%float = false -> p' = p))
  /\ (forall now deltaTime audioData s'',
        sized s -> update now deltaTime audioData s' = Some s'' ->
        velocitiesMirror s'' /\ positionsMirror s'').
Proof.
  intros s'. do 5 (split; [reflexivity |]).
  split; [unfold s', addForce; simpl; apply length_fmap |].
  split.
  - intros i p Hp. exists (addForceTo x y strength p).
    split; [unfold s', addForce; simpl; rewrite list_lookup_fmap, Hp; reflexivity |].
    destruct (addForceTo_keeps x y strength p) as (-> & -> & -> & -> & ->).
    do 5 (split; [reflexivity |]).
    intros dx dy d2 H. unfold addForceTo. fold dx dy. fold d2. rewrite H. reflexivity.
  - intros now dT ad s'' Hs Hu.
    assert (Hs' : sized s').
    { unfold sized, s', addForce in *. simpl. rewrite length_fmap. exact Hs. }
    destruct (update_mirror _ _ _ _ _ Hs' Hu) as (_ & ? & ?). auto.
Qed.

End Update.

End SimulationFacts.

(** ** The simulation on concrete inputs *)

Module SimulationExamples.
Import JS FluidSimulation SimulationFacts.
Local Open Scope nat_scope.

(** A host for running the examples. Their scenes call none of its
    functions. *)
Definition sampleMath : MathLib :=
  {| Math_sin := fun x => x; Math_cos := fun x => x;
     Math_atan2 := fun y x => (y / x)%float; Math_pow := fun x y => (x * y)%float |}.

(** Values for the successive calls of [Math.random()]. *)
Definition sampleRandom (k : nat) : number :=
  (of_nat (k * 37 mod 100) / 100 + 0.003)%float.

Definition threeParticles : ParamsArg := mkParamsArg None None None (Some 3) None.

(** C9 as the specification states it fails at the first slot of
    [positions]: the particle's [x] is the binary64 product
    [Math.random() * width], the slot holds its binary32 rounding. *)
Lemma positions_hold_rounded_values :
  exists s p, new sampleRandom 40%float 30%float threeParticles = Some s
    /\ particles s !! 0 = Some p
    /\ length (positions s) = 6
    /\ positions s !! 0 = Some (fround (Particle.x p))
    /\ positions s !! 0 <> Some (Particle.x p).
Proof.
  eexists. eexists. split; [vm_compute; reflexivity |].
  split; [vm_compute; reflexivity |].
  split; [vm_compute; reflexivity |].
  split; [vm_compute; reflexivity |].
  intros [= H]; try (apply Leibniz.eqb_spec in H; vm_compute in H; discriminate).
Qed.

(** The amended C9 on a simulation of three particles: after the
    constructor, after a resizing [setParticleCount] and after an
    [update]. *)
Lemma buffers_mirror_particles_witness :
  exists s s', new sampleRandom 40%float 30%float threeParticles = Some s
    /\ (length (positions s) = 2 * 3 /\ positionsMirror s /\ velocitiesMirror s)
    /\ length (positions (setParticleCount sampleRandom 5 s)) = 2 * 5
    /\ update (M := sampleMath) (fun _ => 0%float) 16%float None s = Some s'
    /\ positionsMirror s'.
Proof.
  destruct (@buffers_mirror_particles sampleMath) as (Hnew & Hset & _ & Hupd).
  eexists. eexists.
  assert (Hn : new sampleRandom 40%float 30%float threeParticles = Some _)
    by (vm_compute; reflexivity).
  split; [exact Hn |].
  split; [destruct (Hnew _ _ _ _ _ Hn) as (_ & ? & _ & ? & ?); auto |].
  split; [destruct (Hset sampleRandom 5 _ (reach_new _ _ _ _ _ Hn)) as (_ & ? & _); auto |].
  match type of Hn with _ = Some ?s =>
    assert (Hu : update (M := sampleMath) (fun _ => 0%float) 16%float None s = Some _)
      by (vm_compute; reflexivity)
  end.
  split; [exact Hu |].
  destruct (Hupd _ _ _ _ _ (reach_new _ _ _ _ _ Hn) Hu) as [? _]. assumption.
Defined.

(** [addForce] leaves [velocities] behind: the particle 30 away from the
    impulse has [vx = 40], its slot still holds [0]. *)
Example addForce_leaves_velocities_stale :
  let near := Particle.mk 130%float 100%float 0%float 0%float 1%float 0%float 1%float in
  let s' := addForce 100%float 100%float 1%float (canvas [near]) in
  Particle.vx <$> particles s' !! 0 = Some 40%float /\ velocities s' !! 0 = Some 0%float.
Proof. vm_compute. split; reflexivity. Qed.

(** The amended C10's last part at work: once [update] has run, the slot
    holds the rounded velocity again. *)
Lemma addForce_frame_witness :
  let near := Particle.mk 130%float 100%float 0%float 0%float 1%float 0%float 1%float in
  let s' := addForce 100%float 100%float 1%float (canvas [near]) in
  velocities s' = velocities (canvas [near])
  /\ exists s'', update (M := sampleMath) (fun _ => 0%float) 16%float None s' = Some s''
                 /\ velocitiesMirror s''.
Proof.
  intros near s'.
  destruct (addForce_frame (M := sampleMath) 100%float 100%float 1%float (canvas [near]))
    as (_ & Hv & _ & _ & _ & _ & _ & Hupd).
  split; [exact Hv |]. eexists.
  assert (Hu : update (M := sampleMath) (fun _ => 0%float) 16%float None s' = Some _)
    by (vm_compute; reflexivity).
  split; [exact Hu |].
  apply (Hupd _ _ _ _ ltac:(repeat split; reflexivity) Hu).
Defined.

(** C2 on a simulation that had an influence of 0: after
    [update(16, [])] it is [NaN]. *)
Example update_empty_audio_ex :
  let p := Particle.mk 10%float 10%float 1%float 1%float 1%float 0%float 1%float in
  audioInfluence (canvas [p]) = 0%float
  /\ audioInfluence <$> update (M := sampleMath) (fun _ => 0%float) 16%float (Some []) (canvas [p])
     = Some nan.
Proof. vm_compute. split; reflexivity. Qed.

(** The empty array is what [main.js] passes while no analyser exists; in
    the vortex scene the [NaN] influence reaches the positions within one
    frame, and [handleBoundaries] lets them through. *)
Example update_empty_audio_spreads :
  let p := Particle.mk 10%float 10%float 1%float 1%float 1%float 0%float 1%float in
  (fun s => (fun q => is_nan (Particle.x q)) <$> particles s !! 0)
    <$> update (M := sampleMath) (fun _ => 0%float) 16%float (Some [])
          (setScene "vortex" (canvas [p]))
  = Some (Some true).
Proof. vm_compute. reflexivity. Qed.

End SimulationExamples.

(** ** The adaptive quality controller *)

Module QualityFacts.
Import JS OptimizationManager.
Local Open Scope nat_scope.

(** The ladder Low - Medium - High - Ultra. *)
Definition rank (q : QualityLevel) : nat :=
  match q with low => 0 | medium => 1 | high => 2 | ultra => 3 end.

(** One tier down, staying at Low. *)
Definition down (q : QualityLevel) : QualityLevel :=
  match q with ultra => high | high => medium | medium => low | low => low end.

(** One tier up, staying at Ultra. *)
Definition up (q : QualityLevel) : QualityLevel :=
  match q with low => medium | medium => high | high => ultra | ultra => ultra end.

(** The states a controller goes through. *)
Inductive reachable : t -> Prop :=
| reach_new : reachable new
| reach_adjustQuality currentFPS targetFPS s :
    reachable s -> reachable (adjustQuality currentFPS targetFPS s)
| reach_decreaseQuality s : reachable s -> reachable (decreaseQuality s)
| reach_increaseQuality s : reachable s -> reachable (increaseQuality s)
| reach_applyQualitySettings q s : reachable s -> reachable (applyQualitySettings q s)
| reach_setAdaptiveQuality b s : reachable s -> reachable (setAdaptiveQuality b s)
| reach_optimizeMemoryUsage s : reachable s -> reachable (optimizeMemoryUsage s).

(** What no method changes, and the bound on the window. *)
Definition steady (s : t) : Prop :=
  maxHistoryLength s = 60
  /\ fpsMin (optimizationThresholds s) = 45%float
  /\ fpsMax (optimizationThresholds s) = 120%float
  /\ length (performanceHistory s) <= 60.

Lemma decreaseQuality_spec s :
  currentQualityLevel (decreaseQuality s) = down (currentQualityLevel s)
  /\ performanceHistory (decreaseQuality s) = performanceHistory s
  /\ maxHistoryLength (decreaseQuality s) = maxHistoryLength s
  /\ optimizationThresholds (decreaseQuality s) = optimizationThresholds s
  /\ adaptiveQuality (decreaseQuality s) = adaptiveQuality s.
Proof.
  unfold decreaseQuality, stepAlong. destruct (currentQualityLevel s) eqn:E; simpl;
    rewrite ?E; repeat split; reflexivity.
Qed.

Lemma increaseQuality_spec s :
  currentQualityLevel (increaseQuality s) = up (currentQualityLevel s)
  /\ performanceHistory (increaseQuality s) = performanceHistory s
  /\ maxHistoryLength (increaseQuality s) = maxHistoryLength s
  /\ optimizationThresholds (increaseQuality s) = optimizationThresholds s
  /\ adaptiveQuality (increaseQuality s) = adaptiveQuality s.
Proof.
  unfold increaseQuality, stepAlong. destruct (currentQualityLevel s) eqn:E; simpl;
    rewrite ?E; repeat split; reflexivity.
Qed.

(** The window after one more sample: the sample is appended, and the
    oldest one dropped when that makes more than [maxHistoryLength]. *)
Definition pushed (currentFPS : number) (s : t) : list number :=
  if Nat.ltb (maxHistoryLength s) (length (performanceHistory s ++ [currentFPS]))
  then drop 1 (performanceHistory s ++ [currentFPS])
  else performanceHistory s ++ [currentFPS].

(** [adjustQuality] while adaptive quality is on. *)
Lemma adjustQuality_on currentFPS targetFPS s :
  adaptiveQuality s = true ->
  let s' := adjustQuality currentFPS targetFPS s in
  let avgFPS := average (pushed currentFPS s) in
  performanceHistory s' = pushed currentFPS s
  /\ maxHistoryLength s' = maxHistoryLength s
  /\ optimizationThresholds s' = optimizationThresholds s
  /\ adaptiveQuality s' = true
  /\ currentQualityLevel s' =
       if (avgFPS <? fpsMin (optimizationThresholds s))%float
       then down (currentQualityLevel s)
       else if (fpsMax (optimizationThresholds s) <? avgFPS)%float
       then up (currentQualityLevel s)
       else currentQualityLevel s.
Proof.
  intros Ha s' avgFPS. unfold s', adjustQuality. rewrite Ha. cbn [negb].
  fold (pushed currentFPS s). fold avgFPS.
  set (s1 := set_performanceHistory s (pushed currentFPS s)).
  change (optimizationThresholds s1) with (optimizationThresholds s).
  change (currentQualityLevel s1) with (currentQualityLevel s).
  destruct (avgFPS <? fpsMin (optimizationThresholds s))%float.
  - destruct (decreaseQuality_spec s1) as (-> & -> & -> & -> & ->). auto.
  - destruct (fpsMax (optimizationThresholds s) <? avgFPS)%float; cbn [andb].
    + destruct (currentQualityLevel s) eqn:E; cbn [QualityLevel_eqb negb].
      * destruct (increaseQuality_spec s1) as (-> & -> & -> & -> & ->).
        change (currentQualityLevel s1) with (currentQualityLevel s). rewrite E. auto.
      * destruct (increaseQuality_spec s1) as (-> & -> & -> & -> & ->).
        change (currentQualityLevel s1) with (currentQualityLevel s). rewrite E. auto.
      * destruct (increaseQuality_spec s1) as (-> & -> & -> & -> & ->).
        change (currentQualityLevel s1) with (currentQualityLevel s). rewrite E. auto.
      * change (currentQualityLevel s1) with (currentQualityLevel s). rewrite E. auto.
    + auto.
Qed.

Lemma pushed_length currentFPS s :
  maxHistoryLength s = 60 -> length (performanceHistory s) <= 60 ->
  length (pushed currentFPS s) <= 60
  /\ pushed currentFPS s
     = drop (length (performanceHistory s ++ [currentFPS]) - 60)
            (performanceHistory s ++ [currentFPS]).
Proof.
  intros Hm Hl. unfold pushed. rewrite Hm, length_app. simpl.
  destruct (Nat.ltb_spec 60 (length (performanceHistory s) + 1)).
  - rewrite length_drop, length_app. simpl.
    replace (length (performanceHistory s) + 1 - 60) with 1 by lia. split; [lia | reflexivity].
  - rewrite length_app. simpl.
    replace (length (performanceHistory s) + 1 - 60) with 0 by lia. split; [lia | reflexivity].
Qed.

Lemma reachable_steady s : reachable s -> steady s.
Proof.
  induction 1 as [| fps tgt s _ IH | s _ IH | s _ IH | q s _ IH | b s _ IH | s _ IH].
  - unfold steady. simpl. repeat split; lia.
  - destruct IH as (Hm & Hmin & Hmax & Hl).
    destruct (adaptiveQuality s) eqn:Ha.
    + destruct (adjustQuality_on fps tgt s Ha) as (Hh & Hm' & Ht & _).
      unfold steady. rewrite Hh, Hm', Ht. repeat split; auto.
      apply pushed_length; auto.
    + unfold adjustQuality. rewrite Ha. simpl. repeat split; auto.
  - destruct (decreaseQuality_spec s) as (_ & Hh & Hm & Ht & _).
    unfold steady. rewrite Hh, Hm, Ht. exact IH.
  - destruct (increaseQuality_spec s) as (_ & Hh & Hm & Ht & _).
    unfold steady. rewrite Hh, Hm, Ht. exact IH.
  - exact IH.
  - exact IH.
  - destruct IH as (Hm & Hmin & Hmax & Hl). unfold optimizeMemoryUsage.
    destruct (Nat.ltb_spec (maxHistoryLength s) (length (performanceHistory s)));
      [lia | repeat split; auto].
Qed.

(** C5 as the specification states it fails when adaptive quality is
    switched off: [adjustQuality] returns at once, the sample of 30 FPS is
    not recorded and the tier stays Medium. *)
Lemma adjustQuality_off_ignores_sample :
  let s := setAdaptiveQuality false new in
  performanceHistory (adjustQuality 30%float 60%float s) = []
  /\ currentQualityLevel (adjustQuality 30%float 60%float s) = medium
  /\ (average [30%float] <? 45)%float = true.
Proof. vm_compute. repeat split; reflexivity. Qed.

(** C5 (amended): while adaptive quality is enabled, each [adjustQuality]
    call appends the FPS sample to a window holding the at most 60 most
    recent samples, computes the window average, and moves the tier down
    exactly one step when the average is below 45 (staying at Low), up
    exactly one step when it is above 120 (staying at Ultra), and leaves it
    otherwise; while adaptive quality is disabled the call changes nothing.
    Either way the tier moves by at most one step on the ladder. *)
Theorem adjustQuality_steps (currentFPS targetFPS : number) (s : t) :
  reachable s ->
  let s' := adjustQuality currentFPS targetFPS s in
  let samples := performanceHistory s ++ [currentFPS] in
  let window := performanceHistory s' in
  (adaptiveQuality s = false -> s' = s)
  /\ (adaptiveQuality s = true ->
        window = drop (length samples - 60) samples
        /\ length window <= 60
        /\ currentQualityLevel s' =
             if (average window <? 45)%float then down (currentQualityLevel s)
             else if (120 <? average window)%float then up (currentQualityLevel s)
             else currentQualityLevel s)
  /\ rank (currentQualityLevel s') <= rank (currentQualityLevel s) + 1
  /\ rank (currentQualityLevel s) <= rank (currentQualityLevel s') + 1.
Proof.
  intros Hr s' samples window.
  destruct (reachable_steady s Hr) as (Hm & Hmin & Hmax & Hl).
  destruct (adaptiveQuality s) eqn:Ha.
  - destruct (adjustQuality_on currentFPS targetFPS s Ha) as (Hh & _ & _ & _ & Hq).
    fold s' in Hh, Hq. rewrite Hmin, Hmax in Hq.
    destruct (pushed_length currentFPS s Hm Hl) as (Hpl & Hpe).
    unfold window. rewrite Hh.
    split; [discriminate |]. split.
    + intros _. split; [exact Hpe |]. split; [exact Hpl |]. exact Hq.
    + rewrite Hq.
      destruct (average (pushed currentFPS s) <? 45)%float;
        [| destruct (120 <? average (pushed currentFPS s))%float];
        destruct (currentQualityLevel s); simpl; lia.
  - assert (Hs : s' = s) by (unfold s', adjustQuality; rewrite Ha; reflexivity).
    rewrite Hs. split; [reflexivity |]. split; [discriminate |]. lia.
Qed.

(** The amended C5 on a new controller (tier Medium): a sample of 30 FPS
    takes it to Low, a sample of 130 FPS to High. *)
Lemma adjustQuality_steps_witness :
  (performanceHistory (adjustQuality 30%float 60%float new) = [30%float]
   /\ currentQualityLevel (adjustQuality 30%float 60%float new) = low)
  /\ currentQualityLevel (adjustQuality 130%float 60%float new) = high.
Proof.
  destruct (adjustQuality_steps 30%float 60%float new reach_new) as (_ & H1 & _).
  destruct (H1 eq_refl) as (Hw & _ & Hq).
  destruct (adjustQuality_steps 130%float 60%float new reach_new) as (_ & H2 & _).
  destruct (H2 eq_refl) as (_ & _ & Hq').
  split; [split; [exact Hw | exact Hq] | exact Hq'].
Defined.

(** A stream of 25 FPS from Ultra: one tier per call. *)
Example adjustQuality_ladder :
  let s0 := set_currentQualityLevel new ultra in
  let s1 := adjustQuality 25%float 60%float s0 in
  let s2 := adjustQuality 25%float 60%float s1 in
  let s3 := adjustQuality 25%float 60%float s2 in
  let s4 := adjustQuality 25%float 60%float s3 in
  currentQualityLevel <$> [s1; s2; s3; s4] = [high; medium; low; low].
Proof. vm_compute. reflexivity. Qed.

End QualityFacts.

(** ** The worker pool *)

Module PoolFacts.
Import JS WorkerPool.
Local Open Scope nat_scope.

(** *** Lists *)

Lemma find_app {A : Type} (f : A -> bool) (l1 l2 : list A) :
  find f (l1 ++ l2) = match find f l1 with Some x => Some x | None => find f l2 end.
Proof.
  induction l1 as [|a l1 IH]; simpl; [reflexivity |]. destruct (f a); auto.
Qed.

Lemma NoDup_fmap_eq {A B : Type} (f : A -> B) (l : list A) (x y : A) :
  NoDup (f <$> l) -> x ∈ l -> y ∈ l -> f x = f y -> x = y.
Proof.
  induction l as [|a l IH]; intros Hnd Hx Hy E; [apply elem_of_nil in Hx; contradiction |].
  rewrite fmap_cons in Hnd. apply NoDup_cons in Hnd. destruct Hnd as [Hna Hnd].
  apply elem_of_cons in Hx, Hy. destruct Hx as [-> | Hx], Hy as [-> | Hy].
  - reflexivity.
  - exfalso. apply Hna. rewrite E. apply list_elem_of_fmap_2. exact Hy.
  - exfalso. apply Hna. rewrite <- E. apply list_elem_of_fmap_2. exact Hx.
  - auto.
Qed.

(** *** Worker faults *)

Lemma outcome_settle_same h o p :
  outcome h p = None -> outcome h (settle h o p) = Some o.
Proof.
  intros Hn. unfold settle. rewrite Hn. unfold outcome in *. simpl.
  rewrite find_app. destruct (find _ (settled p)); [discriminate |].
  simpl. rewrite Nat.eqb_refl. reflexivity.
Qed.

Lemma outcome_settle_other h h' o p :
  h <> h' -> outcome h' (settle h o p) = outcome h' p.
Proof.
  intros Hne. unfold settle. destruct (outcome h p); [reflexivity |].
  unfold outcome. simpl. rewrite find_app.
  destruct (find _ (settled p)); [reflexivity |]. simpl.
  destruct (Nat.eqb_spec h h'); [contradiction | reflexivity].
Qed.

Lemma outcome_settle_kept h h' o o' p :
  outcome h' p = Some o' -> outcome h' (settle h o p) = Some o'.
Proof.
  intros Hs. unfold settle. destruct (outcome h p); [exact Hs |].
  unfold outcome in *. simpl. rewrite find_app.
  destruct (find _ (settled p)); [exact Hs | discriminate].
Qed.

Lemma settle_fields h o p :
  taskQueue (settle h o p) = taskQueue p
  /\ availableWorkers (settle h o p) = availableWorkers p
  /\ inbox (settle h o p) = inbox p
  /\ workers (settle h o p) = workers p.
Proof. unfold settle. destruct (outcome h p); repeat split; reflexivity. Qed.

Lemma processNextTask_settled p : settled (processNextTask p) = settled p.
Proof.
  unfold processNextTask. destruct (taskQueue p) eqn:Eq; [reflexivity |].
  destruct (reverse (availableWorkers p)); [reflexivity |].
  cbn [set_availableWorkers taskQueue].
  destruct (find unassigned (taskQueue p)); reflexivity.
Qed.

Lemma includes_spec w l : includes w l = true <-> w ∈ l.
Proof.
  unfold includes. rewrite existsb_exists. split.
  - intros (x & Hx & E). apply Nat.eqb_eq in E. subst. apply list_elem_of_In. exact Hx.
  - intros H. exists w. split; [apply list_elem_of_In; exact H | apply Nat.eqb_refl].
Qed.

Lemma assignedTo_spec w t : assignedTo w t = true <-> worker t = Some w.
Proof.
  unfold assignedTo. destruct (worker t) as [w'|]; [| split; discriminate].
  rewrite Nat.eqb_eq. split; congruence.
Qed.

(** Rejecting the tasks of a list settles their promises and no other. *)
Lemma reject_all_outcome (e : Error) (ts : list Task) (p : t) :
  let p' := foldl (fun p task => settle (promise task) (Rejected e) p) p ts in
  taskQueue p' = taskQueue p /\ availableWorkers p' = availableWorkers p
  /\ inbox p' = inbox p /\ workers p' = workers p
  /\ (forall h, outcome h p' =
        match outcome h p with
        | Some o => Some o
        | None => if existsb (fun t => Nat.eqb (promise t) h) ts
                  then Some (Rejected e) else None
        end).
Proof.
  revert p. induction ts as [|t ts IH]; intros p; simpl.
  - repeat split; try reflexivity. intros h. destruct (outcome h p); reflexivity.
  - destruct (IH (settle (promise t) (Rejected e) p)) as (Hq & Ha & Hi & Hw & Ho).
    destruct (settle_fields (promise t) (Rejected e) p) as (Hq' & Ha' & Hi' & Hw').
    repeat split; try congruence.
    intros h. rewrite Ho.
    destruct (Nat.eqb_spec (promise t) h) as [<- | Hne]; simpl.
    + destruct (outcome (promise t) p) eqn:E.
      * rewrite (outcome_settle_kept _ _ _ _ _ E). reflexivity.
      * rewrite (outcome_settle_same _ _ _ E). reflexivity.
    + rewrite (outcome_settle_other _ _ _ _ Hne). reflexivity.
Qed.

(** C4: when worker [w] reports an error, the queue loses exactly the tasks
    assigned to [w], the others staying as they are and in their order;
    the pending promises of the tasks of [w] are rejected with the error
    and no other promise is settled; [w] is idle afterwards and the idle
    workers stay idle; a remaining task assigned to another worker is
    still fulfilled by that worker's reply, and the first remaining
    unassigned task is posted to a worker by the next dispatch. *)
Theorem handleWorkerError_isolates (w : Worker) (e : Error) (p : t) :
  let p' := handleWorkerError w e p in
  taskQueue p' = filter (fun t => worker t <> Some w) (taskQueue p)
  /\ (forall t, t ∈ taskQueue p -> worker t = Some w -> outcome (promise t) p = None ->
        outcome (promise t) p' = Some (Rejected e))
  /\ (forall h, (forall t, t ∈ taskQueue p -> worker t = Some w -> promise t <> h) ->
        outcome h p' = outcome h p)
  /\ w ∈ availableWorkers p'
  /\ (availableWorkers p' = availableWorkers p \/ availableWorkers p' = availableWorkers p ++ [w])
  /\ inbox p' = inbox p /\ workers p' = workers p
  /\ (forall t w' r, worker t = Some w' ->
        find (fun task => String.eqb (id task) (id t)) (taskQueue p') = Some t ->
        outcome (promise t) p' = None ->
        outcome (promise t) (handleWorkerMessage w' r (id t) p') = Some (Fulfilled r))
  /\ (forall t, find unassigned (taskQueue p') = Some t ->
        exists w', inbox (processNextTask p')
                   = inbox p' ++ [(w', mkMessage (request t) (id t))]).
Proof.
  intros p'.
  set (ts := filter (fun task => assignedTo w task = true) (taskQueue p)).
  set (p1 := foldl (fun p task => settle (promise task) (Rejected e) p) p ts).
  destruct (reject_all_outcome e ts p) as (Hq & Ha & Hi & Hw & Ho). fold p1 in Hq, Ha, Hi, Hw, Ho.
  set (p2 := set_taskQueue p1 (filter (fun task => assignedTo w task = false) (taskQueue p1))).
  assert (Hp' : p' = if includes w (availableWorkers p2) then p2
                     else set_availableWorkers p2 (availableWorkers p2 ++ [w])) by reflexivity.
  assert (Hfields : taskQueue p' = taskQueue p2 /\ settled p' = settled p2
                    /\ inbox p' = inbox p2 /\ workers p' = workers p2).
  { rewrite Hp'. destruct (includes w (availableWorkers p2)); repeat split; reflexivity. }
  destruct Hfields as (Hq' & Hs' & Hi' & Hw').
  assert (Hout : forall h, outcome h p' = outcome h p1).
  { intros h. unfold outcome. rewrite Hs'. reflexivity. }
  assert (Hqueue : taskQueue p' = filter (fun t => worker t <> Some w) (taskQueue p)).
  { rewrite Hq'. unfold p2. simpl. rewrite Hq. apply list_filter_iff.
    intros t. rewrite <- assignedTo_spec. destruct (assignedTo w t); split; congruence. }
  assert (Havail : w ∈ availableWorkers p'
                   /\ (availableWorkers p' = availableWorkers p
                       \/ availableWorkers p' = availableWorkers p ++ [w])).
  { rewrite Hp'. destruct (includes w (availableWorkers p2)) eqn:E.
    - apply includes_spec in E. split; [exact E |]. left. unfold p2. simpl. exact Ha.
    - split; [simpl; apply elem_of_app; right; apply list_elem_of_singleton; reflexivity |].
      right. unfold p2. simpl. rewrite Ha. reflexivity. }
  split; [exact Hqueue |].
  split.
  { intros t Ht Hwt Hnone. rewrite Hout, Ho, Hnone.
    replace (existsb (fun t0 => promise t0 =? promise t) ts) with true; [reflexivity |].
    symmetry. apply existsb_exists. exists t. split; [| apply Nat.eqb_refl].
    apply list_elem_of_In. unfold ts. apply list_elem_of_filter. split; [| exact Ht].
    apply assignedTo_spec. exact Hwt. }
  split.
  { intros h Hh. rewrite Hout, Ho. destruct (outcome h p); [reflexivity |].
    replace (existsb (fun t0 => promise t0 =? h) ts) with false; [reflexivity |].
    symmetry. apply not_true_is_false. intros Hex. apply existsb_exists in Hex.
    destruct Hex as (t & Ht & E). apply Nat.eqb_eq in E. apply list_elem_of_In in Ht.
    unfold ts in Ht. apply list_elem_of_filter in Ht. destruct Ht as (Hwt & Ht).
    apply assignedTo_spec in Hwt. exact (Hh t Ht Hwt E). }
  split; [apply Havail |]. split; [apply Havail |].
  split; [rewrite Hi'; unfold p2; simpl; exact Hi |].
  split; [rewrite Hw'; unfold p2; simpl; exact Hw |].
  split.
  { intros t w' r Hwt Hfind Hnone. unfold handleWorkerMessage. rewrite Hfind.
    unfold outcome at 1. rewrite processNextTask_settled.
    match goal with |- context [if ?c then ?a else ?b] =>
      assert (Hs : settled (if c then a else b) = settled a) by (destruct c; reflexivity)
    end.
    rewrite Hs. fold (outcome (promise t)
      (settle (promise t) (Fulfilled r) (set_taskQueue p' (removeFirst (id t) (taskQueue p'))))).
    apply outcome_settle_same. exact Hnone. }
  intros t Hfind. unfold processNextTask.
  destruct (taskQueue p') as [|t0 q] eqn:Eq; [discriminate |].
  destruct Havail as (Hin & _).
  destruct (reverse (availableWorkers p')) as [|w' rest] eqn:Er.
  { apply (f_equal reverse) in Er. rewrite reverse_involutive in Er. rewrite Er in Hin.
    apply elem_of_nil in Hin. contradiction. }
  exists w'. cbn [set_availableWorkers taskQueue]. rewrite Eq, Hfind. reflexivity.
Qed.


(** *** The pool after a batch has been posted *)

Section Join.
Context `{M : MathLib}.

(** A task that has been posted to a worker. *)
Record Job := mkJob {
  job_promise : nat;
  job_request : Request;
  job_id : TaskId;
  job_time : number;
  job_worker : Worker
}.

Definition taskOf (j : Job) : Task :=
  mkTask (job_id j) (job_request j) (job_promise j) (job_time j) (Some (job_worker j)).

Definition messageOf (j : Job) : Worker * Message :=
  (job_worker j, mkMessage (job_request j) (job_id j)).

(** The replies that found a task waiting, in the order they arrived: the
    worker and the clock it read. *)
Definition replied (fin : list (Worker * (nat -> number))) (j : Job) : bool :=
  existsb (fun d => Nat.eqb (fst d) (job_worker j)) fin.

Definition jobOf (jobs : list Job) (w : Worker) : option Job :=
  find (fun j => Nat.eqb (job_worker j) w) jobs.

Definition pending (fin : list (Worker * (nat -> number))) (jobs : list Job) : list Job :=
  List.filter (fun j => negb (replied fin j)) jobs.

Definition resultsOf (jobs : list Job) (fin : list (Worker * (nat -> number)))
    : list (nat * Outcome) :=
  omap (fun d => (fun j => (job_promise j, Fulfilled (onmessage (snd d) (job_request j))))
                   <$> jobOf jobs (fst d)) fin.

(** The pool in which the jobs [jobs] were posted on top of [base] and the
    replies [fin] have been handled. *)
Definition stateOf (base : t) (jobs : list Job) (fin : list (Worker * (nat -> number))) : t :=
  mk (maxWorkers base) (workers base) (availableWorkers base ++ (fst <$> fin))
     (taskOf <$> pending fin jobs) (isInitialized base)
     (messageOf <$> pending fin jobs)
     (settled base ++ resultsOf jobs fin) (nextPromise base) (deferred base).

(** A reply counts when its worker has a job that is still waiting. *)
Definition advance (jobs : list Job) (fin : list (Worker * (nat -> number)))
    (d : Worker * (nat -> number)) : list (Worker * (nat -> number)) :=
  match jobOf jobs (fst d) with
  | Some j => if replied fin j then fin else fin ++ [d]
  | None => fin
  end.

Record Posted (base : t) (jobs : list Job) : Prop := {
  posted_workers : NoDup (job_worker <$> jobs);
  posted_ids : NoDup (job_id <$> jobs);
  posted_promises : NoDup (job_promise <$> jobs);
  posted_busy : forall j, j ∈ jobs -> job_worker j ∉ availableWorkers base;
  posted_fresh : forall e j, e ∈ settled base -> j ∈ jobs -> fst e <> job_promise j
}.

Lemma jobOf_Some jobs w j : jobOf jobs w = Some j -> j ∈ jobs /\ job_worker j = w.
Proof.
  unfold jobOf. intros H. apply find_some in H. destruct H as [Hin E].
  apply Nat.eqb_eq in E. split; [apply list_elem_of_In; exact Hin | exact E].
Qed.

Lemma jobOf_own jobs j :
  NoDup (job_worker <$> jobs) -> j ∈ jobs -> jobOf jobs (job_worker j) = Some j.
Proof.
  unfold jobOf. induction jobs as [|a jobs IH]; intros Hnd Hin.
  - apply elem_of_nil in Hin. contradiction.
  - rewrite fmap_cons in Hnd. apply NoDup_cons in Hnd. destruct Hnd as [Hna Hnd].
    simpl. apply elem_of_cons in Hin. destruct Hin as [-> | Hin].
    + rewrite Nat.eqb_refl. reflexivity.
    + destruct (Nat.eqb_spec (job_worker a) (job_worker j)) as [E | _]; [| auto].
      exfalso. apply Hna. rewrite E. apply list_elem_of_fmap_2. exact Hin.
Qed.

Lemma replied_snoc fin d j :
  replied (fin ++ [d]) j = replied fin j || Nat.eqb (fst d) (job_worker j).
Proof. unfold replied. rewrite existsb_app. simpl. rewrite orb_false_r. reflexivity. Qed.

Lemma pending_snoc fin d jobs :
  pending (fin ++ [d]) jobs
  = List.filter (fun j => negb (Nat.eqb (job_worker j) (fst d))) (pending fin jobs).
Proof.
  unfold pending. induction jobs as [|a jobs IH]; simpl; [reflexivity |].
  rewrite replied_snoc, IH, (Nat.eqb_sym (fst d)).
  destruct (replied fin a); simpl; [reflexivity |].
  destruct (job_worker a =? fst d); reflexivity.
Qed.

Lemma pending_elem fin jobs j : j ∈ pending fin jobs <-> j ∈ jobs /\ replied fin j = false.
Proof.
  unfold pending. rewrite !list_elem_of_In, filter_In, negb_true_iff. tauto.
Qed.

Lemma NoDup_fmap_filter {A B : Type} (f : A -> B) (P : A -> bool) (l : list A) :
  NoDup (f <$> l) -> NoDup (f <$> List.filter P l).
Proof.
  induction l as [|a l IH]; cbn [List.filter]; [auto |].
  rewrite fmap_cons, NoDup_cons. intros [Hna Hnd].
  destruct (P a); [| auto]. rewrite fmap_cons, NoDup_cons. split; [| auto].
  intros Hin. apply Hna. apply list_elem_of_fmap in Hin. destruct Hin as (x & -> & Hx).
  apply list_elem_of_fmap_2. apply list_elem_of_In in Hx. apply filter_In in Hx.
  apply list_elem_of_In. tauto.
Qed.

(** The reply for [j] out of a list of jobs with distinct workers and
    distinct ids: its message is the oldest one of its worker, its task the
    first one with its id. *)
Lemma take_job (L : list Job) (j : Job) :
  NoDup (job_worker <$> L) -> NoDup (job_id <$> L) -> j ∈ L ->
  let rest := List.filter (fun j' => negb (Nat.eqb (job_worker j') (job_worker j))) L in
  takeMessage (job_worker j) (messageOf <$> L)
    = Some (mkMessage (job_request j) (job_id j), messageOf <$> rest)
  /\ find (fun task => String.eqb (id task) (job_id j)) (taskOf <$> L) = Some (taskOf j)
  /\ removeFirst (job_id j) (taskOf <$> L) = taskOf <$> rest.
Proof.
  induction L as [|a L IH]; intros Hw Hi Hin; [apply elem_of_nil in Hin; contradiction |].
  rewrite fmap_cons in Hw. rewrite fmap_cons in Hi. apply NoDup_cons in Hw, Hi.
  destruct Hw as [Hwa Hw], Hi as [Hia Hi].
  apply elem_of_cons in Hin. destruct Hin as [-> | Hin].
  - assert (Hrest : List.filter (fun j' => negb (job_worker j' =? job_worker a)) L = L).
    { apply forallb_filter_id. apply forallb_forall. intros x Hx. apply negb_true_iff.
      apply Nat.eqb_neq. intros E. apply Hwa. rewrite <- E.
      apply list_elem_of_fmap_2. apply list_elem_of_In. exact Hx. }
    rewrite !fmap_cons.
    cbn [takeMessage find removeFirst messageOf taskOf id List.filter].
    rewrite Nat.eqb_refl, String.eqb_refl. cbn [negb]. rewrite Hrest. auto.
  - destruct (IH Hw Hi Hin) as (H1 & H2 & H3).
    assert (Hne : (job_worker a =? job_worker j) = false).
    { apply Nat.eqb_neq. intros E. apply Hwa. rewrite E. apply list_elem_of_fmap_2. exact Hin. }
    assert (Hni : String.eqb (job_id a) (job_id j) = false).
    { apply String.eqb_neq. intros E. apply Hia. rewrite E. apply list_elem_of_fmap_2. exact Hin. }
    rewrite !fmap_cons.
    cbn [takeMessage find removeFirst messageOf taskOf id List.filter].
    rewrite Hne, Hni. cbn [negb]. rewrite !fmap_cons, H1, H2, H3. auto.
Qed.

Lemma takeMessage_None (L : list Job) (w : Worker) :
  (forall j, j ∈ L -> job_worker j <> w) -> takeMessage w (messageOf <$> L) = None.
Proof.
  induction L as [|a L IH]; intros H; [reflexivity |].
  rewrite fmap_cons. cbn [takeMessage messageOf].
  destruct (Nat.eqb_spec (job_worker a) w) as [E | _].
  - exfalso. apply (H a); [apply elem_of_cons; auto | exact E].
  - rewrite IH; [reflexivity |]. intros j Hj. apply H. apply elem_of_cons. auto.
Qed.

Lemma processNextTask_busy (p : t) :
  forallb (fun task => negb (unassigned task)) (taskQueue p) = true ->
  processNextTask p = p.
Proof.
  intros Hall. destruct p as [mw ws av q ini box st np df]. unfold processNextTask.
  cbn [taskQueue availableWorkers] in *.
  destruct q as [|t0 q]; [reflexivity |].
  destruct (reverse av) as [|w rest] eqn:Er; [reflexivity |].
  cbn [set_availableWorkers taskQueue availableWorkers maxWorkers workers isInitialized
       inbox settled nextPromise deferred].
  assert (Hf : find unassigned (t0 :: q) = None).
  { destruct (find unassigned (t0 :: q)) eqn:E; [| reflexivity].
    apply find_some in E. destruct E as [Hin Hu].
    rewrite forallb_forall in Hall. specialize (Hall _ Hin). rewrite Hu in Hall. discriminate. }
  rewrite Hf.
  apply (f_equal reverse) in Er. rewrite reverse_involutive, reverse_cons in Er.
  rewrite Er. reflexivity.
Qed.

Lemma tasks_assigned (L : list Job) :
  forallb (fun task => negb (unassigned task)) (taskOf <$> L) = true.
Proof. induction L as [|a L IH]; [reflexivity |]. rewrite fmap_cons. simpl. exact IH. Qed.

Lemma fresh_not_settled base jobs j :
  Posted base jobs -> j ∈ jobs ->
  find (fun e => Nat.eqb (fst e) (job_promise j)) (settled base) = None.
Proof.
  intros HP Hj. destruct (find _ (settled base)) as [e|] eqn:E; [| reflexivity].
  apply find_some in E. destruct E as [Hin He]. apply Nat.eqb_eq in He.
  exfalso. apply (posted_fresh _ _ HP e j); [apply list_elem_of_In; exact Hin | exact Hj | exact He].
Qed.

(** The clock of the reply that answered worker [w]. *)
Definition clockOf (fin : list (Worker * (nat -> number))) (w : Worker)
    : option (nat -> number) :=
  snd <$> find (fun d => Nat.eqb (fst d) w) fin.

Lemma clockOf_replied fin j : replied fin j = true <-> is_Some (clockOf fin (job_worker j)).
Proof.
  unfold replied, clockOf. induction fin as [|d fin IH]; simpl.
  - split; [discriminate | intros [? ?]; discriminate].
  - destruct (fst d =? job_worker j); simpl; [split; eauto | exact IH].
Qed.

(** The promise of a job is fulfilled, with the worker's answer, once its
    worker has replied, and is pending until then. *)
Lemma fulfilled_stateOf base jobs fin j :
  Posted base jobs -> j ∈ jobs ->
  fulfilled (job_promise j) (stateOf base jobs fin)
  = (fun now => onmessage now (job_request j)) <$> clockOf fin (job_worker j).
Proof.
  intros HP Hj. unfold fulfilled, outcome. cbn [stateOf settled].
  rewrite find_app, (fresh_not_settled _ _ _ HP Hj).
  unfold resultsOf, clockOf. induction fin as [|d fin IH]; [reflexivity |].
  cbn [omap list_omap find].
  destruct (jobOf jobs (fst d)) as [j'|] eqn:Ej; cbn [fmap option_fmap option_map].
  - apply jobOf_Some in Ej. destruct Ej as [Hj' Hw']. cbn [find fst].
    destruct (Nat.eqb_spec (job_promise j') (job_promise j)) as [E | Hne].
    + assert (j' = j).
      { exact (NoDup_fmap_eq job_promise jobs j' j (posted_promises _ _ HP) Hj' Hj E). }
      subst j'. rewrite Hw', Nat.eqb_refl. reflexivity.
    + destruct (Nat.eqb_spec (fst d) (job_worker j)) as [E | _]; [| exact IH].
      exfalso. apply Hne. f_equal.
      pose proof (jobOf_own jobs j (posted_workers _ _ HP) Hj) as Ho.
      pose proof (jobOf_own jobs j' (posted_workers _ _ HP) Hj') as Ho'.
      rewrite Hw', E in Ho'. congruence.
  - destruct (Nat.eqb_spec (fst d) (job_worker j)) as [E | _]; [| exact IH].
    rewrite E, (jobOf_own jobs j (posted_workers _ _ HP) Hj) in Ej. discriminate.
Qed.

(** Handling a reply takes the pool from one such state to the next. *)
Lemma step_Reply base jobs fin w now :
  Posted base jobs ->
  step (Reply w now) (stateOf base jobs fin) = stateOf base jobs (advance jobs fin (w, now)).
Proof.
  intros HP. unfold step, advance. cbn [fst snd].
  assert (Hcase : (exists j, jobOf jobs w = Some j /\ replied fin j = false)
                  \/ (forall j, j ∈ pending fin jobs -> job_worker j <> w)).
  { destruct (jobOf jobs w) as [j|] eqn:Ej.
    - destruct (replied fin j) eqn:Er; [| left; eauto].
      right. intros j' Hj' E. apply pending_elem in Hj'. destruct Hj' as [Hin Hr].
      rewrite <- E, (jobOf_own jobs j' (posted_workers _ _ HP) Hin) in Ej.
      congruence.
    - right. intros j' Hj' E. apply pending_elem in Hj'. destruct Hj' as [Hin _].
      rewrite <- E, (jobOf_own jobs j' (posted_workers _ _ HP) Hin) in Ej. discriminate. }
  destruct Hcase as [(j & Ej & Er) | Hnone].
  - rewrite Ej, Er. destruct (jobOf_Some _ _ _ Ej) as [Hj Hw]. subst w.
    assert (Hpj : j ∈ pending fin jobs) by (apply pending_elem; auto).
    destruct (take_job (pending fin jobs) j) as (Htake & Hfind & Hrem).
    { apply NoDup_fmap_filter. apply (posted_workers _ _ HP). }
    { apply NoDup_fmap_filter. apply (posted_ids _ _ HP). }
    { exact Hpj. }
    pose proof (pending_snoc fin (job_worker j, now) jobs) as Hps. cbn [fst] in Hps.
    rewrite <- Hps in Htake, Hrem. clear Hps.
    cbn [stateOf inbox]. rewrite Htake. cbn [msg_request msg_taskId].
    unfold handleWorkerMessage.
    change (taskQueue (set_inbox (stateOf base jobs fin)
              (messageOf <$> pending (fin ++ [(job_worker j, now)]) jobs)))
      with (taskOf <$> pending fin jobs).
    rewrite Hfind, Hrem. cbn [taskOf promise].
    match goal with |- context [settle ?h ?o ?p] =>
      assert (Hset : settle h o p
                = mk (maxWorkers p) (workers p) (availableWorkers p) (taskQueue p)
                     (isInitialized p) (inbox p) (settled p ++ [(h, o)]) (nextPromise p)
                     (deferred p))
    end.
    { assert (Hnone : outcome (job_promise j) (stateOf base jobs fin) = None).
      { pose proof (fulfilled_stateOf base jobs fin j HP Hj) as Hful.
        destruct (clockOf fin (job_worker j)) eqn:Ec.
        - assert (replied fin j = true) by (apply clockOf_replied; rewrite Ec; eauto).
          congruence.
        - unfold fulfilled in Hful.
          destruct (outcome (job_promise j) (stateOf base jobs fin)) as [[r|e]|] eqn:Eo;
            try discriminate; [| reflexivity].
          exfalso. unfold outcome in Eo. cbn [stateOf settled] in Eo.
          rewrite find_app, (fresh_not_settled _ _ _ HP Hj) in Eo.
          destruct (find _ (resultsOf jobs fin)) as [[h o]|] eqn:Ef; [| discriminate].
          apply find_some in Ef. destruct Ef as [Hin _]. apply list_elem_of_In in Hin.
          unfold resultsOf in Hin. apply list_elem_of_omap in Hin.
          destruct Hin as (d & _ & Hd). destruct (jobOf jobs (fst d)); [| discriminate].
          simpl in Hd. injection Hd as _ <-. simpl in Eo. discriminate. }
      assert (Heq : forall a b, outcome (job_promise j)
                (set_taskQueue (set_inbox (stateOf base jobs fin) a) b) = None)
        by (intros; exact Hnone).
      unfold settle. rewrite Heq. reflexivity. }
    rewrite Hset. clear Hset.
    cbn [maxWorkers workers availableWorkers taskQueue isInitialized inbox settled
         nextPromise deferred set_taskQueue set_inbox stateOf].
    assert (Hinc : includes (job_worker j) (availableWorkers base ++ (fst <$> fin)) = false).
    { apply not_true_is_false. intros Hin. apply includes_spec in Hin.
      apply elem_of_app in Hin. destruct Hin as [Hin | Hin].
      - exact (posted_busy _ _ HP j Hj Hin).
      - apply list_elem_of_fmap in Hin. destruct Hin as (d & Hd & Hin).
        assert (replied fin j = true); [| congruence].
        unfold replied. apply existsb_exists. exists d. split.
        + apply list_elem_of_In. exact Hin.
        + rewrite Hd. apply Nat.eqb_refl. }
    rewrite Hinc. rewrite processNextTask_busy by apply tasks_assigned.
    unfold stateOf, set_availableWorkers.
    cbn [maxWorkers workers availableWorkers taskQueue isInitialized inbox settled
         nextPromise deferred].
    rewrite fmap_app, <- !app_assoc. unfold resultsOf at 2. rewrite omap_app.
    cbn [omap list_omap fst snd]. rewrite Ej. reflexivity.
  - change (inbox (stateOf base jobs fin)) with (messageOf <$> pending fin jobs).
    rewrite (takeMessage_None _ _ Hnone).
    destruct (jobOf jobs w) as [j|] eqn:Ej; [| reflexivity].
    destruct (replied fin j) eqn:Er; [reflexivity |].
    exfalso. destruct (jobOf_Some _ _ _ Ej) as [Hj Hw].
    apply (Hnone j); [apply pending_elem; auto | exact Hw].
Qed.

(** The replies of a schedule, as events. *)
Definition replies (sched : list (Worker * (nat -> number))) : list Event :=
  (fun d => Reply (fst d) (snd d)) <$> sched.

Lemma run_replies base jobs fin sched :
  Posted base jobs ->
  run (replies sched) (stateOf base jobs fin)
  = stateOf base jobs (foldl (advance jobs) fin sched).
Proof.
  intros HP. revert fin. induction sched as [|d sched IH]; intros fin; [reflexivity |].
  unfold replies, run in *. rewrite fmap_cons. cbn [foldl].
  rewrite (step_Reply base jobs fin (fst d) (snd d) HP).
  destruct d as [w now]. apply IH.
Qed.

(** *** Posting a batch *)

(** The pool on top of [base] right after the jobs [jobs] were posted. *)
Definition posted (base : t) (jobs : list Job) : t :=
  mk (maxWorkers base) (workers base) (availableWorkers base)
     (taskOf <$> jobs) (isInitialized base) (messageOf <$> jobs)
     (settled base) (nextPromise base) (deferred base).

Lemma pending_nil jobs : pending [] jobs = jobs.
Proof.
  unfold pending. induction jobs as [|a l IH]; [reflexivity |].
  cbn [List.filter replied existsb negb]. f_equal. exact IH.
Qed.

Lemma stateOf_nil base jobs : stateOf base jobs [] = posted base jobs.
Proof.
  unfold stateOf, posted. rewrite pending_nil. cbn [fmap list_fmap resultsOf omap list_omap].
  rewrite !app_nil_r. reflexivity.
Qed.

(** [base] with other idle workers, promise counter and microtasks. *)
Definition rebase (base : t) (avail : list Worker) (np : nat)
    (df : list (nat * Request * TaskId * number)) : t :=
  mk (maxWorkers base) (workers base) avail (taskQueue base) (isInitialized base)
     (inbox base) (settled base) np df.

Lemma find_unassigned_last (L : list Job) (t : Task) :
  unassigned t = true ->
  find unassigned ((taskOf <$> L) ++ [t]) = Some t
  /\ forall w, assignFirst w ((taskOf <$> L) ++ [t]) = (taskOf <$> L) ++ [assign w t].
Proof.
  intros Hu. induction L as [|a L [IH1 IH2]].
  - simpl. rewrite Hu. auto.
  - rewrite fmap_cons. simpl. split; [exact IH1 |]. intros w. rewrite IH2. reflexivity.
Qed.

(** A dispatch that finds a task and a worker. *)
Lemma processNextTask_dispatch (p : t) rest w task :
  availableWorkers p = rest ++ [w] -> find unassigned (taskQueue p) = Some task ->
  processNextTask p
  = postMessage w (mkMessage (request task) (id task))
      (set_taskQueue (set_availableWorkers p rest) (assignFirst w (taskQueue p))).
Proof.
  intros Ha Hf. unfold processNextTask.
  destruct (taskQueue p) as [|t0 q] eqn:Eq; [discriminate |].
  rewrite Ha, reverse_snoc, reverse_involutive.
  cbn [set_availableWorkers taskQueue]. rewrite Eq, Hf. reflexivity.
Qed.

(** Queueing a task while a worker is idle and nothing waits unassigned:
    the task goes to the worker that [pop] takes. *)
Lemma enqueue_posted base jobs rest w h r taskId now :
  availableWorkers base = rest ++ [w] ->
  enqueue h r taskId now (posted base jobs)
  = posted (rebase base rest (nextPromise base) (deferred base))
           (jobs ++ [mkJob h r taskId now w]).
Proof.
  intros Ha. unfold enqueue.
  destruct (find_unassigned_last jobs (mkTask taskId r h now None) eq_refl) as [Hf Has].
  rewrite (processNextTask_dispatch _ rest w (mkTask taskId r h now None)); [| exact Ha | exact Hf].
  cbn [set_taskQueue posted taskQueue]. rewrite Has.
  unfold postMessage, posted, rebase, set_availableWorkers.
  cbn [taskQueue availableWorkers maxWorkers workers isInitialized
       inbox settled nextPromise deferred request id assign].
  rewrite !fmap_app. reflexivity.
Qed.

(** The jobs a run of [executeTask] calls creates on an initialized pool:
    call [i] draws [fresh i], gets the next promise and the next worker. *)
Fixpoint jobsFrom (fresh : nat -> TaskId * number) (i h : nat) (ws : list Worker)
    (reqs : list Request) : list Job :=
  match reqs, ws with
  | r :: reqs', w :: ws' =>
      mkJob h r (fst (fresh i)) (snd (fresh i)) w :: jobsFrom fresh (S i) (S h) ws' reqs'
  | _, _ => []
  end.

Lemma executeTask_posted base jobs rest w r taskId now :
  isInitialized base = true ->
  availableWorkers base = rest ++ [w] ->
  executeTask r taskId now (posted base jobs)
  = (posted (rebase base rest (S (nextPromise base)) (deferred base))
            (jobs ++ [mkJob (nextPromise base) r taskId now w]),
     nextPromise base).
Proof.
  intros Hi Ha. unfold executeTask.
  change (mk (maxWorkers (posted base jobs)) (workers (posted base jobs))
             (availableWorkers (posted base jobs)) (taskQueue (posted base jobs))
             (isInitialized (posted base jobs)) (inbox (posted base jobs))
             (settled (posted base jobs)) (S (nextPromise (posted base jobs)))
             (deferred (posted base jobs)))
    with (posted (rebase base (availableWorkers base) (S (nextPromise base)) (deferred base)) jobs).
  change (isInitialized (posted _ jobs)) with (isInitialized base). rewrite Hi.
  rewrite (enqueue_posted _ jobs rest w); [reflexivity | exact Ha].
Qed.

Lemma dispatch_from_cons fresh r reqs (p : t) (hs : list nat) :
  dispatch_from fresh (r :: reqs) (p, hs)
  = dispatch_from fresh reqs
      (fst (executeTask r (fst (fresh (length hs))) (snd (fresh (length hs))) p),
       hs ++ [snd (executeTask r (fst (fresh (length hs))) (snd (fresh (length hs))) p)]).
Proof. reflexivity. Qed.

Lemma dispatch_posted fresh reqs : forall base jobs hs0 ws rest,
  isInitialized base = true ->
  availableWorkers base = rest ++ reverse ws -> length ws = length reqs ->
  dispatch_from fresh reqs (posted base jobs, hs0)
  = (posted (rebase base rest (nextPromise base + length reqs) (deferred base))
            (jobs ++ jobsFrom fresh (length hs0) (nextPromise base) ws reqs),
     hs0 ++ seq (nextPromise base) (length reqs)).
Proof.
  induction reqs as [|r reqs IH]; intros base jobs hs0 ws rest Hi Ha Hl.
  - destruct ws; [| discriminate]. simpl in *. rewrite !app_nil_r in *.
    rewrite Nat.add_0_r. unfold posted, rebase. rewrite Ha. reflexivity.
  - destruct ws as [|w ws]; [discriminate |]. simpl in Hl.
    rewrite reverse_cons, app_assoc in Ha.
    rewrite dispatch_from_cons.
    rewrite (executeTask_posted base jobs _ w r _ _ Hi Ha). cbn [fst snd].
    rewrite (IH _ _ _ ws rest); [| exact Hi | reflexivity | lia].
    cbn [rebase nextPromise deferred maxWorkers workers availableWorkers taskQueue
         isInitialized inbox settled jobsFrom length seq].
    rewrite length_app. cbn [length].
    replace (length hs0 + 1) with (S (length hs0)) by lia.
    replace (S (nextPromise base) + length reqs) with (nextPromise base + S (length reqs)) by lia.
    rewrite <- !app_assoc. reflexivity.
Qed.


Lemma jobsFrom_proj fresh reqs : forall i h ws,
  length ws = length reqs ->
  job_worker <$> jobsFrom fresh i h ws reqs = ws
  /\ job_promise <$> jobsFrom fresh i h ws reqs = seq h (length reqs)
  /\ job_id <$> jobsFrom fresh i h ws reqs = (fun k => fst (fresh k)) <$> seq i (length reqs)
  /\ job_request <$> jobsFrom fresh i h ws reqs = reqs.
Proof.
  induction reqs as [|r reqs IH]; intros i h ws Hl.
  - destruct ws; [| discriminate]. repeat split; reflexivity.
  - destruct ws as [|w ws]; [discriminate |]. simpl in Hl.
    destruct (IH (S i) (S h) ws) as (H1 & H2 & H3 & H4); [lia |].
    cbn [jobsFrom length seq]. rewrite !fmap_cons, H1, H2, H3, H4.
    repeat split; reflexivity.
Qed.

(** A pool with nothing in progress: no task, no message, no microtask, and
    every worker idle. A pool that was never initialized has no workers yet,
    an initialized one has [maxWorkers] of them. Promises are numbered in the
    order of their creation. *)
Definition idle (p : t) : Prop :=
  taskQueue p = [] /\ inbox p = [] /\ deferred p = []
  /\ NoDup (availableWorkers p)
  /\ (forall e, e ∈ settled p -> fst e < nextPromise p)
  /\ 1 <= maxWorkers p
  /\ (if isInitialized p then length (availableWorkers p) = maxWorkers p
      else workers p = [] /\ availableWorkers p = []).

(** The last [k] of the idle workers, in the order [pop] hands them out. *)
Lemma split_workers (av : list Worker) k :
  k <= length av ->
  exists rest ws, av = rest ++ reverse ws /\ length ws = k.
Proof.
  intros Hk. exists (take (length av - k) av), (reverse (drop (length av - k) av)).
  rewrite reverse_involutive, take_drop, length_reverse, length_drop. split; [reflexivity | lia].
Qed.

Lemma NoDup_split_workers (rest ws : list Worker) :
  NoDup (rest ++ reverse ws) -> NoDup ws /\ forall w, w ∈ ws -> w ∉ rest.
Proof.
  intros H. apply NoDup_app in H. destruct H as (_ & Hd & Hw).
  split.
  - rewrite reverse_Permutation in Hw. exact Hw.
  - intros w Hin Hr. apply (Hd w Hr). apply elem_of_reverse. exact Hin.
Qed.

Lemma Posted_build base jobs ws rest :
  NoDup (rest ++ reverse ws) -> availableWorkers base = rest ->
  job_worker <$> jobs ≡ₚ ws ->
  NoDup (job_id <$> jobs) -> NoDup (job_promise <$> jobs) ->
  (forall e j, e ∈ settled base -> j ∈ jobs -> fst e < job_promise j) ->
  Posted base jobs.
Proof.
  intros Hnd Ha Hperm Hids Hps Hfresh.
  destruct (NoDup_split_workers _ _ Hnd) as [Hws Hrest].
  split.
  - rewrite Hperm. exact Hws.
  - exact Hids.
  - exact Hps.
  - intros j Hj. rewrite Ha. apply Hrest. rewrite <- Hperm.
    apply list_elem_of_fmap_2. exact Hj.
  - intros e j He Hj. specialize (Hfresh e j He Hj). lia.
Qed.

Lemma NoDup_ids (fresh : nat -> TaskId * number) i k :
  (forall a b, fst (fresh a) = fst (fresh b) -> a = b) ->
  NoDup ((fun k => fst (fresh k)) <$> seq i k).
Proof.
  intros Hinj. apply NoDup_fmap_2_strong; [| apply NoDup_seq].
  intros a b _ _ E. apply Hinj. exact E.
Qed.

Lemma runMicrotasks_none base jobs :
  deferred base = [] -> runMicrotasks (posted base jobs) = posted base jobs.
Proof.
  intros Hd. unfold runMicrotasks, posted.
  cbn [deferred maxWorkers workers availableWorkers taskQueue isInitialized inbox settled
       nextPromise]. rewrite Hd. reflexivity.
Qed.

Lemma runMicrotasks_one base jobs h r taskId now :
  deferred base = [(h, r, taskId, now)] ->
  runMicrotasks (posted base jobs)
  = enqueue h r taskId now
      (posted (rebase base (availableWorkers base) (nextPromise base) []) jobs).
Proof.
  intros Hd. unfold runMicrotasks.
  change (deferred (posted base jobs)) with (deferred base). rewrite Hd. reflexivity.
Qed.

(** What a batch operation leaves behind on an idle pool: every request
    posted to a worker of its own, the promises in the order of the calls. *)
Lemma batch_posted fresh reqs p :
  idle p -> length reqs <= maxWorkers p ->
  (forall a b, fst (fresh a) = fst (fresh b) -> a = b) ->
  exists base jobs called,
    runMicrotasks (fst (dispatch fresh reqs p)) = posted base jobs
    /\ snd (dispatch fresh reqs p) = job_promise <$> called
    /\ job_request <$> called = reqs
    /\ called ≡ₚ jobs
    /\ Posted base jobs.
Proof.
  intros (Hq & Hbox & Hdf & Hnd & Hst & Hmw & Hini) Hk Hinj.
  destruct p as [mw wk av q ini box st np df].
  cbn [taskQueue inbox deferred availableWorkers settled nextPromise maxWorkers
       isInitialized workers] in *. subst q box df.
  destruct ini.
  - (* the workers exist: every call posts its task at once *)
    destruct (split_workers av (length reqs)) as (rest & ws & Hav & Hl); [lia |].
    pose (base0 := mk mw wk av [] true [] st np []).
    change (mk mw wk av [] true [] st np []) with (posted base0 []).
    unfold dispatch.
    rewrite (dispatch_posted fresh reqs base0 [] [] ws rest eq_refl Hav Hl).
    cbn [fst snd app length]. rewrite runMicrotasks_none by reflexivity.
    destruct (jobsFrom_proj fresh reqs 0 np ws Hl) as (Hw & Hp & Hi & Hr).
    eexists. exists (jobsFrom fresh 0 np ws reqs), (jobsFrom fresh 0 np ws reqs).
    split; [reflexivity |]. split; [cbn [nextPromise base0]; symmetry; exact Hp |].
    split; [exact Hr |]. split; [reflexivity |].
    apply (Posted_build _ _ ws rest).
    + rewrite <- Hav. exact Hnd.
    + reflexivity.
    + rewrite Hw. reflexivity.
    + rewrite Hi. apply NoDup_ids. exact Hinj.
    + rewrite Hp. apply NoDup_seq.
    + intros e j He Hj. apply (list_elem_of_fmap_2 job_promise) in Hj.
      rewrite Hp in Hj. apply elem_of_seq in Hj. specialize (Hst e He).
      cbn [nextPromise base0] in Hj. lia.
  - (* the first call creates the workers and queues its task last *)
    destruct Hini as [-> ->].
    destruct reqs as [|r0 reqs].
    + exists (mk mw [] [] [] false [] st np []), [], [].
      repeat split; try reflexivity; try (apply NoDup_nil; exact I);
        intros; match goal with H : _ ∈ [] |- _ => apply elem_of_nil in H; contradiction end.
    + cbn [length] in Hk.
      destruct (split_workers (seq 0 mw) (S (length reqs))) as (rest & ws & Hav & Hl);
        [rewrite length_seq; lia |].
      destruct (exists_last (l := ws)) as (ws1 & w0 & ->);
        [intros ->; discriminate |].
      rewrite length_app in Hl. cbn [length] in Hl.
      rewrite reverse_app in Hav. cbn [reverse rev_append app] in Hav.
      change (rev_append ws1 []) with (reverse ws1) in Hav.
      pose (base1 := mk mw (seq 0 mw) (seq 0 mw) [] true [] st (S np)
                        [(np, r0, fst (fresh 0), snd (fresh 0))]).
      unfold dispatch. rewrite dispatch_from_cons.
      change (executeTask r0 (fst (fresh (length (@nil nat)))) (snd (fresh (length (@nil nat))))
                (mk mw [] [] [] false [] st np []))
        with (posted base1 [], np).
      cbn [fst snd app].
      rewrite (dispatch_posted fresh reqs base1 [] [np] ws1 (rest ++ [w0]) eq_refl);
        [| cbn [availableWorkers base1]; rewrite Hav, <- app_assoc; reflexivity | lia].
      cbn [fst snd app length]. change (nextPromise base1) with (S np).
      set (jobs1 := jobsFrom fresh 1 (S np) ws1 reqs).
      set (job0 := mkJob np r0 (fst (fresh 0)) (snd (fresh 0)) w0).
      assert (Hrun : runMicrotasks
                (posted (rebase base1 (rest ++ [w0]) (S np + length reqs)
                           (deferred base1)) jobs1)
              = posted (rebase base1 rest (S np + length reqs) []) (jobs1 ++ [job0])).
      { rewrite (runMicrotasks_one
                   (rebase base1 (rest ++ [w0]) (S np + length reqs) (deferred base1))
                   jobs1 np r0 (fst (fresh 0)) (snd (fresh 0)) eq_refl).
        rewrite (enqueue_posted _ jobs1 rest w0); [reflexivity | reflexivity]. }
      rewrite Hrun.
      destruct (jobsFrom_proj fresh reqs 1 (S np) ws1) as (Hw & Hp & Hi & Hr); [lia |].
      fold jobs1 in Hw, Hp, Hi, Hr.
      eexists. exists (jobs1 ++ [job0]), (job0 :: jobs1).
      split; [reflexivity |].
      split; [rewrite fmap_cons, Hp; reflexivity |].
      split; [rewrite fmap_cons, Hr; reflexivity |].
      split; [apply Permutation_cons_append |].
      apply (Posted_build _ _ (ws1 ++ [w0]) rest).
      * rewrite reverse_app. cbn [reverse rev_append app].
        change (rev_append ws1 []) with (reverse ws1). rewrite <- Hav. apply NoDup_seq.
      * reflexivity.
      * rewrite fmap_app, Hw. reflexivity.
      * rewrite fmap_app, Hi. cbn [fmap list_fmap job_id job0].
        apply NoDup_app. split; [apply NoDup_ids; exact Hinj |].
        split; [| apply NoDup_singleton].
        intros x Hx Hx0. apply list_elem_of_singleton in Hx0. subst x.
        apply list_elem_of_fmap in Hx. destruct Hx as (k & E & Hk').
        apply elem_of_seq in Hk'. apply Hinj in E. lia.
      * rewrite fmap_app, Hp. cbn [fmap list_fmap job_promise job0].
        apply NoDup_app. split; [apply NoDup_seq |]. split; [| apply NoDup_singleton].
        intros x Hx Hx0. apply list_elem_of_singleton in Hx0. subst x.
        apply elem_of_seq in Hx. lia.
      * intros e j He Hj. specialize (Hst e He). cbn [settled rebase base1] in He.
        apply elem_of_app in Hj. destruct Hj as [Hj | Hj].
        -- apply (list_elem_of_fmap_2 job_promise) in Hj. rewrite Hp in Hj.
           apply elem_of_seq in Hj. lia.
        -- apply list_elem_of_singleton in Hj. subst j. cbn [job_promise job0]. lia.
Qed.


(** *** Joining a batch *)

Lemma replied_advance jobs fin d j :
  NoDup (job_worker <$> jobs) -> j ∈ jobs ->
  replied (advance jobs fin d) j = replied fin j || Nat.eqb (fst d) (job_worker j).
Proof.
  intros Hnd Hj. unfold advance.
  destruct (jobOf jobs (fst d)) as [j'|] eqn:Ej.
  - destruct (jobOf_Some _ _ _ Ej) as [Hj' Hw].
    destruct (replied fin j') eqn:Er; [| apply replied_snoc].
    destruct (Nat.eqb_spec (fst d) (job_worker j)) as [E | _]; [| rewrite orb_false_r; reflexivity].
    assert (j' = j).
    { rewrite E, (jobOf_own jobs j Hnd Hj) in Ej. congruence. }
    subst j'. rewrite Er. reflexivity.
  - destruct (Nat.eqb_spec (fst d) (job_worker j)) as [E | _]; [| rewrite orb_false_r; reflexivity].
    rewrite E, (jobOf_own jobs j Hnd Hj) in Ej. discriminate.
Qed.

Lemma replied_schedule jobs sched : forall fin j,
  NoDup (job_worker <$> jobs) -> j ∈ jobs ->
  replied (foldl (advance jobs) fin sched) j
  = replied fin j || existsb (fun d => Nat.eqb (fst d) (job_worker j)) sched.
Proof.
  induction sched as [|d sched IH]; intros fin j Hnd Hj.
  - simpl. rewrite orb_false_r. reflexivity.
  - cbn [foldl existsb]. rewrite (IH _ _ Hnd Hj), (replied_advance _ _ _ _ Hnd Hj).
    rewrite orb_assoc. reflexivity.
Qed.

Lemma not_rejected base jobs fin (hs : list nat) :
  (forall e, e ∈ settled base -> fst e ∉ hs) ->
  find (rejectedIn hs) (settled base ++ resultsOf jobs fin) = None.
Proof.
  intros Hfresh. destruct (find _ _) as [e|] eqn:E; [| reflexivity]. exfalso.
  apply find_some in E. destruct E as [Hin Hrej].
  unfold rejectedIn in Hrej. apply andb_true_iff in Hrej. destruct Hrej as [Hh Hr].
  apply in_app_or in Hin. destruct Hin as [Hin | Hin].
  - apply existsb_exists in Hh. destruct Hh as (h & Hh & Eh). apply Nat.eqb_eq in Eh.
    apply (Hfresh e); [apply list_elem_of_In; exact Hin |].
    rewrite Eh. apply list_elem_of_In. exact Hh.
  - apply list_elem_of_In in Hin. unfold resultsOf in Hin. apply list_elem_of_omap in Hin.
    destruct Hin as (d & _ & Hd). destruct (jobOf jobs (fst d)); [| discriminate].
    simpl in Hd. injection Hd as <-. discriminate.
Qed.

Lemma mapM_fmap_comp {A B C : Type} (f : B -> option C) (g : A -> B) (l : list A) :
  mapM f (g <$> l) = mapM (fun x => f (g x)) l.
Proof.
  induction l as [|a l IH]; [reflexivity |].
  rewrite fmap_cons. cbn [mapM]. rewrite IH. reflexivity.
Qed.

Lemma mapM_ext_in {A B : Type} (f g : A -> option B) (l : list A) :
  (forall x, x ∈ l -> f x = g x) -> mapM f l = mapM g l.
Proof.
  induction l as [|a l IH]; intros H; [reflexivity |].
  cbn [mapM]. rewrite (H a) by (apply elem_of_cons; auto).
  rewrite IH; [reflexivity |]. intros x Hx. apply H. apply elem_of_cons. auto.
Qed.

(** [Promise.all] over the promises of posted jobs: pending until every
    one of their workers has replied, then the answers in the order of the
    promises. *)
Lemma Promise_all_stateOf base jobs called fin :
  Posted base jobs -> (forall j, j ∈ called -> j ∈ jobs) ->
  Promise_all (job_promise <$> called) (stateOf base jobs fin)
  = match mapM (fun j => (fun now => onmessage now (job_request j))
                           <$> clockOf fin (job_worker j)) called with
    | Some results => Resolved results
    | None => Pending
    end.
Proof.
  intros HP Hsub. unfold Promise_all. cbn [stateOf settled].
  rewrite not_rejected.
  - rewrite mapM_fmap_comp.
    rewrite (mapM_ext_in _ (fun j => (fun now => onmessage now (job_request j))
                              <$> clockOf fin (job_worker j))); [reflexivity |].
    intros j Hj. apply fulfilled_stateOf; auto.
  - intros e He Hin. apply list_elem_of_fmap in Hin. destruct Hin as (j & Ej & Hj).
    exact (posted_fresh _ _ HP e j He (Hsub j Hj) Ej).
Qed.

(** The batch operations on an idle pool, for any requests that fit the
    workers: every request is posted to a worker of its own, and whatever
    the order in which the workers reply, the joined promise is pending
    until the last of them has, never fails, and then holds the workers'
    answers in the order of the requests. *)
Lemma pool_join fresh reqs p :
  idle p -> length reqs <= maxWorkers p ->
  (forall a b, fst (fresh a) = fst (fresh b) -> a = b) ->
  let p1 := runMicrotasks (fst (dispatch fresh reqs p)) in
  let hs := snd (dispatch fresh reqs p) in
  length hs = length reqs
  /\ (fun m => msg_request (snd m)) <$> inbox p1 ≡ₚ reqs
  /\ NoDup (fst <$> inbox p1)
  /\ forall sched,
      let p2 := run (replies sched) p1 in
      (Promise_all hs p2 = Pending <->
         exists w, w ∈ fst <$> inbox p1 /\ w ∉ fst <$> sched)
      /\ (forall e, Promise_all hs p2 <> Failed e)
      /\ (forall results, Promise_all hs p2 = Resolved results ->
            Forall2 (fun r result => exists now, result = onmessage now r) reqs results).
Proof.
  intros Hidle Hk Hinj p1 hs.
  destruct (batch_posted fresh reqs p Hidle Hk Hinj)
    as (base & jobs & called & Hp1 & Hhs & Hreq & Hperm & HP).
  fold p1 in Hp1. fold hs in Hhs.
  assert (Hinbox : inbox p1 = messageOf <$> jobs) by (rewrite Hp1; reflexivity).
  assert (Hws : fst <$> inbox p1 = job_worker <$> jobs).
  { rewrite Hinbox, <- list_fmap_compose. reflexivity. }
  split; [rewrite Hhs, <- Hreq, !length_fmap; reflexivity |].
  split.
  { rewrite Hinbox, <- list_fmap_compose, <- Hreq, Hperm. reflexivity. }
  split; [rewrite Hws; apply (posted_workers _ _ HP) |].
  intros sched p2.
  assert (Hsub : forall j, j ∈ called -> j ∈ jobs) by (intros j; rewrite Hperm; auto).
  assert (Hall : Promise_all hs p2
            = match mapM (fun j => (fun now => onmessage now (job_request j))
                            <$> clockOf (foldl (advance jobs) [] sched) (job_worker j)) called with
              | Some results => Resolved results
              | None => Pending
              end).
  { unfold p2. rewrite Hp1, <- stateOf_nil, (run_replies _ _ _ _ HP), Hhs.
    apply Promise_all_stateOf; auto. }
  set (fin := foldl (advance jobs) [] sched) in Hall.
  assert (Hrep : forall j, j ∈ jobs ->
            replied fin j = existsb (fun d => Nat.eqb (fst d) (job_worker j)) sched).
  { intros j Hj. unfold fin. rewrite (replied_schedule _ _ _ _ (posted_workers _ _ HP) Hj).
    reflexivity. }
  split; [| split].
  - rewrite Hall. split.
    + destruct (mapM _ called) eqn:Em; [discriminate |]. intros _.
      apply mapM_None in Em. apply Exists_exists in Em. destruct Em as (j & Hj & Hn).
      exists (job_worker j). rewrite Hws.
      split; [apply list_elem_of_fmap_2; apply Hsub; exact Hj |].
      intros Hin. specialize (Hrep j (Hsub j Hj)).
      assert (Hr : replied fin j = true).
      { rewrite Hrep. apply existsb_exists. apply list_elem_of_fmap in Hin.
        destruct Hin as (d & Ed & Hd). exists d. split; [apply list_elem_of_In; exact Hd |].
        rewrite Ed. apply Nat.eqb_refl. }
      apply clockOf_replied in Hr. destruct Hr as [c Hc]. rewrite Hc in Hn. discriminate.
    + intros (w & Hw & Hnot). rewrite Hws in Hw. apply list_elem_of_fmap in Hw.
      destruct Hw as (j & -> & Hj).
      destruct (mapM _ called) eqn:Em; [| reflexivity]. exfalso.
      apply mapM_Some in Em.
      assert (Hjc : j ∈ called) by (rewrite Hperm; exact Hj).
      apply list_elem_of_lookup in Hjc. destruct Hjc as (i & Hi).
      destruct (Forall2_lookup_l _ _ _ _ _ Em Hi) as (res & _ & Hres).
      destruct (clockOf fin (job_worker j)) eqn:Ec; [| discriminate].
      assert (Hr : replied fin j = true) by (apply clockOf_replied; rewrite Ec; eauto).
      rewrite (Hrep j Hj) in Hr. apply existsb_exists in Hr.
      destruct Hr as (d & Hd & Ed). apply Nat.eqb_eq in Ed. apply Hnot.
      rewrite <- Ed. apply list_elem_of_fmap_2. apply list_elem_of_In. exact Hd.
  - intros e. rewrite Hall. destruct (mapM _ called); discriminate.
  - intros results. rewrite Hall. destruct (mapM _ called) eqn:Em; [| discriminate].
    intros [= <-]. apply mapM_Some in Em. rewrite <- Hreq.
    apply Forall2_fmap_l. eapply Forall2_impl; [exact Em |].
    intros j res Hres. simpl in Hres.
    destruct (clockOf fin (job_worker j)) as [now|]; [| discriminate].
    exists now. simpl in Hres. congruence.
Qed.


(** *** Slices *)

Lemma slices_prefix {A : Type} (L : list A) b k :
  concat ((fun i => slice i (i + b) L) <$> ((fun k => k * b) <$> seq 0 k)) = take (k * b) L.
Proof.
  induction k as [|k IH]; [reflexivity |].
  rewrite seq_S, !fmap_app, concat_app, IH. cbn [fmap list_fmap concat Nat.add].
  rewrite app_nil_r. unfold slice.
  replace (k * b + b - k * b) with b by lia.
  rewrite take_take_drop. f_equal. lia.
Qed.

(** Cutting a list into slices of [b] and gluing them gives the list. *)
Lemma concat_slices {A : Type} (L : list A) b :
  0 < b \/ L = [] ->
  concat ((fun i => slice i (i + b) L) <$> steps (length L) b) = L.
Proof.
  intros H. destruct b as [|b].
  - destruct H as [H | ->]; [lia | reflexivity].
  - unfold steps. rewrite slices_prefix. apply take_ge.
    apply div_ceil_ge. lia.
Qed.

Lemma batchSize_ceil n (p : t) :
  1 <= maxWorkers p -> 0 < n ->
  0 < batchSize n p
  /\ (batchSize n p - 1) * maxWorkers p < n
  /\ n <= batchSize n p * maxWorkers p.
Proof.
  intros HW Hn. unfold batchSize.
  destruct (Nat.eqb_spec (maxWorkers p) 0) as [E | _]; [lia |].
  pose proof (div_ceil_ge n (maxWorkers p) HW) as Hge.
  pose proof (Nat.Div0.mul_div_le (n + maxWorkers p - 1) (maxWorkers p)) as Hle.
  set (b := (n + maxWorkers p - 1) / maxWorkers p) in *.
  assert (0 < b) by (destruct b; [lia | lia]).
  repeat split; [lia | | lia]. nia.
Qed.

Lemma batchSize_zero (p : t) : 1 <= maxWorkers p -> batchSize 0 p = 0.
Proof.
  intros HW. unfold batchSize.
  destruct (Nat.eqb_spec (maxWorkers p) 0) as [E | _]; [lia |].
  apply Nat.div_small. lia.
Qed.

(** A batch has at most as many slices as the pool has workers. *)
Lemma slices_fit n (p : t) :
  1 <= maxWorkers p -> length (steps n (batchSize n p)) <= maxWorkers p.
Proof.
  intros HW. unfold steps. rewrite length_fmap, length_seq.
  destruct n as [|n].
  - rewrite batchSize_zero by exact HW. simpl. lia.
  - destruct (batchSize_ceil (S n) p HW) as (Hb & _ & Hn); [lia |].
    set (b := batchSize (S n) p) in *.
    assert ((S n + b - 1) / b < S (maxWorkers p)); [| lia].
    apply Nat.Div0.div_lt_upper_bound. nia.
Qed.

Lemma slice_sizes {A : Type} (L : list A) b k s :
  0 < b ->
  ((fun i => slice i (i + b) L) <$> steps (length L) b) !! k = Some s ->
  0 < length s /\ length s <= b
  /\ (S k < length (steps (length L) b) -> length s = b).
Proof.
  intros Hb Hs. rewrite list_lookup_fmap in Hs. unfold steps in *.
  rewrite list_lookup_fmap in Hs.
  destruct (seq 0 ((length L + b - 1) / b) !! k) as [k'|] eqn:Ek; [| discriminate].
  apply lookup_seq in Ek. destruct Ek as [-> Hk]. simpl in Hs. injection Hs as <-.
  pose proof (div_ceil_lt (length L) b k Hb Hk) as Hlt.
  unfold slice. rewrite length_take, length_drop, length_fmap, length_seq.
  repeat split; [lia | lia |].
  intros Hk'. pose proof (div_ceil_lt (length L) b (S k) Hb Hk'). lia.
Qed.


(** *** The worker functions on slices *)

(** The worker's output for a slice is the slice of its output for the
    whole input. *)
Lemma updateParticlesBatch_slice ps fs dt params i0 b :
  updateParticlesBatch (slice i0 (i0 + b) ps) (slice (i0 * 2) ((i0 + b) * 2) fs) dt params
  = slice i0 (i0 + b) (updateParticlesBatch ps fs dt params).
Proof.
  unfold slice.
  replace (i0 + b - i0) with b by lia.
  replace ((i0 + b) * 2 - i0 * 2) with (b * 2) by lia.
  apply list_eq. intros i. unfold updateParticlesBatch.
  rewrite list_lookup_imap.
  destruct (Nat.lt_ge_cases i b) as [Hi | Hi].
  - rewrite !lookup_take_lt by lia. rewrite !lookup_drop, list_lookup_imap.
    destruct (ps !! (i0 + i)) as [q|]; [| reflexivity]. simpl.
    rewrite ?lookup_take_lt by lia. rewrite ?lookup_drop.
    replace (i0 * 2 + i * 2) with ((i0 + i) * 2) by lia.
    replace (i0 * 2 + (i * 2 + 1)) with ((i0 + i) * 2 + 1) by lia.
    reflexivity.
  - rewrite !lookup_take_ge by lia. reflexivity.
Qed.

Lemma updateParticlesBatch_length ps fs dt params :
  length (updateParticlesBatch ps fs dt params) = length ps.
Proof. unfold updateParticlesBatch. apply length_imap. Qed.

(** Gluing the answers to the [updateParticles] requests of a batch gives
    the worker's output for the whole input. *)
Lemma flat_answers ps fs dt params b results :
  0 < b \/ ps = [] ->
  Forall2 (fun r result => exists now, result = onmessage now r)
    ((fun i => updateParticles_req (slice i (i + b) ps) (slice (i * 2) ((i + b) * 2) fs)
                                   dt params) <$> steps (length ps) b)
    results ->
  flat results = updateParticlesBatch ps fs dt params.
Proof.
  intros Hb HF.
  assert (H : flat results
            = concat ((fun i => slice i (i + b) (updateParticlesBatch ps fs dt params))
                        <$> steps (length ps) b)).
  { revert results HF. induction (steps (length ps) b) as [|i l IH]; intros results HF.
    - apply Forall2_nil_inv_l in HF. subst. reflexivity.
    - rewrite fmap_cons in HF. apply Forall2_cons_inv_l in HF.
      destruct HF as (res & results' & (now & ->) & HF & ->).
      unfold flat in *. rewrite !fmap_cons. cbn [concat onmessage].
      rewrite updateParticlesBatch_slice, (IH _ HF). reflexivity. }
  rewrite H. rewrite <- (updateParticlesBatch_length ps fs dt params).
  apply concat_slices.
  destruct Hb as [Hb | ->]; [left; exact Hb | right; reflexivity].
Qed.

(** A buffer of forces that belongs to a list of particles: two slots per
    particle, holding the rounded force the worker computes for it at some
    reading of the clock. *)
Definition forcesFor (scene : string) (audioInfluence width height : number)
    (ps : list Particle.t) (forces : list number) : Prop :=
  length forces = length ps * 2
  /\ forall i q, ps !! i = Some q ->
       exists now,
         forces !! (i * 2)
           = Some (fround (fst (workerForce now scene audioInfluence width height q)))
         /\ forces !! (i * 2 + 1)
           = Some (fround (snd (workerForce now scene audioInfluence width height q))).

Lemma forcesFor_app scene a w h ps1 fs1 ps2 fs2 :
  forcesFor scene a w h ps1 fs1 -> forcesFor scene a w h ps2 fs2 ->
  forcesFor scene a w h (ps1 ++ ps2) (fs1 ++ fs2).
Proof.
  intros [Hl1 H1] [Hl2 H2]. split; [rewrite !length_app; lia |].
  intros i q Hi. apply lookup_app_Some in Hi. destruct Hi as [Hi | [Hge Hi]].
  - destruct (H1 i q Hi) as (now & Ha & Hb). exists now.
    rewrite !lookup_app_l by (apply lookup_lt_Some in Hi; lia). auto.
  - destruct (H2 _ q Hi) as (now & Ha & Hb). exists now.
    rewrite !lookup_app_r by lia.
    replace (i * 2 - length fs1) with ((i - length ps1) * 2) by lia.
    replace (i * 2 + 1 - length fs1) with ((i - length ps1) * 2 + 1) by lia. auto.
Qed.

(** The loop of [calculateForcesBatch] after the first [m] particles. *)
Lemma calculateForcesBatch_prefix now ps scene a w h m :
  m <= length ps ->
  let buf := foldl (fun forces ip =>
                      let f := workerForce (now (fst ip)) scene a w h (snd ip) in
                      FluidSimulation.f32_set (fst ip * 2 + 1) (snd f)
                        (FluidSimulation.f32_set (fst ip * 2) (fst f) forces))
                   (FluidSimulation.new_Float32Array (length ps * 2))
                   (take m (imap pair ps)) in
  length buf = length ps * 2
  /\ forall i q, i < m -> ps !! i = Some q ->
       buf !! (i * 2) = Some (fround (fst (workerForce (now i) scene a w h q)))
       /\ buf !! (i * 2 + 1) = Some (fround (snd (workerForce (now i) scene a w h q))).
Proof.
  induction m as [|m IH]; intros Hm.
  - simpl. split; [apply length_replicate | intros; lia].
  - destruct (lookup_lt_is_Some_2 ps m) as [qm Hqm]; [lia |].
    assert (Htake : take (S m) (imap pair ps) = take m (imap pair ps) ++ [(m, qm)]).
    { erewrite take_S_r; [reflexivity |]. rewrite list_lookup_imap, Hqm. reflexivity. }
    rewrite Htake, foldl_app. cbn [foldl fst snd].
    destruct IH as [Hlen IH]; [lia |].
    set (buf := foldl _ _ (take m (imap pair ps))) in *.
    split; [rewrite !SimulationFacts.f32_set_length; exact Hlen |].
    intros i q Hi Hq.
    apply SimulationFacts.f32_set_pair_new; [lia | lia | |].
    + intros ->. assert (q = qm) by congruence. subst q. auto.
    + intros Hlt. apply IH; auto.
Qed.

Lemma calculateForcesBatch_forcesFor now ps scene a w h :
  forcesFor scene a w h ps (calculateForcesBatch now ps scene a w h).
Proof.
  destruct (calculateForcesBatch_prefix now ps scene a w h (length ps)) as [Hl H]; [lia |].
  rewrite take_ge in Hl, H by (rewrite length_imap; lia).
  split; [exact Hl |].
  intros i q Hq. exists (now i). apply H; [apply lookup_lt_Some in Hq; lia | exact Hq].
Qed.

(** [combine] writes the buffers of the replies one after the other. *)
Lemma combine_concat n results :
  length (concat (forcesOf <$> results)) = n * 2 ->
  combine n results = Some (concat (forcesOf <$> results)).
Proof.
  intros Hlen. unfold combine.
  assert (H : forall rs done,
            length done + length (concat (forcesOf <$> rs)) <= n * 2 ->
            forM rs
              (fun r st => totalForces ← set_at (forcesOf r) (snd st) (fst st);
                           Some (totalForces, snd st + length (forcesOf r)))
              (done ++ replicate (n * 2 - length done) 0%float, length done)
            = Some ((done ++ concat (forcesOf <$> rs))
                      ++ replicate (n * 2 - length done - length (concat (forcesOf <$> rs)))
                           0%float,
                    length done + length (concat (forcesOf <$> rs)))).
  { induction rs as [|r rs IH]; intros done Hd.
    - simpl. rewrite app_nil_r, Nat.sub_0_r, Nat.add_0_r. reflexivity.
    - rewrite fmap_cons in *. cbn [concat] in *. rewrite length_app in Hd.
      cbn [forM fst snd]. unfold set_at.
      rewrite length_app, length_replicate.
      destruct (Nat.leb_spec (length done + length (forcesOf r))
                             (length done + (n * 2 - length done))) as [_ | Hbad]; [| lia].
      cbn [mbind option_bind].
      rewrite take_app_length.
      rewrite drop_app_ge by lia. rewrite drop_replicate.
      replace (length done + length (forcesOf r) - length done) with (length (forcesOf r)) by lia.
      specialize (IH (done ++ forcesOf r)). rewrite length_app in IH.
      replace (n * 2 - length done - length (forcesOf r))
        with (n * 2 - (length done + length (forcesOf r))) by lia.
      rewrite <- app_assoc in IH.
      etransitivity; [exact (IH ltac:(lia)) |].
      rewrite length_app, <- !app_assoc. f_equal. f_equal; [| lia].
      f_equal. f_equal. f_equal. f_equal. lia. }
  specialize (H results []). cbn [length app Nat.add] in H.
  rewrite Nat.sub_0_r in H. unfold FluidSimulation.new_Float32Array. rewrite H by lia.
  simpl. rewrite Hlen, Nat.sub_diag. simpl. rewrite app_nil_r. reflexivity.
Qed.

(** The glued answers to the [calculateForces] requests of a batch belong
    to the whole input. *)
Lemma forces_answers ps scene a w h b results :
  0 < b \/ ps = [] ->
  Forall2 (fun r result => exists now, result = onmessage now r)
    ((fun i => calculateForces_req (slice i (i + b) ps) scene a w h) <$> steps (length ps) b)
    results ->
  forcesFor scene a w h ps (concat (forcesOf <$> results)).
Proof.
  intros Hb HF. rewrite <- (concat_slices ps b Hb) at 1.
  revert results HF. induction (steps (length ps) b) as [|i l IH]; intros results HF.
  - apply Forall2_nil_inv_l in HF. subst. split; [reflexivity |]. intros i q Hi. discriminate.
  - rewrite fmap_cons in HF. apply Forall2_cons_inv_l in HF.
    destruct HF as (res & results' & (now & ->) & HF & ->).
    rewrite !fmap_cons. cbn [concat onmessage forcesOf].
    apply forcesFor_app; [apply calculateForcesBatch_forcesFor | apply IH; exact HF].
Qed.


(** *** The batch operations *)

(** What the caller of a batch operation observes after the workers named
    in [sched] have replied: the operation is still pending exactly while a
    worker that was sent a slice has not replied, and once it is not
    pending it has returned a value that satisfies [good]. *)
Definition joined {A : Type} (p1 : t) (sched : list (Worker * (nat -> number)))
    (result : Promise A) (good : A -> Prop) : Prop :=
  (result = Pending <-> exists w, w ∈ fst <$> inbox p1 /\ w ∉ fst <$> sched)
  /\ (result <> Pending -> exists a, result = Resolved a /\ good a).

Lemma steps_empty b : steps 0 b = [].
Proof.
  unfold steps. destruct b as [|b]; [reflexivity |].
  replace ((0 + S b - 1) / S b) with 0; [reflexivity |].
  symmetry. apply Nat.div_small. lia.
Qed.

Lemma batch_step (particles : list Particle.t) (p : t) :
  1 <= maxWorkers p ->
  0 < batchSize (length particles) p \/ particles = [].
Proof.
  intros HW. destruct particles as [|q ps]; [right; reflexivity | left].
  apply (batchSize_ceil (length (q :: ps)) p HW). simpl. lia.
Qed.

(** C3: called on a pool with nothing in flight, whose task ids are
    distinct, [updateParticles] and [calculateForces] cut the [n]
    particles into consecutive slices of [ceil(n / maxWorkers)] particles
    (the last one may be shorter) that together are the input, and post
    exactly one task per slice. Whatever the order in which the workers
    reply, the operation stays pending until every slice has been answered.
    Then [updateParticles] returns the [n] particles that the worker function
    computes from the whole input, and [calculateForces] returns [2n]
    floats of which slots [2i] and [2i+1] hold the force the worker function
    computes for particle [i]. *)
Theorem batch_operations_join (fresh : nat -> TaskId * number) (p : t)
    (particles : list Particle.t) (forces : list number) (dt : number)
    (params : FluidSimulation.Params) (scene : string) (audio width height : number) :
  idle p ->
  (forall a b, fst (fresh a) = fst (fresh b) -> a = b) ->
  let n := length particles in
  let b := batchSize n p in
  let slices := (fun i => slice i (i + b) particles) <$> steps n b in
  let upd := updateParticles fresh particles forces dt params p in
  let cal := calculateForces fresh particles scene audio width height p in
  (0 < n -> (b - 1) * maxWorkers p < n /\ n <= b * maxWorkers p)
  /\ concat slices = particles
  /\ (forall k s, slices !! k = Some s ->
        0 < length s /\ length s <= b /\ (S k < length slices -> length s = b))
  /\ (fun m => msg_request (snd m)) <$> inbox (fst upd)
       ≡ₚ updateParticles_requests particles forces dt params p
  /\ length (inbox (fst upd)) = length slices
  /\ (fun m => msg_request (snd m)) <$> inbox (fst cal)
       ≡ₚ calculateForces_requests particles scene audio width height p
  /\ length (inbox (fst cal)) = length slices
  /\ forall sched,
       joined (fst upd) sched
         (updateParticles_result (snd upd) (run (replies sched) (fst upd)))
         (fun result =>
            result = updateParticlesBatch particles forces dt params
            /\ length result = n)
       /\ joined (fst cal) sched
            (calculateForces_result n (snd cal) (run (replies sched) (fst cal)))
            (forcesFor scene audio width height particles).
Proof.
  intros Hidle Hinj n b slices upd cal.
  assert (HW : 1 <= maxWorkers p) by (destruct Hidle as (_ & _ & _ & _ & _ & HW & _); exact HW).
  pose proof (batch_step particles p HW) as Hb. fold n b in Hb.
  assert (Hfit : length slices <= maxWorkers p).
  { unfold slices. rewrite length_fmap. apply slices_fit. exact HW. }
  destruct (pool_join fresh (updateParticles_requests particles forces dt params p) p
              Hidle ltac:(unfold updateParticles_requests; rewrite length_fmap;
                          apply slices_fit; exact HW) Hinj)
    as (_ & Hmu & _ & Hju).
  destruct (pool_join fresh (calculateForces_requests particles scene audio width height p) p
              Hidle ltac:(unfold calculateForces_requests; rewrite length_fmap;
                          apply slices_fit; exact HW) Hinj)
    as (_ & Hmc & _ & Hjc).
  split; [| split; [| split; [| split; [| split; [| split; [| split]]]]]].
  - intros Hn. apply (batchSize_ceil n p HW Hn).
  - apply concat_slices. exact Hb.
  - intros k s Hs. destruct Hb as [Hb | ->].
    + unfold slices. rewrite length_fmap.
      apply (slice_sizes particles b k s Hb Hs).
    + unfold slices, n in Hs. simpl in Hs. rewrite steps_empty in Hs. discriminate.
  - exact Hmu.
  - apply Permutation_length in Hmu. rewrite length_fmap in Hmu.
    unfold upd, updateParticles. cbn [fst]. rewrite Hmu.
    unfold updateParticles_requests, slices. rewrite !length_fmap. reflexivity.
  - exact Hmc.
  - apply Permutation_length in Hmc. rewrite length_fmap in Hmc.
    unfold cal, calculateForces. cbn [fst]. rewrite Hmc.
    unfold calculateForces_requests, slices. rewrite !length_fmap. reflexivity.
  - intros sched. split.
    + destruct (Hju sched) as (Hpend & Hfail & Hres).
      unfold joined, upd, updateParticles, updateParticles_result. cbn [fst snd].
      destruct (Promise_all _ _) as [| results | e] eqn:E.
      * split; [split; [intros _; apply Hpend; reflexivity | reflexivity] |].
        intros H. contradiction H. reflexivity.
      * split; [split; [discriminate | intros H; apply Hpend in H; discriminate] |].
        intros _. eexists. split; [reflexivity |].
        assert (Hflat : flat results = updateParticlesBatch particles forces dt params)
          by (apply (flat_answers _ _ _ _ b); [exact Hb | exact (Hres _ eq_refl)]).
        split; [exact Hflat |]. rewrite Hflat. apply updateParticlesBatch_length.
      * contradiction (Hfail e). reflexivity.
    + destruct (Hjc sched) as (Hpend & Hfail & Hres).
      unfold joined, cal, calculateForces, calculateForces_result. cbn [fst snd].
      destruct (Promise_all _ _) as [| results | e] eqn:E.
      * split; [split; [intros _; apply Hpend; reflexivity | reflexivity] |].
        intros H. contradiction H. reflexivity.
      * pose proof (forces_answers particles scene audio width height b results Hb
                      (Hres _ eq_refl)) as Hfor.
        rewrite (combine_concat n results (proj1 Hfor)).
        split; [split; [discriminate | intros H; apply Hpend in H; discriminate] |].
        intros _. eexists. split; [reflexivity | exact Hfor].
      * contradiction (Hfail e). reflexivity.
Qed.

End Join.


(** *** A run of the pool *)

(** Task ids for the examples: the [k]-th call draws a string of length
    [k], stamped with time 0. *)
Fixpoint tally (k : nat) : string :=
  match k with
  | O => EmptyString
  | S k' => String (Ascii.ascii_of_nat 105) (tally k')
  end.

Definition sampleIds (k : nat) : TaskId * number := (tally k, 0%float).

Lemma tally_inj a b : tally a = tally b -> a = b.
Proof.
  revert b. induction a as [|a IH]; intros [|b] H; try discriminate; [reflexivity |].
  simpl in H. injection H as H. f_equal. apply IH. exact H.
Qed.

Lemma idle_new k : 1 <= k -> idle (new k).
Proof.
  intros Hk. unfold idle, new. cbn.
  repeat split; try reflexivity; [apply NoDup_nil; exact I | | lia].
  intros e He. apply elem_of_nil in He. contradiction.
Qed.

(** C3 on a new pool of two workers and three particles: the slices hold
    two and one particle; the first call waits for the pool to start, so
    the second slice is posted first, to worker 1. When that worker also
    replies first, [updateParticles] still returns the particles in the
    order of the input. *)
Lemma batch_operations_join_witness :
  let q := fun x => Particle.mk x 0%float 1%float 0%float 1%float 0%float 1%float in
  let particles := [q 1%float; q 2%float; q 3%float] in
  let params := FluidSimulation.mkParams 0.0001%float 1%float 1%float 3 1%float in
  let p := new 2 in
  let clock := fun _ : nat => 0%float in
  let upd := updateParticles sampleIds particles [] 1%float params p in
  idle p
  /\ fst <$> inbox (fst upd) = [1%nat; 0%nat]
  /\ updateParticles_result (snd upd)
       (run (M := SimulationExamples.sampleMath) (replies [(1%nat, clock); (0%nat, clock)])
            (fst upd))
     = Resolved (updateParticlesBatch particles [] 1%float params).
Proof.
  intros q particles params p clock upd.
  assert (Hidle : idle p) by (apply idle_new; lia).
  split; [exact Hidle |]. split; [vm_compute; reflexivity |].
  destruct (batch_operations_join (M := SimulationExamples.sampleMath)
              sampleIds p particles [] 1%float params "default" 0%float 0%float 0%float
              Hidle (fun a b H => tally_inj a b H))
    as (_ & _ & _ & _ & _ & _ & _ & Hall).
  destruct (Hall [(1%nat, clock); (0%nat, clock)]) as [[_ Hres] _].
  destruct Hres as (result & Hr & Hgood & _); [vm_compute; discriminate |].
  fold upd in Hr. rewrite Hr, Hgood. reflexivity.
Defined.


(** *** The worker's forces and the local engine's *)

(** Outside the spiral scene the local engine's force is the worker's
    minus the viscosity drag; in the spiral scene the worker computes no
    force at all. *)
Lemma workerForce_particleForce `{M : MathLib} (now : number) (s : FluidSimulation.t)
    (q : Particle.t) :
  let wf := workerForce now (FluidSimulation.currentScene s) (FluidSimulation.audioInfluence s)
              (FluidSimulation.width s) (FluidSimulation.height s) q in
  (FluidSimulation.currentScene s <> "spiral" ->
     FluidSimulation.particleForce now s q
     = ((fst wf - Particle.vx q * FluidSimulation.viscosity (FluidSimulation.params s))%float,
        (snd wf - Particle.vy q * FluidSimulation.viscosity (FluidSimulation.params s))%float))
  /\ (FluidSimulation.currentScene s = "spiral" -> wf = (0%float, 0%float)).
Proof.
  intros wf. split.
  - intros Hs. unfold FluidSimulation.particleForce. f_equal; f_equal.
    all: unfold wf, workerForce, FluidSimulation.sceneForce.
    all: destruct (String.eqb_spec (FluidSimulation.currentScene s) "vortex"); [reflexivity |].
    all: destruct (String.eqb_spec (FluidSimulation.currentScene s) "wave"); [reflexivity |].
    all: destruct (String.eqb_spec (FluidSimulation.currentScene s) "spiral");
      [contradiction | reflexivity].
  - intros Hs. unfold wf, workerForce. rewrite Hs. reflexivity.
Qed.

(** C1 fails for a particle that moves: in the default scene, with the
    viscosity 0.0001 of a new simulation and a particle of velocity
    [(1, 0)], the local engine stores the drag [0 - 1 * 0.0001] (rounded to
    single precision) in the particle's first force slot, while
    [calculateForces] of the pool, given the same scene, influence and
    canvas, returns 0 in that slot. *)
Theorem calculateForces_omits_viscosity :
  let q := Particle.mk 10%float 10%float 1%float 0%float 1%float 0%float 1%float in
  let s := SimulationFacts.canvas [q] in
  let clock := fun _ : nat => 0%float in
  let cal := calculateForces sampleIds [q] (FluidSimulation.currentScene s)
               (FluidSimulation.audioInfluence s) (FluidSimulation.width s)
               (FluidSimulation.height s) (new 4) in
  FluidSimulation.forces
    (FluidSimulation.applyParticleForces (M := SimulationExamples.sampleMath)
       0%float q 0 16%float s)
  = [fround (0 - 1 * 0.0001)%float; fround (0 - 0 * 0.0001)%float]
  /\ fst <$> inbox (fst cal) = [3%nat]
  /\ calculateForces_result 1 (snd cal)
       (run (M := SimulationExamples.sampleMath) (replies [(3%nat, clock)]) (fst cal))
     = Resolved [0%float; 0%float]
  /\ (fround (0 - 1 * 0.0001) <? 0)%float = true.
Proof. vm_compute. repeat split; reflexivity. Qed.

End PoolFacts.

(** * Further properties of the simulation core *)

Module FrameFacts.
Import JS FluidSimulation SimulationFacts.
Local Open Scope nat_scope.

(** ** [NaN] in arithmetic *)

Lemma add_nan_l x y : is_nan x = true -> is_nan (x + y)%float = true.
Proof.
  rewrite !is_nan_spec, add_spec. intros ->. reflexivity.
Qed.

Lemma add_nan_r x y : is_nan y = true -> is_nan (x + y)%float = true.
Proof.
  rewrite !is_nan_spec, add_spec. intros ->. destruct (Prim2SF x); reflexivity.
Qed.

Lemma mul_nan_l x y : is_nan x = true -> is_nan (x * y)%float = true.
Proof.
  rewrite !is_nan_spec, mul_spec. intros ->. reflexivity.
Qed.

Lemma mul_nan_r x y : is_nan y = true -> is_nan (x * y)%float = true.
Proof.
  rewrite !is_nan_spec, mul_spec. intros ->. destruct (Prim2SF x); reflexivity.
Qed.

Lemma sub_nan_l x y : is_nan x = true -> is_nan (x - y)%float = true.
Proof.
  rewrite !is_nan_spec, sub_spec. intros ->. reflexivity.
Qed.

Lemma div_nan_l x y : is_nan x = true -> is_nan (x / y)%float = true.
Proof.
  rewrite !is_nan_spec, div_spec. intros ->. reflexivity.
Qed.

Lemma Math_min_nan_l x y : is_nan x = true -> is_nan (Math_min x y) = true.
Proof. intros H. unfold Math_min. rewrite H. reflexivity. Qed.

(** A coordinate that is [NaN] passes both wall tests. *)
Lemma clamp_nan (w v : float) :
  is_nan v = true ->
  (if (v <? 0)%float then 0%float else if (w <? v)%float then w else v) = v.
Proof.
  intros H. apply is_nan_eq in H. subst v.
  rewrite ltb_nan_l, ltb_nan_r. reflexivity.
Qed.

Section Frame.
Context `{M : MathLib}.

(** ** The walls hold after every frame *)

Lemma clamped_on_canvas (w v : float) :
  (0 <=? w)%float = true ->
  let v' := if (v <? 0)%float then 0%float else if (w <? v)%float then w else v in
  is_nan v' = false -> (0 <=? v')%float = true /\ (v' <=? w)%float = true.
Proof.
  intros Hw v' Hv'. apply clamp_between; [exact Hw |].
  destruct (is_nan v) eqn:E; [| reflexivity].
  unfold v' in Hv'. rewrite (clamp_nan w v E) in Hv'. congruence.
Qed.

(** X1: on a canvas whose width and height are not negative, [update] returns
    and leaves every particle on the canvas, walls included, in each
    coordinate that is a number: a particle is off the canvas after a frame
    only where its coordinate is [NaN]. The canvas itself is unchanged. *)
Theorem update_keeps_canvas (now : nat -> number) (deltaTime : number)
    (audioData : option (list number)) (s : t) :
  (0 <=? width s)%float = true -> (0 <=? height s)%float = true ->
  exists s',
    update now deltaTime audioData s = Some s'
    /\ width s' = width s /\ height s' = height s
    /\ forall i p, particles s' !! i = Some p ->
         (is_nan (Particle.x p) = false ->
            (0 <=? Particle.x p)%float = true /\ (Particle.x p <=? width s')%float = true)
         /\ (is_nan (Particle.y p) = false ->
            (0 <=? Particle.y p)%float = true /\ (Particle.y p <=? height s')%float = true).
Proof.
  intros Hw Hh.
  destruct (update_result now deltaTime audioData s) as (s' & Hu & He & Hl & _ & _ & _ & H).
  set (dt := Math_min (deltaTime / 1000)%float 0.016%float) in *.
  set (s1 := afterAudio audioData s) in *.
  assert (Hs1 : width s1 = width s /\ height s1 = height s)
    by (unfold s1, afterAudio; destruct audioData; split; reflexivity).
  destruct Hs1 as [Hw1 Hh1].
  assert (Hwh : width s' = width s /\ height s' = height s).
  { unfold env in He. injection He as Hw' Hh' _ _ _ _ _. rewrite Hw', Hh'. auto. }
  destruct Hwh as [Hw' Hh'].
  exists s'. split; [exact Hu |]. split; [exact Hw' |]. split; [exact Hh' |].
  intros i p Hp.
  destruct (lookup_lt_is_Some_2 (particles s) i) as [p0 Hp0].
  { rewrite <- Hl. apply lookup_lt_Some in Hp. exact Hp. }
  destruct (H i p0 Hp0) as (Hp' & _). rewrite Hp in Hp'. injection Hp' as ->.
  unfold moved.
  set (q := integrate s1 dt _ _ p0).
  destruct (handleBoundaries_x s1 q) as [-> _].
  destruct (handleBoundaries_y s1 q) as [-> _].
  rewrite Hw', Hh', Hw1, Hh1. split.
  - apply (clamped_on_canvas (width s) (Particle.x q) Hw).
  - apply (clamped_on_canvas (height s) (Particle.y q) Hh).
Qed.

(** ** [NaN] never leaves a particle *)

(** X2: a particle whose position or velocity is [NaN] in a coordinate keeps
    [NaN] there through every frame, and a frame whose [deltaTime] is [NaN]
    turns the position and the velocity of every particle into [NaN].
    [addForce] does not touch a particle whose position is [NaN]. *)
Theorem update_keeps_NaN (now : nat -> number) (deltaTime : number)
    (audioData : option (list number)) (s : t) (i : nat) (p : Particle.t) :
  particles s !! i = Some p ->
  exists s' p',
    update now deltaTime audioData s = Some s' /\ particles s' !! i = Some p'
    /\ (is_nan (Particle.vx p) = true \/ is_nan deltaTime = true ->
          is_nan (Particle.vx p') = true /\ is_nan (Particle.x p') = true)
    /\ (is_nan (Particle.vy p) = true \/ is_nan deltaTime = true ->
          is_nan (Particle.vy p') = true /\ is_nan (Particle.y p') = true)
    /\ (is_nan (Particle.x p) = true -> is_nan (Particle.x p') = true)
    /\ (is_nan (Particle.y p) = true -> is_nan (Particle.y p') = true)
    /\ (is_nan (Particle.x p) = true \/ is_nan (Particle.y p) = true ->
          forall x y strength, addForceTo x y strength p = p).
Proof.
  intros Hp.
  destruct (update_result now deltaTime audioData s) as (s' & Hu & _ & _ & _ & _ & _ & H).
  set (dt := Math_min (deltaTime / 1000)%float 0.016%float) in *.
  set (s1 := afterAudio audioData s) in *.
  destruct (H i p Hp) as (Hp' & _).
  exists s', (moved now dt s1 i p). split; [exact Hu |]. split; [exact Hp' |].
  unfold moved.
  set (fx := readback _ _ _). set (fy := readback _ _ _).
  set (q := integrate s1 dt fx fy p).
  assert (Hdt : is_nan deltaTime = true -> is_nan dt = true).
  { intros Hd. apply Math_min_nan_l, div_nan_l. exact Hd. }
  assert (Hqvx : is_nan (Particle.vx p) = true \/ is_nan deltaTime = true ->
                 is_nan (Particle.vx q) = true).
  { intros [Hv | Hd]; unfold q, integrate; cbn [Particle.vx Particle.set_vel];
      apply mul_nan_l; [apply add_nan_l; exact Hv | apply add_nan_r, mul_nan_r, Hdt, Hd]. }
  assert (Hqvy : is_nan (Particle.vy p) = true \/ is_nan deltaTime = true ->
                 is_nan (Particle.vy q) = true).
  { intros [Hv | Hd]; unfold q, integrate; cbn [Particle.vy Particle.set_vel];
      apply mul_nan_l; [apply add_nan_l; exact Hv | apply add_nan_r, mul_nan_r, Hdt, Hd]. }
  assert (Hqx : is_nan (Particle.x p) = true \/ is_nan (Particle.vx q) = true ->
                is_nan (Particle.x q) = true).
  { intros [Hx | Hv]; unfold q, integrate in *;
      cbn [Particle.x Particle.vx Particle.set_vel Particle.set_pos] in *;
      [apply add_nan_l; exact Hx | apply add_nan_r, mul_nan_l, mul_nan_l; exact Hv]. }
  assert (Hqy : is_nan (Particle.y p) = true \/ is_nan (Particle.vy q) = true ->
                is_nan (Particle.y q) = true).
  { intros [Hy | Hv]; unfold q, integrate in *;
      cbn [Particle.y Particle.vy Particle.set_vel Particle.set_pos] in *;
      [apply add_nan_l; exact Hy | apply add_nan_r, mul_nan_l, mul_nan_l; exact Hv]. }
  destruct (handleBoundaries_x s1 q) as [Hbx Hbvx].
  destruct (handleBoundaries_y s1 q) as [Hby Hbvy].
  assert (Hx' : is_nan (Particle.x q) = true ->
                is_nan (Particle.x (handleBoundaries s1 q)) = true
                /\ Particle.vx (handleBoundaries s1 q) = Particle.vx q).
  { intros Hn. rewrite Hbx, Hbvx, (clamp_nan _ _ Hn). split; [exact Hn |].
    apply is_nan_eq in Hn. rewrite Hn, ltb_nan_l, ltb_nan_r. reflexivity. }
  assert (Hy' : is_nan (Particle.y q) = true ->
                is_nan (Particle.y (handleBoundaries s1 q)) = true
                /\ Particle.vy (handleBoundaries s1 q) = Particle.vy q).
  { intros Hn. rewrite Hby, Hbvy, (clamp_nan _ _ Hn). split; [exact Hn |].
    apply is_nan_eq in Hn. rewrite Hn, ltb_nan_l, ltb_nan_r. reflexivity. }
  split; [| split; [| split; [| split]]].
  - intros Hv. pose proof (Hqvx Hv) as Hvq.
    destruct (Hx' (Hqx (or_intror Hvq))) as [Hx Hvx]. rewrite Hvx. auto.
  - intros Hv. pose proof (Hqvy Hv) as Hvq.
    destruct (Hy' (Hqy (or_intror Hvq))) as [Hy Hvy]. rewrite Hvy. auto.
  - intros Hx. apply Hx', Hqx. left. exact Hx.
  - intros Hy. apply Hy', Hqy. left. exact Hy.
  - intros Hxy x y strength. unfold addForceTo.
    assert (Hd : is_nan ((Particle.x p - x) * (Particle.x p - x)
                         + (Particle.y p - y) * (Particle.y p - y))%float = true).
    { destruct Hxy as [Hx | Hy].
      - apply add_nan_l, mul_nan_l, sub_nan_l. exact Hx.
      - apply add_nan_r, mul_nan_l, sub_nan_l. exact Hy. }
    apply is_nan_eq in Hd. rewrite Hd, ltb_nan_l. reflexivity.
Qed.


(** ** The spatial hash of a frame *)

Lemma foldl_ext_in {A B : Type} (f g : A -> B -> A) (l : list B) (a : A) :
  (forall a x, x ∈ l -> f a x = g a x) -> foldl f a l = foldl g a l.
Proof.
  revert a. induction l as [|x l IH]; intros a H; [reflexivity |].
  simpl. rewrite (H a x) by (left; reflexivity). apply IH.
  intros a' y Hy. apply H. right. exact Hy.
Qed.

(** A loop over the elements of an array with their indices, as a loop
    over the indices. *)
Lemma foldl_imap_pair {A B : Type} (f : A -> nat * B -> A) (l : list B) (a : A) :
  foldl f a (imap pair l)
  = foldl (fun a j => match l !! j with Some x => f a (j, x) | None => a end)
          a (seq 0 (length l)).
Proof.
  induction l as [|x l IH] using rev_ind; [reflexivity |].
  rewrite imap_app, length_app, Nat.add_comm. cbn [length Nat.add imap].
  rewrite seq_S, !foldl_app, IH. cbn [foldl Nat.add].
  rewrite Nat.add_0_r, lookup_app_r, Nat.sub_diag by lia. cbn [lookup list_lookup].
  f_equal. apply foldl_ext_in. intros a' j Hj.
  apply elem_of_seq in Hj. rewrite lookup_app_l by lia. reflexivity.
Qed.

(** The key [calculateSpatialHash] and [updateSpatialHash] file a particle
    under, for cells of size [cellSize]. *)
Definition keyOf (cellSize : number) (p : Particle.t) : key :=
  (ToString (Math_floor (Particle.x p / cellSize)%float),
   ToString (Math_floor (Particle.y p / cellSize)%float)).

(** The worker's hash, built index by index. *)
Lemma calculateSpatialHash_seq (ps : list Particle.t) (cellSize : number) :
  WorkerPool.calculateSpatialHash ps cellSize
  = foldl (fun h j => match ps !! j with
                      | Some p => hashInsert (keyOf cellSize p) j h
                      | None => h
                      end)
          [] (seq 0 (length ps)).
Proof. unfold WorkerPool.calculateSpatialHash. rewrite foldl_imap_pair. reflexivity. Qed.

(** Whether particle [i] of [ps] lies in the cell [k]. *)
Definition inCell (cellSize : number) (ps : list Particle.t) (k : key) (i : nat) : bool :=
  match ps !! i with
  | Some p => key_eqb (keyOf cellSize p) k
  | None => false
  end.

(** What a lookup in the hash finds: the indices of the particles of the
    cell, in increasing order, and nothing for a cell without particles. *)
Definition cellOf (cellSize : number) (ps : list Particle.t) (k : key) : option (list nat) :=
  match filter (fun i => inCell cellSize ps k i = true) (seq 0 (length ps)) with
  | [] => None
  | l => Some l
  end.

Lemma hash_get_cells (ps : list Particle.t) (cellSize : number) (k : key) (m : nat) :
  hash_get k (foldl (fun h j => match ps !! j with
                                | Some p => hashInsert (keyOf cellSize p) j h
                                | None => h
                                end)
                    [] (seq 0 m))
  = match filter (fun i => inCell cellSize ps k i = true) (seq 0 m) with
    | [] => None
    | l => Some l
    end.
Proof.
  induction m as [|m IH]; [reflexivity |].
  rewrite seq_S, foldl_app, filter_app. cbn [foldl Nat.add].
  set (h := foldl _ [] (seq 0 m)) in *.
  set (l := filter _ (seq 0 m)) in *.
  rewrite filter_cons, filter_nil.
  assert (Hc : inCell cellSize ps k m
               = match ps !! m with
                 | Some p => key_eqb (keyOf cellSize p) k
                 | None => false
                 end) by reflexivity.
  destruct (ps !! m) as [p|].
  - rewrite hash_get_insert, IH.
    destruct (key_eqb (keyOf cellSize p) k) eqn:E.
    + destruct (decide (inCell cellSize ps k m = true)) as [_ | Hd]; [| congruence].
      destruct l; reflexivity.
    + destruct (decide (inCell cellSize ps k m = true)) as [Hd | _]; [congruence |].
      rewrite app_nil_r. reflexivity.
  - destruct (decide (inCell cellSize ps k m = true)) as [Hd | _]; [congruence |].
    rewrite app_nil_r. exact IH.
Qed.

(** The hash the worker computes answers every lookup with the cell's
    particles. *)
Lemma calculateSpatialHash_cells (ps : list Particle.t) (cellSize : number) (k : key) :
  hash_get k (WorkerPool.calculateSpatialHash ps cellSize) = cellOf cellSize ps k.
Proof. rewrite calculateSpatialHash_seq. apply hash_get_cells. Qed.

(** The hash a frame leaves behind is the one the worker's
    [calculateSpatialHash] computes from the particles the frame ends
    with. *)
Lemma update_hash (now : nat -> number) (deltaTime : number)
    (audioData : option (list number)) (s : t) :
  useSpatialHashing s = true ->
  exists s',
    update now deltaTime audioData s = Some s'
    /\ cellSize s' = cellSize s
    /\ spatialHash s' = WorkerPool.calculateSpatialHash (particles s') (cellSize s').
Proof.
  intros Hus.
  destruct (update_inv now deltaTime audioData s) as (s3 & Hu & Hinv).
  set (dt := Math_min (deltaTime / 1000)%float 0.016%float) in *.
  fold (afterAudio audioData s) in Hinv. set (s1 := afterAudio audioData s) in *.
  assert (Hs1 : useSpatialHashing s1 = true /\ cellSize s1 = cellSize s
                /\ particles s1 = particles s)
    by (unfold s1, afterAudio; destruct audioData; repeat split; assumption).
  destruct Hs1 as (Hus1 & Hcs1 & Hp1). rewrite Hus1 in Hinv.
  set (s2 := set_spatialHash s1 []) in *.
  destruct Hinv as [Henv _ (Hlp & _) Hparts _ _ Hhash].
  change (useSpatialHashing s2) with (useSpatialHashing s1) in Hhash. rewrite Hus1 in Hhash.
  change (particles s2) with (particles s1) in Hlp, Hparts. rewrite Hp1 in Hlp, Hparts.
  assert (Hcs3 : cellSize s3 = cellSize s).
  { unfold env in Henv. injection Henv as _ _ _ _ _ Hc _. rewrite Hc. exact Hcs1. }
  exists (updateVelocityField dt s3). split; [exact Hu |].
  change (cellSize (updateVelocityField dt s3)) with (cellSize s3).
  change (spatialHash (updateVelocityField dt s3)) with (spatialHash s3).
  change (particles (updateVelocityField dt s3)) with (particles s3).
  split; [exact Hcs3 |].
  rewrite Hhash, calculateSpatialHash_seq, Hlp. unfold hashAfter.
  change (spatialHash s2) with (@nil (key * list nat)).
  change (particles s2) with (particles s1). rewrite Hp1.
  apply foldl_ext_in. intros h j Hj. apply elem_of_seq in Hj.
  rewrite Hparts. destruct (particles s !! j) as [p|]; [| reflexivity].
  cbn [fmap option_fmap option_map].
  destruct (Nat.ltb_spec j (length (particles s))); [| lia].
  unfold cellKey, keyOf. change (cellSize s2) with (cellSize s1).
  rewrite Hcs3, Hcs1. reflexivity.
Qed.

(** X3: after a frame with spatial hashing on, the engine's hash equals what
    the worker's [calculateSpatialHash] computes from the same particles
    and cell size. *)
Theorem update_hash_agrees_with_worker (now : nat -> number) (deltaTime : number)
    (audioData : option (list number)) (s : t) :
  useSpatialHashing s = true ->
  exists s',
    update now deltaTime audioData s = Some s'
    /\ spatialHash s' = WorkerPool.calculateSpatialHash (particles s') (cellSize s').
Proof.
  intros Hus. destruct (update_hash now deltaTime audioData s Hus) as (s' & Hu & _ & Hh).
  exists s'. auto.
Qed.

(** X4: after a frame with spatial hashing on, looking a cell up in the hash
    gives exactly the indices of the particles that ended the frame in that
    cell, in increasing order; a cell without particles has no entry. So
    every particle is listed once, under the cell of its final position. *)
Theorem update_hash_cells (now : nat -> number) (deltaTime : number)
    (audioData : option (list number)) (s : t) :
  useSpatialHashing s = true ->
  exists s',
    update now deltaTime audioData s = Some s'
    /\ (forall k, hash_get k (spatialHash s') = cellOf (cellSize s') (particles s') k)
    /\ (forall i p, particles s' !! i = Some p ->
          forall k, (exists l, hash_get k (spatialHash s') = Some l /\ i ∈ l)
                    <-> k = cellKey s' p).
Proof.
  intros Hus. destruct (update_hash now deltaTime audioData s Hus) as (s' & Hu & _ & Hh).
  exists s'. split; [exact Hu |].
  assert (Hget : forall k, hash_get k (spatialHash s') = cellOf (cellSize s') (particles s') k)
    by (intros k; rewrite Hh; apply calculateSpatialHash_cells).
  split; [exact Hget |].
  intros i p Hp k. rewrite Hget. unfold cellOf.
  assert (Hmem : forall j, j ∈ filter (fun i => inCell (cellSize s') (particles s') k i = true)
                                (seq 0 (length (particles s')))
                           <-> j < length (particles s')
                               /\ inCell (cellSize s') (particles s') k j = true).
  { intros j. rewrite list_elem_of_filter, elem_of_seq. split; intros [? ?]; split; auto; lia. }
  assert (Hcell : inCell (cellSize s') (particles s') k i = true <-> k = cellKey s' p).
  { unfold inCell. rewrite Hp. change (keyOf (cellSize s') p) with (cellKey s' p).
    rewrite key_eqb_eq. split; congruence. }
  pose proof (Hmem i) as Hmi. clear Hmem.
  destruct (filter _ _) as [|j0 l0].
  - split; [intros (l & Hl & _); discriminate |].
    intros Hk. exfalso. eapply elem_of_nil. apply Hmi.
    split; [apply lookup_lt_Some in Hp; exact Hp | apply Hcell, Hk].
  - split.
    + intros (l & Hl & Hi). injection Hl as <-. apply Hcell, Hmi, Hi.
    + intros Hk. eexists. split; [reflexivity |]. apply Hmi.
      split; [apply lookup_lt_Some in Hp; exact Hp | apply Hcell, Hk].
Qed.

End Frame.

End FrameFacts.

(** ** The frame properties on a sample canvas *)

Module FrameExamples.
Import JS FluidSimulation SimulationFacts FrameFacts.
Local Open Scope nat_scope.

(** A particle about to cross the right wall of the 800 by 600 canvas. *)
Definition runaway : Particle.t :=
  Particle.mk 799%float 300%float 500%float 0%float 1%float 0%float 1%float.

(** A particle whose horizontal position is lost. *)
Definition lost : Particle.t :=
  Particle.mk nan 300%float 1%float 0%float 1%float 0%float 1%float.

Lemma update_keeps_canvas_witness :
  exists s',
    update (M := SimulationExamples.sampleMath) (fun _ => 0%float) 16%float None
           (canvas [runaway]) = Some s'
    /\ width s' = 800%float /\ height s' = 600%float
    /\ forall i p, particles s' !! i = Some p ->
         (is_nan (Particle.x p) = false ->
            (0 <=? Particle.x p)%float = true /\ (Particle.x p <=? width s')%float = true)
         /\ (is_nan (Particle.y p) = false ->
            (0 <=? Particle.y p)%float = true /\ (Particle.y p <=? height s')%float = true).
Proof.
  apply (update_keeps_canvas (M := SimulationExamples.sampleMath)
           (fun _ => 0%float) 16%float None (canvas [runaway])); reflexivity.
Defined.

Lemma update_keeps_NaN_witness :
  exists s' p',
    update (M := SimulationExamples.sampleMath) (fun _ => 0%float) 16%float None
           (canvas [lost]) = Some s'
    /\ particles s' !! 0 = Some p'
    /\ is_nan (Particle.x p') = true
    /\ addForceTo 100%float 300%float 1%float lost = lost.
Proof.
  destruct (update_keeps_NaN (M := SimulationExamples.sampleMath)
              (fun _ => 0%float) 16%float None (canvas [lost]) 0 lost eq_refl)
    as (s' & p' & Hu & Hp & _ & _ & Hx & _ & Hadd).
  exists s', p'. split; [exact Hu |]. split; [exact Hp |].
  split; [apply Hx; reflexivity | apply Hadd; left; reflexivity].
Defined.

Lemma update_hash_agrees_with_worker_witness :
  exists s',
    update (M := SimulationExamples.sampleMath) (fun _ => 0%float) 16%float None
           (canvas [runaway; lost]) = Some s'
    /\ spatialHash s' = WorkerPool.calculateSpatialHash (particles s') (cellSize s').
Proof.
  apply (update_hash_agrees_with_worker (M := SimulationExamples.sampleMath)
           (fun _ => 0%float) 16%float None (canvas [runaway; lost])). reflexivity.
Defined.

Lemma update_hash_cells_witness :
  exists s',
    update (M := SimulationExamples.sampleMath) (fun _ => 0%float) 16%float None
           (canvas [runaway; runaway]) = Some s'
    /\ hash_get (40%float, 15%float) (spatialHash s') = Some [0; 1].
Proof.
  destruct (update_hash_cells (M := SimulationExamples.sampleMath)
              (fun _ => 0%float) 16%float None (canvas [runaway; runaway]) eq_refl)
    as (s' & Hu & Hget & _).
  exists s'. split; [exact Hu |]. rewrite Hget.
  match type of Hu with
  | _ = Some ?s =>
      assert (Hs : update (M := SimulationExamples.sampleMath) (fun _ => 0%float) 16%float None
                     (canvas [runaway; runaway]) = Some s) by exact Hu
  end.
  vm_compute in Hs. injection Hs as <-. vm_compute. reflexivity.
Defined.

End FrameExamples.

(** * Further properties of the quality controller *)

Module ControllerFacts.
Import JS OptimizationManager QualityFacts.
Local Open Scope nat_scope.

(** ** Tier changes and their events *)

(** What a step along the ladder does: nothing at its end, and otherwise
    it moves the tier, installs the preset of the new tier and dispatches
    one [qualityChanged] event that carries both. *)
Lemma stepAlong_effect (f : t -> t) (next : QualityLevel -> QualityLevel) (s : t) :
  (f = decreaseQuality /\ next = down) \/ (f = increaseQuality /\ next = up) ->
  (next (currentQualityLevel s) = currentQualityLevel s /\ f s = s)
  \/ (next (currentQualityLevel s) <> currentQualityLevel s
      /\ f s = applyQualitySettings (next (currentQualityLevel s))
                 (set_currentQualityLevel s (next (currentQualityLevel s)))).
Proof.
  intros [[-> ->] | [-> ->]]; unfold decreaseQuality, increaseQuality, stepAlong;
    destruct (currentQualityLevel s) eqn:E; simpl;
    first [left; split; reflexivity | right; split; [discriminate | reflexivity]].
Qed.

(** The three outcomes of [adjustQuality]. *)
Lemma adjustQuality_cases (currentFPS targetFPS : number) (s : t) :
  let s' := adjustQuality currentFPS targetFPS s in
  exists s1,
    (s1 = s \/ s1 = set_performanceHistory s (pushed currentFPS s))
    /\ (s' = s1 \/ s' = decreaseQuality s1 \/ s' = increaseQuality s1).
Proof.
  intros s'. unfold s', adjustQuality.
  destruct (adaptiveQuality s); cbn [negb]; [| exists s; auto].
  fold (pushed currentFPS s).
  exists (set_performanceHistory s (pushed currentFPS s)). split; [auto |].
  destruct (_ <? _)%float; [auto |].
  destruct (_ && _); auto.
Qed.

(** X5: [adjustQuality] dispatches a [qualityChanged] event exactly when it
    changes the tier, and then exactly one: the event carries the new tier
    and its preset, and the preset becomes the controller's settings. When
    the tier stays, no event is dispatched and the settings stay. *)
Theorem adjustQuality_events (currentFPS targetFPS : number) (s : t) :
  let s' := adjustQuality currentFPS targetFPS s in
  (currentQualityLevel s' = currentQualityLevel s ->
     events s' = events s /\ qualitySettings s' = qualitySettings s)
  /\ (currentQualityLevel s' <> currentQualityLevel s ->
     events s' = events s ++ [(currentQualityLevel s', settings (currentQualityLevel s'))]
     /\ qualitySettings s' = settings (currentQualityLevel s')).
Proof.
  intros s'.
  destruct (adjustQuality_cases currentFPS targetFPS s) as (s1 & Hs1 & Hs').
  fold s' in Hs'.
  assert (H1 : currentQualityLevel s1 = currentQualityLevel s /\ events s1 = events s
               /\ qualitySettings s1 = qualitySettings s)
    by (destruct Hs1 as [-> | ->]; repeat split; reflexivity).
  destruct H1 as (Hl & He & Hq).
  assert (Hstep : forall f next,
            (f = decreaseQuality /\ next = down) \/ (f = increaseQuality /\ next = up) ->
            s' = f s1 ->
            (currentQualityLevel s' = currentQualityLevel s ->
               events s' = events s /\ qualitySettings s' = qualitySettings s)
            /\ (currentQualityLevel s' <> currentQualityLevel s ->
               events s' = events s ++ [(currentQualityLevel s', settings (currentQualityLevel s'))]
               /\ qualitySettings s' = settings (currentQualityLevel s'))).
  { intros f next Hf ->.
    destruct (stepAlong_effect f next s1 Hf) as [[_ ->] | [Hne ->]].
    - rewrite Hl, He, Hq. split; [auto | intros H; contradiction H; reflexivity].
    - cbn [applyQualitySettings set_currentQualityLevel currentQualityLevel events
           qualitySettings]. rewrite <- Hl, He. split; [intros H; contradiction | auto]. }
  destruct Hs' as [-> | [H | H]].
  - rewrite Hl, He, Hq. split; [auto | intros H; contradiction H; reflexivity].
  - apply (Hstep decreaseQuality down); auto.
  - apply (Hstep increaseQuality up); auto.
Qed.

(** The states the frame loop and the adaptive-quality switch drive the
    controller through. *)
Inductive driven : t -> Prop :=
| driven_new : driven new
| driven_adjustQuality currentFPS targetFPS s :
    driven s -> driven (adjustQuality currentFPS targetFPS s)
| driven_decreaseQuality s : driven s -> driven (decreaseQuality s)
| driven_increaseQuality s : driven s -> driven (increaseQuality s)
| driven_setAdaptiveQuality b s : driven s -> driven (setAdaptiveQuality b s)
| driven_optimizeMemoryUsage s : driven s -> driven (optimizeMemoryUsage s).

(** Settings and tier agree once the tier has moved. *)
Definition consistent (s : t) : Prop :=
  (events s = [] /\ currentQualityLevel s = medium
   /\ qualitySettings s = mkQualitySettings 1000 1%float true true true)
  \/ (last (events s) = Some (currentQualityLevel s, settings (currentQualityLevel s))
      /\ qualitySettings s = settings (currentQualityLevel s)).

Lemma consistent_step (f : t -> t) (next : QualityLevel -> QualityLevel) (s : t) :
  (f = decreaseQuality /\ next = down) \/ (f = increaseQuality /\ next = up) ->
  consistent s -> consistent (f s).
Proof.
  intros Hf Hc. destruct (stepAlong_effect f next s Hf) as [[_ ->] | [_ ->]]; [exact Hc |].
  right. cbn [applyQualitySettings set_currentQualityLevel currentQualityLevel events
              qualitySettings]. rewrite last_snoc. auto.
Qed.

(** X6: a controller starts at the tier Medium with settings that are not the
    Medium preset (1000 particles at resolution 1, against 800 at 0.75) and
    keeps them until the tier first moves; from then on its settings are
    the preset of its tier, and the last [qualityChanged] event announced
    that tier with that preset. *)
Theorem driven_consistent (s : t) :
  driven s ->
  consistent s /\ qualitySettings new <> settings (currentQualityLevel new).
Proof.
  intros Hd. split; [| discriminate].
  induction Hd as [| fps tgt s _ IH | s _ IH | s _ IH | b s _ IH | s _ IH].
  - left. repeat split; reflexivity.
  - destruct (adjustQuality_cases fps tgt s) as (s1 & Hs1 & Hs').
    assert (H1 : consistent s1) by (destruct Hs1 as [-> | ->]; exact IH).
    destruct Hs' as [-> | [-> | ->]]; [exact H1 | |].
    + apply (consistent_step decreaseQuality down); auto.
    + apply (consistent_step increaseQuality up); auto.
  - apply (consistent_step decreaseQuality down); auto.
  - apply (consistent_step increaseQuality up); auto.
  - exact IH.
  - unfold optimizeMemoryUsage. destruct (Nat.ltb _ _); exact IH.
Qed.

(** ** The memory optimisation *)

(** X7: [adjustQuality] keeps the window at 60 samples or fewer, and
    [optimizeMemoryUsage] trims it only when it is longer than that: on
    every controller the methods can produce, [optimizeMemoryUsage] changes
    nothing. *)
Theorem optimizeMemoryUsage_never_trims (s : t) :
  reachable s -> optimizeMemoryUsage s = s.
Proof.
  intros Hr. destruct (reachable_steady s Hr) as (Hm & _ & _ & Hl).
  unfold optimizeMemoryUsage. rewrite Hm.
  destruct (Nat.ltb_spec 60 (length (performanceHistory s))); [lia | reflexivity].
Qed.

End ControllerFacts.

(** ** Properties of the frame loop *)

Module AppFacts.
Import JS OptimizationManager QualityFacts.
Local Open Scope nat_scope.

(** *** Device classes *)

(** X8: every mobile device is classed as low-end, so the canvas limit of
    1920 by 1080 that [getOptimalCanvasSize] keeps for mobile devices is
    never applied: the size is limited to 1280 by 720 on a low-end device
    and not at all on any other. *)
Theorem mobile_limit_never_applies (page : DeviceCapabilities.Page)
    (innerWidth innerHeight : number) (s : OptimizationManager.t) :
  let caps := DeviceCapabilities.detectDeviceCapabilities page in
  let r := resolution (qualitySettings s) in
  (DeviceCapabilities.isMobile caps = true -> DeviceCapabilities.isLowEnd caps = true)
  /\ DeviceCapabilities.getOptimalCanvasSize caps innerWidth innerHeight s
     = if DeviceCapabilities.isLowEnd caps
       then (Math_floor (Math_min innerWidth 1280 * r)%float,
             Math_floor (Math_min innerHeight 720 * r)%float)
       else (Math_floor (innerWidth * r)%float, Math_floor (innerHeight * r)%float).
Proof.
  intros caps r.
  assert (H : DeviceCapabilities.isMobile caps = true ->
              DeviceCapabilities.isLowEnd caps = true).
  { unfold caps, DeviceCapabilities.detectDeviceCapabilities.
    cbn [DeviceCapabilities.isMobile DeviceCapabilities.isLowEnd].
    intros ->. apply orb_true_r. }
  split; [exact H |].
  unfold DeviceCapabilities.getOptimalCanvasSize. fold r.
  destruct (DeviceCapabilities.isLowEnd caps) eqn:El; [reflexivity |].
  destruct (DeviceCapabilities.isMobile caps) eqn:Em; [| reflexivity].
  specialize (H eq_refl). discriminate.
Qed.

(** *** The simulation the application builds *)



(** *** A frame and the simulation *)

Section Frames.
Context `{M : MathLib}.

(** The simulation half of a frame that is due. *)
Lemma renderLoop_due (now : nat -> number) (currentTime : number)
    (audioData : list number) (a : App.t) (sim : FluidSimulation.t) :
  App.isRunning a = true -> App.fluidSim a = Some sim ->
  (App.frameInterval a <=? currentTime - App.lastFrameTime a)%float = true ->
  exists sim',
    FluidSimulation.update now (currentTime - App.lastFrameTime a)%float (Some audioData) sim
      = Some sim'
    /\ App.renderLoop now currentTime audioData a
       = Some (App.mk
                 (PerformanceMonitor.recordFrame currentTime (App.performanceMonitor a))
                 (if adaptiveQuality (App.optimizationManager a)
                  then adjustQuality (PerformanceMonitor.fps (App.performanceMonitor a))
                         (App.targetFPS a) (App.optimizationManager a)
                  else App.optimizationManager a)
                 (App.workerPool a) (Some sim') true
                 (currentTime
                  - rem (currentTime - App.lastFrameTime a) (App.frameInterval a))%float
                 (App.targetFPS a) (App.frameInterval a)).
Proof.
  intros Hr Hs Hdue.
  destruct (SimulationFacts.update_result now (currentTime - App.lastFrameTime a)%float
              (Some audioData) sim) as (sim' & Hu & _).
  exists sim'. split; [exact Hu |].
  unfold App.renderLoop, App.update. rewrite Hr, Hdue, Hs. cbn [negb mbind option_bind].
  rewrite Hu.
  cbn [mbind option_bind App.isRunning App.performanceMonitor App.optimizationManager
       App.workerPool App.fluidSim App.targetFPS App.frameInterval App.lastFrameTime].
  reflexivity.
Qed.

(** X10: whatever the controller decides in a frame, the simulation is not
    resized: [renderLoop] returns, and the simulation keeps its
    parameters, its particle count among them, and its number of
    particles, also in a frame that changes the tier and the controller's
    [particles] setting. *)
Theorem renderLoop_keeps_simulation_size (now : nat -> number) (currentTime : number)
    (audioData : list number) (a : App.t) (sim : FluidSimulation.t) :
  App.fluidSim a = Some sim ->
  exists a' sim',
    App.renderLoop now currentTime audioData a = Some a'
    /\ App.fluidSim a' = Some sim'
    /\ FluidSimulation.params sim' = FluidSimulation.params sim
    /\ length (FluidSimulation.particles sim') = length (FluidSimulation.particles sim).
Proof.
  intros Hs. unfold App.renderLoop.
  destruct (App.isRunning a) eqn:Hr; cbn [negb]; [| exists a, sim; auto].
  destruct (_ <=? _)%float eqn:Hdue; [| exists a, sim; auto].
  destruct (SimulationFacts.update_result now (currentTime - App.lastFrameTime a)%float
              (Some audioData) sim) as (sim' & Hu & He & Hl & _).
  unfold App.update. rewrite Hs. cbn [mbind option_bind]. rewrite Hu. cbn [mbind option_bind].
  eexists _, sim'. split; [reflexivity |]. split; [reflexivity |]. split; [| exact Hl].
  unfold SimulationFacts.env in He. injection He as _ _ Hp _ _ _ _. exact Hp.
Qed.

(** *** The first second *)

Lemma sum_zeros (l : list number) :
  Forall (fun x => x = 0%float) l -> foldl (fun a b => (a + b)%float) 0%float l = 0%float.
Proof.
  induction 1 as [|x l -> _ IH]; [reflexivity |]. simpl. exact IH.
Qed.

(** A window of zeros averages below the minimum of 45 FPS. *)
Lemma average_zeros (l : list number) :
  Forall (fun x => x = 0%float) l -> 1 <= length l <= 60 ->
  (average l <? 45)%float = true.
Proof.
  intros Hz Hl. unfold average. rewrite (sum_zeros l Hz).
  assert (H : forallb (fun n => (0 / of_nat n <? 45)%float) (seq 1 60) = true)
    by (vm_compute; reflexivity).
  rewrite forallb_forall in H. apply H. apply in_seq. lia.
Qed.

(** What checking the thresholds leaves as it is: everything but the
    list of calls. *)
Definition sameReadings (m' m : PerformanceMonitor.t) : Prop :=
  PerformanceMonitor.fps m' = PerformanceMonitor.fps m
  /\ PerformanceMonitor.lastTime m' = PerformanceMonitor.lastTime m
  /\ PerformanceMonitor.isRunning m' = PerformanceMonitor.isRunning m
  /\ PerformanceMonitor.frameCount m' = PerformanceMonitor.frameCount m
  /\ PerformanceMonitor.frameTimes m' = PerformanceMonitor.frameTimes m.

Lemma sameReadings_refl m : sameReadings m m.
Proof. repeat split; reflexivity. Qed.

Lemma sameReadings_trigger c data m' m :
  sameReadings m' m -> sameReadings (PerformanceMonitor.triggerCallback c data m') m.
Proof.
  intros H. unfold PerformanceMonitor.triggerCallback.
  destruct (PerformanceMonitor.registered c m'); exact H.
Qed.

Lemma checkPerformanceThresholds_keeps (m : PerformanceMonitor.t) :
  sameReadings (PerformanceMonitor.checkPerformanceThresholds m) m.
Proof.
  unfold PerformanceMonitor.checkPerformanceThresholds.
  match goal with |- context [PerformanceMonitor.gpuMemory ?x] => set (m1 := x) end.
  assert (H1 : sameReadings m1 m).
  { unfold m1.
    destruct (PerformanceMonitor.criticalFrameTime _ <? _)%float;
      [apply sameReadings_trigger, sameReadings_refl |].
    destruct (PerformanceMonitor.maxFrameTime _ <? _)%float;
      [apply sameReadings_trigger |]; apply sameReadings_refl. }
  clearbody m1.
  destruct (PerformanceMonitor.memoryCritical _ <? _)%float;
    [apply sameReadings_trigger; exact H1 |].
  destruct (PerformanceMonitor.memoryWarning _ <? _)%float;
    [apply sameReadings_trigger |]; exact H1.
Qed.

(** The monitor between two measurements of the frame rate. *)
Lemma recordFrame_early (currentTime : number) (m : PerformanceMonitor.t) :
  PerformanceMonitor.isRunning m = true ->
  (1000 <=? currentTime - PerformanceMonitor.lastTime m)%float = false ->
  let m' := PerformanceMonitor.recordFrame currentTime m in
  PerformanceMonitor.fps m' = PerformanceMonitor.fps m
  /\ PerformanceMonitor.lastTime m' = PerformanceMonitor.lastTime m
  /\ PerformanceMonitor.isRunning m' = true
  /\ PerformanceMonitor.frameCount m' = S (PerformanceMonitor.frameCount m).
Proof.
  intros Hr Hd. cbv zeta. unfold PerformanceMonitor.recordFrame. rewrite Hr, Hd. cbn [negb].
  match goal with
  | |- context [PerformanceMonitor.checkPerformanceThresholds ?x] =>
      destruct (checkPerformanceThresholds_keeps x) as (-> & -> & -> & -> & _)
  end.
  repeat split; reflexivity.
Qed.

(** An application in its first second: the loop and the monitor run, no
    frame rate has been measured yet, adaptive quality is on and the
    controller's window holds zeros only. *)
Definition warmingUp (a : App.t) : Prop :=
  App.isRunning a = true
  /\ is_Some (App.fluidSim a)
  /\ PerformanceMonitor.isRunning (App.performanceMonitor a) = true
  /\ PerformanceMonitor.fps (App.performanceMonitor a) = 0%float
  /\ adaptiveQuality (App.optimizationManager a) = true
  /\ maxHistoryLength (App.optimizationManager a) = 60
  /\ fpsMin (optimizationThresholds (App.optimizationManager a)) = 45%float
  /\ length (performanceHistory (App.optimizationManager a)) <= 60
  /\ Forall (fun x => x = 0%float) (performanceHistory (App.optimizationManager a)).

(** A new application is in that state once its components are
    initialized and its loop is started. *)
Lemma warmingUp_start (rnd : nat -> number) (canvasWidth canvasHeight : number)
    (caps : DeviceCapabilities.t) (now : number) (baseLatency : option number)
    (cores : option nat) (a : App.t) :
  App.initializeComponents rnd canvasWidth canvasHeight caps now baseLatency (App.new cores)
    = Some a ->
  warmingUp (App.startRenderLoop a)
  /\ currentQualityLevel (App.optimizationManager (App.startRenderLoop a)) = medium
  /\ PerformanceMonitor.lastTime (App.performanceMonitor (App.startRenderLoop a)) = now.
Proof.
  unfold App.initializeComponents. intros H.
  destruct (FluidSimulation.new _ _ _ _) as [sim|]; [| discriminate].
  cbn [mbind option_bind] in H. injection H as <-.
  unfold warmingUp. cbn. repeat split; eauto; lia.
Qed.

(** X11: until the monitor has measured a frame rate, which takes a second,
    [getCurrentFPS] returns 0 and every frame feeds that 0 to the
    controller: each frame rendered in the first second lowers the tier by
    one step (a new application falls from Medium to Low in its first
    frame), and the application is still in its first-second state
    afterwards. *)
Theorem renderLoop_startup (now : nat -> number) (currentTime : number)
    (audioData : list number) (a : App.t) :
  warmingUp a ->
  (App.frameInterval a <=? currentTime - App.lastFrameTime a)%float = true ->
  (1000 <=? currentTime - PerformanceMonitor.lastTime (App.performanceMonitor a))%float
    = false ->
  exists a',
    App.renderLoop now currentTime audioData a = Some a'
    /\ currentQualityLevel (App.optimizationManager a')
       = down (currentQualityLevel (App.optimizationManager a))
    /\ PerformanceMonitor.lastTime (App.performanceMonitor a')
       = PerformanceMonitor.lastTime (App.performanceMonitor a)
    /\ warmingUp a'.
Proof.
  intros (Hr & [sim Hs] & Hmr & Hfps & Ha & Hm & Hmin & Hl & Hz) Hdue Hearly.
  destruct (renderLoop_due now currentTime audioData a sim Hr Hs Hdue) as (sim' & _ & ->).
  rewrite Ha, Hfps.
  set (c := App.optimizationManager a) in *.
  destruct (adjustQuality_on 0%float (App.targetFPS a) c Ha) as (Hh & Hm' & Ht & Ha' & Hq).
  destruct (pushed_length 0%float c Hm Hl) as [Hpl Hpd].
  assert (Hpz : Forall (fun x => x = 0%float) (pushed 0%float c)).
  { rewrite Hpd. apply Forall_drop. apply Forall_app. split; [exact Hz |].
    constructor; [reflexivity | constructor]. }
  assert (Hp1 : 1 <= length (pushed 0%float c)).
  { rewrite Hpd, length_drop, length_app. simpl. lia. }
  rewrite Hmin, (average_zeros _ Hpz (conj Hp1 Hpl)) in Hq.
  destruct (recordFrame_early currentTime (App.performanceMonitor a) Hmr Hearly)
    as (Hf' & Hlt' & Hr' & _).
  eexists. split; [reflexivity |]. cbn [App.optimizationManager App.performanceMonitor].
  split; [exact Hq |]. split; [exact Hlt' |].
  unfold warmingUp.
  cbn [App.isRunning App.fluidSim App.performanceMonitor App.optimizationManager].
  rewrite Hf', Hfps, Hh, Hm', Ht, Hm, Hmin.
  repeat split; eauto.
Qed.

End Frames.

End AppFacts.

(** ** The controller and the frame loop at work *)

Module AppExamples.
Import JS OptimizationManager QualityFacts ControllerFacts AppFacts.
Local Open Scope nat_scope.

(** Three slow frames in a row: the controller is at Low, its settings
    are the preset of Low, and the last event announced it. *)
Lemma driven_consistent_witness :
  let s := adjustQuality 20%float 60%float
             (adjustQuality 20%float 60%float (adjustQuality 20%float 60%float new)) in
  currentQualityLevel s = low
  /\ consistent s
  /\ qualitySettings s = settings low.
Proof.
  intros s.
  destruct (driven_consistent s) as [Hc _].
  { unfold s. repeat apply driven_adjustQuality. apply driven_new. }
  split; [reflexivity |]. split; [exact Hc | reflexivity].
Defined.

Lemma optimizeMemoryUsage_never_trims_witness :
  optimizeMemoryUsage (adjustQuality 20%float 60%float new) = adjustQuality 20%float 60%float new.
Proof.
  apply optimizeMemoryUsage_never_trims. apply reach_adjustQuality, reach_new.
Defined.

(** A desktop with eight cores and a phone. *)
Definition desktop : DeviceCapabilities.t :=
  DeviceCapabilities.detectDeviceCapabilities
    (DeviceCapabilities.mkPage (Some 8%float) (Some 8%float) true true
       16384%float 16384%float false).




(** An application sixteen milliseconds after its monitor was started at
    time 5000, with one particle on the sample canvas. *)
Definition started : App.t :=
  App.mk (PerformanceMonitor.start 5000%float None PerformanceMonitor.new)
         OptimizationManager.new (WorkerPool.new 4)
         (Some (SimulationFacts.canvas [FrameExamples.runaway]))
         true 0%float 120%float (1000 / 120)%float.

Lemma started_warmingUp : warmingUp started.
Proof.
  unfold warmingUp, started. cbn. repeat split; eauto; lia.
Qed.

Lemma renderLoop_keeps_simulation_size_witness :
  exists a' sim',
    App.renderLoop (M := SimulationExamples.sampleMath) (fun _ => 0%float) 5016%float
      [0%float; 0%float] started = Some a'
    /\ App.fluidSim a' = Some sim'
    /\ FluidSimulation.particleCount (FluidSimulation.params sim') = 1
    /\ particles (qualitySettings (App.optimizationManager a')) = 300.
Proof.
  destruct (renderLoop_keeps_simulation_size (M := SimulationExamples.sampleMath)
              (fun _ => 0%float) 5016%float [0%float; 0%float] started
              (SimulationFacts.canvas [FrameExamples.runaway]) eq_refl)
    as (a' & sim' & Hr & Hs & Hp & _).
  exists a', sim'. split; [exact Hr |]. split; [exact Hs |]. split; [rewrite Hp; reflexivity |].
  match type of Hr with
  | _ = Some ?x =>
      assert (H : App.renderLoop (M := SimulationExamples.sampleMath) (fun _ => 0%float)
                    5016%float [0%float; 0%float] started = Some x) by exact Hr
  end.
  vm_compute in H. injection H as <-. reflexivity.
Defined.

(** The first frame of that application takes the controller from Medium
    to Low. *)
Lemma renderLoop_startup_witness :
  exists a',
    App.renderLoop (M := SimulationExamples.sampleMath) (fun _ => 0%float) 5016%float
      [0%float; 0%float] started = Some a'
    /\ currentQualityLevel (App.optimizationManager a') = low
    /\ warmingUp a'.
Proof.
  destruct (renderLoop_startup (M := SimulationExamples.sampleMath) (fun _ => 0%float)
              5016%float [0%float; 0%float] started started_warmingUp eq_refl eq_refl)
    as (a' & Hr & Hq & _ & Hw).
  exists a'. split; [exact Hr |]. split; [exact Hq | exact Hw].
Defined.

End AppExamples.

(** * The worker pool under arbitrary traffic *)

Module PoolTraffic.
Import JS WorkerPool PoolFacts.
Local Open Scope nat_scope.

(** ** The queue and the workers *)

(** The workers that tasks of the queue are assigned to, in queue order. *)
Definition busy (q : list Task) : list Worker := omap worker q.

(** The message an assigned task was posted with, and its addressee. *)
Definition messageFor (t : Task) : option (Worker * Message) :=
  match worker t with
  | Some w => Some (w, mkMessage (request t) (id t))
  | None => None
  end.

Definition posted (q : list Task) : list (Worker * Message) := omap messageFor q.

(** A queue whose assigned tasks all stand before its waiting ones. *)
Definition inOrder (q : list Task) : Prop :=
  exists qa qw, q = qa ++ qw
                /\ Forall (fun t => unassigned t = false) qa
                /\ Forall (fun t => unassigned t = true) qw.

(** A continuation of [executeTask] in the microtask queue. *)
Abbreviation Deferred := (nat * Request * TaskId * number)%type (only parsing).

Definition dPromise (d : Deferred) : nat := fst (fst (fst d)).
Definition dId (d : Deferred) : TaskId := snd (fst d).

Lemma busy_app q1 q2 : busy (q1 ++ q2) = busy q1 ++ busy q2.
Proof. apply omap_app. Qed.

Lemma posted_app q1 q2 : posted (q1 ++ q2) = posted q1 ++ posted q2.
Proof. apply omap_app. Qed.

Lemma busy_waiting q : Forall (fun t => unassigned t = true) q -> busy q = [] /\ posted q = [].
Proof.
  induction 1 as [|t q Ht _ [IH1 IH2]]; [split; reflexivity |].
  unfold busy, posted, messageFor, unassigned in *. cbn [omap list_omap].
  destruct (worker t); [discriminate |]. auto.
Qed.

Lemma busy_posted q : fst <$> posted q = busy q.
Proof.
  induction q as [|t q IH]; [reflexivity |].
  unfold busy, posted, messageFor in *. cbn [omap list_omap].
  destruct (worker t); [rewrite fmap_cons, IH |]; auto.
Qed.

Lemma find_waiting qa qw :
  Forall (fun t => unassigned t = false) qa ->
  find unassigned (qa ++ qw) = find unassigned qw
  /\ forall w, assignFirst w (qa ++ qw) = qa ++ assignFirst w qw.
Proof.
  induction 1 as [|t qa Ht _ [IH1 IH2]]; [split; reflexivity |].
  simpl. rewrite Ht. split; [exact IH1 |]. intros w. rewrite IH2. reflexivity.
Qed.

Lemma find_waiting_head qw :
  Forall (fun t => unassigned t = true) qw -> find unassigned qw = head qw.
Proof. intros H. destruct H as [|t qw Ht _]; [reflexivity |]. simpl. rewrite Ht. reflexivity. Qed.

Lemma busy_elem w q : w ∈ busy q <-> exists t, t ∈ q /\ worker t = Some w.
Proof. unfold busy. rewrite list_elem_of_omap. reflexivity. Qed.

(** ** The invariant *)

(** What holds of the pool between any two of its reactions; [ds] are the
    continuations still to run. *)
Record Inv (ds : list Deferred) (p : t) : Prop := {
  inv_order : inOrder (taskQueue p);
  inv_nodup : NoDup (availableWorkers p ++ busy (taskQueue p));
  inv_perm : availableWorkers p ++ busy (taskQueue p) ≡ₚ workers p;
  inv_inbox : inbox p = posted (taskQueue p);
  inv_ids : NoDup ((id <$> taskQueue p) ++ (dId <$> ds));
  inv_promises : NoDup ((promise <$> taskQueue p) ++ (dPromise <$> ds));
  inv_pending : forall h, h ∈ (promise <$> taskQueue p) ++ (dPromise <$> ds) ->
                          outcome h p = None /\ h < nextPromise p;
  inv_settled : forall e, e ∈ settled p -> fst e < nextPromise p;
  inv_init : if isInitialized p then workers p = seq 0 (maxWorkers p)
             else workers p = [] /\ taskQueue p = [] /\ ds = [];
  inv_cap : maxWorkers p <= 8
}.

Lemma Inv_new k : Inv [] (new k).
Proof.
  split; cbn; try (apply NoDup_nil; exact I); try reflexivity; try lia.
  - exists [], []. repeat split; constructor.
  - intros h Hh. apply elem_of_nil in Hh. contradiction.
  - intros e He. apply elem_of_nil in He. contradiction.
  - auto.
Qed.


(** ** Dispatching *)

Lemma processNextTask_noworker p : availableWorkers p = [] -> processNextTask p = p.
Proof.
  intros Ha. unfold processNextTask. rewrite Ha. destruct (taskQueue p); reflexivity.
Qed.

Lemma assign_fields w t :
  id (assign w t) = id t /\ promise (assign w t) = promise t
  /\ request (assign w t) = request t /\ worker (assign w t) = Some w.
Proof. repeat split; reflexivity. Qed.

(** What a dispatch does to a pool in order: nothing when no task waits or
    no worker is idle, and otherwise the oldest waiting task goes to the
    worker that [pop] takes. *)
Lemma processNextTask_effect ds p :
  Inv ds p ->
  (processNextTask p = p
   /\ (availableWorkers p = [] \/ Forall (fun t => unassigned t = false) (taskQueue p)))
  \/ exists rest w qa t qw,
       availableWorkers p = rest ++ [w]
       /\ taskQueue p = qa ++ t :: qw
       /\ Forall (fun t => unassigned t = false) qa
       /\ Forall (fun t => unassigned t = true) (t :: qw)
       /\ processNextTask p
          = postMessage w (mkMessage (request t) (id t))
              (set_taskQueue (set_availableWorkers p rest) (qa ++ assign w t :: qw)).
Proof.
  intros [(qa & qw & Hq & Hqa & Hqw) _ _ _ _ _ _ _ _ _].
  destruct qw as [|t qw].
  - left. rewrite app_nil_r in Hq. split; [| right; rewrite Hq; exact Hqa].
    apply processNextTask_busy. rewrite Hq. apply forallb_forall. intros x Hx.
    rewrite Forall_forall in Hqa. apply list_elem_of_In in Hx. rewrite (Hqa x Hx). reflexivity.
  - destruct (availableWorkers p) as [|a av] eqn:Ea using rev_ind.
    + left. split; [apply processNextTask_noworker; exact Ea | left; reflexivity].
    + clear IHav. right. exists av, a, qa, t, qw.
      split; [reflexivity |]. split; [exact Hq |]. split; [exact Hqa |]. split; [exact Hqw |].
      destruct (find_waiting qa (t :: qw) Hqa) as [Hf Has].
      rewrite (processNextTask_dispatch p av a t Ea).
      * rewrite Hq, Has. simpl. apply Forall_cons in Hqw. destruct Hqw as [-> _]. reflexivity.
      * rewrite Hq, Hf. simpl. apply Forall_cons in Hqw. destruct Hqw as [-> _]. reflexivity.
Qed.

Lemma unassigned_false t : unassigned t = false <-> exists w, worker t = Some w.
Proof.
  unfold unassigned. destruct (worker t) as [w|]; split; try discriminate; eauto.
  intros [w H]. discriminate.
Qed.

Lemma processNextTask_Inv ds p : Inv ds p -> Inv ds (processNextTask p).
Proof.
  intros HI. destruct (processNextTask_effect ds p HI)
    as [[-> _] | (rest & w & qa & t & qw & Ha & Hq & Hqa & Hqw & ->)]; [exact HI |].
  destruct HI as [_ Hnd Hperm Hbox Hids Hpr Hpend Hset Hinit Hcap].
  pose proof Hqw as Hqw0. apply Forall_cons in Hqw. destruct Hqw as [Ht Hqw].
  destruct (busy_waiting qw Hqw) as [Hbw Hpw].
  assert (Hbt : busy (t :: qw) = [] /\ posted (t :: qw) = []) by (apply busy_waiting; exact Hqw0).
  destruct Hbt as [Hbt Hpt].
  assert (Hb' : busy (qa ++ assign w t :: qw) = busy qa ++ [w]).
  { rewrite busy_app. f_equal. unfold busy at 1. cbn [omap list_omap assign worker].
    fold (busy qw). rewrite Hbw. reflexivity. }
  assert (Hp' : posted (qa ++ assign w t :: qw)
                = posted qa ++ [(w, mkMessage (request t) (id t))]).
  { rewrite posted_app. f_equal. unfold posted at 1.
    cbn [omap list_omap assign messageFor worker request id].
    fold (posted qw). rewrite Hpw. reflexivity. }
  assert (Hb : busy (taskQueue p) = busy qa)
    by (rewrite Hq, busy_app, Hbt, app_nil_r; reflexivity).
  assert (Hpo : posted (taskQueue p) = posted qa)
    by (rewrite Hq, posted_app, Hpt, app_nil_r; reflexivity).
  assert (Hid : id <$> qa ++ assign w t :: qw = id <$> taskQueue p)
    by (rewrite Hq, !fmap_app, !fmap_cons; reflexivity).
  assert (Hprm : promise <$> qa ++ assign w t :: qw = promise <$> taskQueue p)
    by (rewrite Hq, !fmap_app, !fmap_cons; reflexivity).
  assert (Hswap : rest ++ busy qa ++ [w] ≡ₚ (rest ++ [w]) ++ busy qa).
  { rewrite <- app_assoc. apply Permutation_app_head, Permutation_app_comm. }
  split; cbn [postMessage set_taskQueue set_availableWorkers taskQueue availableWorkers
              workers inbox settled nextPromise isInitialized maxWorkers deferred].
  - exists (qa ++ [assign w t]), qw. rewrite <- app_assoc. split; [reflexivity |].
    split; [| exact Hqw]. apply Forall_app. split; [exact Hqa |].
    constructor; [reflexivity | constructor].
  - rewrite Hb', Hswap, <- Ha, <- Hb. exact Hnd.
  - rewrite Hb', Hswap, <- Ha, <- Hb. exact Hperm.
  - rewrite Hp', Hbox, Hpo. reflexivity.
  - rewrite Hid. exact Hids.
  - rewrite Hprm. exact Hpr.
  - rewrite Hprm. exact Hpend.
  - exact Hset.
  - destruct (isInitialized p); [exact Hinit |].
    destruct Hinit as (_ & Hq0 & _). rewrite Hq in Hq0.
    destruct qa; discriminate.
  - exact Hcap.
Qed.


(** What no dispatch changes. *)
Lemma processNextTask_frame p :
  maxWorkers (processNextTask p) = maxWorkers p
  /\ workers (processNextTask p) = workers p
  /\ isInitialized (processNextTask p) = isInitialized p
  /\ settled (processNextTask p) = settled p
  /\ nextPromise (processNextTask p) = nextPromise p
  /\ deferred (processNextTask p) = deferred p.
Proof.
  unfold processNextTask. destruct (taskQueue p) eqn:Eq; [repeat split; reflexivity |].
  destruct (reverse (availableWorkers p)); [repeat split; reflexivity |].
  cbn [set_availableWorkers taskQueue].
  destruct (find unassigned (taskQueue p)); repeat split; reflexivity.
Qed.

(** ** Submitting tasks *)

Lemma Inv_initialized d ds p : Inv (d :: ds) p -> isInitialized p = true.
Proof.
  intros HI. pose proof (inv_init _ _ HI) as H.
  destruct (isInitialized p); [reflexivity |]. destruct H as (_ & _ & H). discriminate.
Qed.

Lemma push_Inv ds h r taskId now p :
  Inv ((h, r, taskId, now) :: ds) p ->
  Inv ds (set_taskQueue p (taskQueue p ++ [mkTask taskId r h now None])).
Proof.
  intros HI.
  pose proof (Inv_initialized _ _ _ HI) as Hini.
  destruct HI as [(qa & qw & Hq & Hqa & Hqw) Hnd Hperm Hbox Hids Hpr Hpend Hset Hinit Hcap].
  set (t := mkTask taskId r h now None).
  assert (Hb : busy (taskQueue p ++ [t]) = busy (taskQueue p))
    by (rewrite busy_app; apply app_nil_r).
  assert (Hp : posted (taskQueue p ++ [t]) = posted (taskQueue p))
    by (rewrite posted_app; apply app_nil_r).
  split; cbn [set_taskQueue taskQueue availableWorkers workers inbox settled nextPromise
              isInitialized maxWorkers deferred].
  - exists qa, (qw ++ [t]). rewrite Hq, app_assoc. split; [reflexivity |].
    split; [exact Hqa |]. apply Forall_app. split; [exact Hqw |].
    constructor; [reflexivity | constructor].
  - rewrite Hb. exact Hnd.
  - rewrite Hb. exact Hperm.
  - rewrite Hp. exact Hbox.
  - rewrite fmap_app, <- app_assoc. exact Hids.
  - rewrite fmap_app, <- app_assoc. exact Hpr.
  - rewrite fmap_app, <- app_assoc. exact Hpend.
  - exact Hset.
  - rewrite Hini in *. exact Hinit.
  - exact Hcap.
Qed.

Lemma enqueue_Inv ds h r taskId now p :
  Inv ((h, r, taskId, now) :: ds) p -> Inv ds (enqueue h r taskId now p).
Proof. intros HI. unfold enqueue. apply processNextTask_Inv, push_Inv, HI. Qed.

Lemma enqueue_deferred h r taskId now p : deferred (enqueue h r taskId now p) = deferred p.
Proof.
  unfold enqueue.
  destruct (processNextTask_frame
              (set_taskQueue p (taskQueue p ++ [mkTask taskId r h now None])))
    as (_ & _ & _ & _ & _ & ->). reflexivity.
Qed.

(** The pool once [executeTask] has created its promise. *)
Definition promised (p : WorkerPool.t) : WorkerPool.t :=
  mk (maxWorkers p) (workers p) (availableWorkers p) (taskQueue p)
     (isInitialized p) (inbox p) (settled p) (S (nextPromise p)) (deferred p).

Lemma fresh_promise p :
  Inv (deferred p) p ->
  (nextPromise p ∉ (promise <$> taskQueue p) ++ (dPromise <$> deferred p))
  /\ outcome (nextPromise p) p = None.
Proof.
  intros HI. split.
  - intros Hin. apply (inv_pending _ _ HI) in Hin. lia.
  - unfold outcome. destruct (find _ (settled p)) as [e|] eqn:Ef; [| reflexivity].
    apply find_some in Ef. destruct Ef as [Hin He]. apply Nat.eqb_eq in He.
    apply list_elem_of_In, (inv_settled _ _ HI) in Hin. lia.
Qed.

Lemma promised_Inv r taskId now p :
  Inv (deferred p) p ->
  taskId ∉ (id <$> taskQueue p) ++ (dId <$> deferred p) ->
  isInitialized p = true ->
  Inv ((nextPromise p, r, taskId, now) :: deferred p) (promised p).
Proof.
  intros HI Hfresh Hini. destruct (fresh_promise p HI) as [Hh Hout].
  destruct HI as [Hord Hnd Hperm Hbox Hids Hpr Hpend Hset Hinit Hcap].
  split; cbn [promised taskQueue availableWorkers workers inbox settled nextPromise
              isInitialized maxWorkers deferred]; try assumption.
  - rewrite fmap_cons. apply NoDup_app. apply NoDup_app in Hids.
    destruct Hids as (H1 & H2 & H3). split; [exact H1 |]. split.
    + intros x Hx Hx'. apply elem_of_cons in Hx'. destruct Hx' as [-> | Hx'].
      * apply Hfresh. apply elem_of_app. left. exact Hx.
      * apply (H2 x Hx Hx').
    + apply NoDup_cons. split; [| exact H3].
      intros Hx. apply Hfresh. apply elem_of_app. right. exact Hx.
  - rewrite fmap_cons. apply NoDup_app. apply NoDup_app in Hpr.
    destruct Hpr as (H1 & H2 & H3). split; [exact H1 |]. split.
    + intros x Hx Hx'. apply elem_of_cons in Hx'. destruct Hx' as [-> | Hx'].
      * apply Hh. apply elem_of_app. left. exact Hx.
      * apply (H2 x Hx Hx').
    + apply NoDup_cons. split; [| exact H3].
      intros Hx. apply Hh. apply elem_of_app. right. exact Hx.
  - intros x Hx. rewrite fmap_cons in Hx. apply elem_of_app in Hx.
    rewrite elem_of_cons in Hx.
    destruct Hx as [Hx | [-> | Hx]].
    + destruct (Hpend x) as [Ho Hl]; [apply elem_of_app; auto |]. split; [exact Ho | lia].
    + split; [exact Hout | unfold dPromise; simpl; lia].
    + destruct (Hpend x) as [Ho Hl]; [apply elem_of_app; auto |]. split; [exact Ho | lia].
  - intros e He. apply Hset in He. lia.
  - rewrite Hini in *. exact Hinit.
Qed.

(** [executeTask] on a pool that is initialized, and on one that is not. *)
Lemma executeTask_initialized r taskId now p :
  isInitialized p = true ->
  fst (executeTask r taskId now p) = enqueue (nextPromise p) r taskId now (promised p).
Proof.
  intros H. destruct p as [mw ws av q ini box st np df]. cbn [isInitialized] in H. subst ini.
  reflexivity.
Qed.

Lemma executeTask_first r taskId now p :
  Inv (deferred p) p -> isInitialized p = false ->
  fst (executeTask r taskId now p)
  = mk (maxWorkers p) (seq 0 (maxWorkers p)) (seq 0 (maxWorkers p)) [] true []
       (settled p) (S (nextPromise p)) [(nextPromise p, r, taskId, now)].
Proof.
  intros HI Hini. pose proof (inv_init _ _ HI) as Hinit. rewrite Hini in Hinit.
  destruct Hinit as (Hw & Hq & Hd).
  assert (Ha : availableWorkers p = []).
  { pose proof (inv_perm _ _ HI) as Hperm. rewrite Hw, Hq in Hperm. simpl in Hperm.
    rewrite app_nil_r in Hperm. apply Permutation_nil_r in Hperm. exact Hperm. }
  assert (Hb : inbox p = []) by (rewrite (inv_inbox _ _ HI), Hq; reflexivity).
  unfold executeTask, initialize. cbn [isInitialized]. rewrite Hini.
  cbn [fst maxWorkers workers availableWorkers taskQueue isInitialized inbox settled
       nextPromise deferred].
  rewrite Hw, Hq, Hd, Ha, Hb. reflexivity.
Qed.

(** [executeTask] with an id that no task in the queue or in the
    microtask queue has. *)
Lemma executeTask_Inv r taskId now p :
  Inv (deferred p) p ->
  taskId ∉ (id <$> taskQueue p) ++ (dId <$> deferred p) ->
  Inv (deferred (fst (executeTask r taskId now p))) (fst (executeTask r taskId now p)).
Proof.
  intros HI Hfresh. destruct (isInitialized p) eqn:Hini.
  - rewrite (executeTask_initialized r taskId now p Hini), enqueue_deferred.
    apply (enqueue_Inv (deferred p)). exact (promised_Inv r taskId now p HI Hfresh Hini).
  - rewrite (executeTask_first r taskId now p HI Hini).
    destruct (fresh_promise p HI) as [_ Hout].
    split; cbn [taskQueue availableWorkers workers inbox settled nextPromise isInitialized
                maxWorkers deferred busy posted omap list_omap fmap list_fmap app dId dPromise
                fst snd].
    + exists [], []. repeat split; constructor.
    + rewrite app_nil_r. apply NoDup_seq.
    + rewrite app_nil_r. reflexivity.
    + reflexivity.
    + apply NoDup_singleton.
    + apply NoDup_singleton.
    + intros x Hx. apply list_elem_of_singleton in Hx. subst x. split; [exact Hout | lia].
    + intros e He. apply (inv_settled _ _ HI) in He. lia.
    + reflexivity.
    + apply (inv_cap _ _ HI).
Qed.

Lemma runMicrotasks_fold ds p :
  Inv ds p ->
  let p' := foldl (fun p (d : Deferred) =>
                     match d with (h, r, taskId, now) => enqueue h r taskId now p end)
                  p ds in
  Inv [] p' /\ deferred p' = deferred p.
Proof.
  revert p. induction ds as [|[[[h r] taskId] now] ds IH]; intros p HI; [split; auto |].
  cbn [foldl]. destruct (IH (enqueue h r taskId now p)) as [H1 H2].
  { apply enqueue_Inv. exact HI. }
  split; [exact H1 |]. rewrite H2. apply enqueue_deferred.
Qed.

Lemma runMicrotasks_Inv p :
  Inv (deferred p) p ->
  Inv (deferred (runMicrotasks p)) (runMicrotasks p).
Proof.
  intros HI. unfold runMicrotasks.
  set (p0 := mk (maxWorkers p) (workers p) (availableWorkers p) (taskQueue p)
                (isInitialized p) (inbox p) (settled p) (nextPromise p) []).
  destruct (runMicrotasks_fold (deferred p) p0) as [H1 H2].
  { destruct HI. split; assumption. }
  rewrite H2. exact H1.
Qed.


(** ** A worker and its task *)

Lemma takeMessage_absent w (b : list (Worker * Message)) :
  w ∉ fst <$> b -> takeMessage w b = None.
Proof.
  induction b as [|[w' m] b IH]; intros H; [reflexivity |].
  rewrite fmap_cons, not_elem_of_cons in H. destruct H as [Hne H]. simpl in Hne.
  cbn [takeMessage]. destruct (Nat.eqb_spec w' w) as [E | _]; [congruence |].
  rewrite (IH H). reflexivity.
Qed.

Lemma takeMessage_first w m (b1 b2 : list (Worker * Message)) :
  w ∉ fst <$> b1 -> takeMessage w (b1 ++ (w, m) :: b2) = Some (m, b1 ++ b2).
Proof.
  induction b1 as [|[w' m'] b1 IH]; intros H.
  - cbn [app takeMessage]. rewrite Nat.eqb_refl. reflexivity.
  - rewrite fmap_cons, not_elem_of_cons in H. destruct H as [Hne H]. simpl in Hne.
    cbn [app takeMessage]. destruct (Nat.eqb_spec w' w) as [E | _]; [congruence |].
    rewrite (IH H). reflexivity.
Qed.

Lemma find_by_id (t : Task) (q1 q2 : list Task) :
  id t ∉ id <$> q1 ->
  find (fun task => String.eqb (id task) (id t)) (q1 ++ t :: q2) = Some t
  /\ removeFirst (id t) (q1 ++ t :: q2) = q1 ++ q2.
Proof.
  induction q1 as [|a q1 IH]; intros H.
  - cbn [app find removeFirst]. rewrite String.eqb_refl. auto.
  - rewrite fmap_cons, not_elem_of_cons in H. destruct H as [Hne H].
    cbn [app find removeFirst]. destruct (String.eqb_spec (id a) (id t)) as [E | _];
      [congruence |].
    destruct (IH H) as [-> ->]. auto.
Qed.

(** Removing a task keeps a queue in order. *)
Lemma inOrder_remove q1 t q2 : inOrder (q1 ++ t :: q2) -> inOrder (q1 ++ q2).
Proof.
  intros (qa & qw & Hq & Hqa & Hqw).
  revert qa Hq Hqa. induction q1 as [|a q1 IH]; intros qa Hq Hqa.
  - cbn [app] in *. destruct qa as [|a' qa].
    + cbn [app] in Hq. subst qw. apply Forall_cons in Hqw. destruct Hqw as [_ Hqw].
      exists [], q2. repeat split; [constructor | exact Hqw].
    + cbn [app] in Hq. injection Hq as _ ->. apply Forall_cons in Hqa.
      destruct Hqa as [_ Hqa]. exists qa, qw. auto.
  - destruct qa as [|a' qa].
    + cbn [app] in Hq. subst qw. exists [], ((a :: q1) ++ q2).
      split; [reflexivity |]. split; [constructor |].
      change ((a :: q1) ++ t :: q2) with (a :: q1 ++ t :: q2) in Hqw.
      apply Forall_cons in Hqw. destruct Hqw as [Ha Hqw].
      apply Forall_app in Hqw. destruct Hqw as [H1 H2].
      apply Forall_cons in H2. destruct H2 as [_ H2].
      cbn [app]. constructor; [exact Ha |]. apply Forall_app. auto.
    + cbn [app] in Hq. injection Hq as -> Hq. apply Forall_cons in Hqa.
      destruct Hqa as [Ha Hqa]. destruct (IH qa Hq Hqa) as (qa' & qw' & Hq' & Hqa' & Hqw').
      exists (a' :: qa'), qw'. cbn [app]. rewrite Hq'. split; [reflexivity |].
      split; [constructor; assumption | exact Hqw'].
Qed.

(** The task a busy worker is working on: the only task assigned to it,
    whose message is the only one in its inbox. *)
Lemma own_task ds p w :
  Inv ds p -> w ∈ busy (taskQueue p) ->
  exists q1 t q2,
    taskQueue p = q1 ++ t :: q2
    /\ worker t = Some w
    /\ (w ∉ availableWorkers p)
    /\ (w ∉ busy (q1 ++ q2))
    /\ (id t ∉ id <$> q1)
    /\ takeMessage w (inbox p) = Some (mkMessage (request t) (id t), posted (q1 ++ q2)).
Proof.
  intros HI Hw. destruct HI as [_ Hnd _ Hbox Hids _ _ _ _ _].
  apply busy_elem in Hw. destruct Hw as (t & Ht & Hwt).
  apply list_elem_of_split in Ht. destruct Ht as (q1 & q2 & Hq).
  assert (Hb : busy (taskQueue p) = busy q1 ++ w :: busy q2).
  { rewrite Hq, busy_app. f_equal. unfold busy. cbn [omap list_omap]. rewrite Hwt. reflexivity. }
  rewrite Hb in Hnd. apply NoDup_app in Hnd. destruct Hnd as (_ & Hdis & Hnb).
  apply NoDup_app in Hnb. destruct Hnb as (_ & Hdis' & Hnb).
  apply NoDup_cons in Hnb. destruct Hnb as [Hw2 _].
  assert (Hw1 : w ∉ busy q1).
  { intros H. apply (Hdis' w H). left. }
  exists q1, t, q2. split; [exact Hq |]. split; [exact Hwt |]. split.
  { intros H. apply (Hdis w H). apply elem_of_app. right. left. }
  split.
  { rewrite busy_app. intros H. apply elem_of_app in H. tauto. }
  split.
  { rewrite Hq, fmap_app, fmap_cons, <- app_assoc in Hids.
    apply NoDup_app in Hids. destruct Hids as (_ & Hd & _).
    intros H. apply (Hd _ H). left. }
  rewrite Hbox, Hq, !posted_app.
  change (posted (t :: q2)) with (omap messageFor (t :: q2)). cbn [omap list_omap].
  unfold messageFor at 1. rewrite Hwt. fold (posted q2).
  apply takeMessage_first. rewrite busy_posted. exact Hw1.
Qed.


(** The pool once worker [w] is done with its task [t], with outcome [o],
    and before the next dispatch: the task has left the queue [q'], its
    promise is settled and the worker is idle. *)
Definition released (w : Worker) (t : Task) (q' : list Task) (o : Outcome) (p : WorkerPool.t)
    : WorkerPool.t :=
  mk (maxWorkers p) (workers p) (availableWorkers p ++ [w]) q' (isInitialized p)
     (posted q') (settled p ++ [(promise t, o)]) (nextPromise p) (deferred p).

Lemma outcome_released h w t q' o p :
  outcome h (released w t q' o p)
  = match outcome h p with
    | Some o' => Some o'
    | None => if Nat.eqb (promise t) h then Some o else None
    end.
Proof.
  unfold outcome, released. cbn [settled]. rewrite find_app.
  destruct (find _ (settled p)); [reflexivity |]. cbn [find fst].
  destruct (Nat.eqb (promise t) h); reflexivity.
Qed.

Lemma released_Inv ds p w t q1 q2 o :
  Inv ds p -> taskQueue p = q1 ++ t :: q2 -> worker t = Some w ->
  Inv ds (released w t (q1 ++ q2) o p).
Proof.
  intros HI Hq Hwt.
  destruct HI as [Hord Hnd Hperm Hbox Hids Hpr Hpend Hset Hinit Hcap].
  assert (Hb : busy (taskQueue p) = busy q1 ++ w :: busy q2).
  { rewrite Hq, busy_app. f_equal. unfold busy. cbn [omap list_omap]. rewrite Hwt. reflexivity. }
  assert (Hswap : (availableWorkers p ++ [w]) ++ busy (q1 ++ q2)
                  ≡ₚ availableWorkers p ++ busy (taskQueue p)).
  { rewrite Hb, busy_app, <- !app_assoc. apply Permutation_app_head.
    cbn [app]. apply Permutation_middle. }
  assert (Hpt : promise t ∈ (promise <$> taskQueue p) ++ (dPromise <$> ds)).
  { apply elem_of_app. left. rewrite Hq, fmap_app, fmap_cons. apply elem_of_app. right. left. }
  split; cbn [released taskQueue availableWorkers workers inbox settled nextPromise
              isInitialized maxWorkers deferred].
  - apply (inOrder_remove q1 t q2). rewrite <- Hq. exact Hord.
  - rewrite Hswap. exact Hnd.
  - rewrite Hswap. exact Hperm.
  - reflexivity.
  - rewrite Hq, fmap_app, fmap_cons, <- app_assoc in Hids. cbn [app] in Hids.
    rewrite fmap_app, <- app_assoc.
    apply NoDup_app in Hids. destruct Hids as (H1 & H2 & H3).
    apply NoDup_cons in H3. destruct H3 as [_ H3].
    apply NoDup_app. split; [exact H1 |]. split; [| exact H3].
    intros x Hx Hx'. apply (H2 x Hx). right. exact Hx'.
  - rewrite Hq, fmap_app, fmap_cons, <- app_assoc in Hpr. cbn [app] in Hpr.
    rewrite fmap_app, <- app_assoc.
    apply NoDup_app in Hpr. destruct Hpr as (H1 & H2 & H3).
    apply NoDup_cons in H3. destruct H3 as [_ H3].
    apply NoDup_app. split; [exact H1 |]. split; [| exact H3].
    intros x Hx Hx'. apply (H2 x Hx). right. exact Hx'.
  - intros h Hh.
    assert (Hh' : h ∈ (promise <$> taskQueue p) ++ (dPromise <$> ds) /\ h <> promise t).
    { rewrite Hq, fmap_app, fmap_cons, <- app_assoc in Hpr. cbn [app] in Hpr.
      rewrite Hq, fmap_app, fmap_cons, <- app_assoc. cbn [app].
      rewrite fmap_app, <- app_assoc in Hh.
      apply NoDup_app in Hpr. destruct Hpr as (H1 & H2 & H3).
      apply NoDup_cons in H3. destruct H3 as [H3 _].
      apply elem_of_app in Hh. destruct Hh as [Hh | Hh].
      - split; [apply elem_of_app; auto |]. intros ->. apply (H2 _ Hh). left.
      - split; [apply elem_of_app; right; right; exact Hh |]. intros ->. contradiction. }
    destruct Hh' as [Hin Hne]. destruct (Hpend h Hin) as [Ho Hl].
    fold (released w t (q1 ++ q2) o p). rewrite outcome_released, Ho.
    destruct (Nat.eqb_spec (promise t) h); [congruence | auto].
  - intros e He. apply elem_of_app in He. destruct He as [He | He]; [apply Hset; exact He |].
    apply list_elem_of_singleton in He. subst e. cbn [fst]. apply (Hpend _ Hpt).
  - destruct (isInitialized p); [exact Hinit |].
    destruct Hinit as (_ & Hq0 & _). rewrite Hq in Hq0. destruct q1; discriminate.
  - exact Hcap.
Qed.

Lemma filter_assigned w (q : list Task) :
  w ∉ busy q ->
  filter (fun task => assignedTo w task = true) q = []
  /\ filter (fun task => assignedTo w task = false) q = q.
Proof.
  induction q as [|a q IH]; intros H; [split; reflexivity |].
  assert (Ha : assignedTo w a = false).
  { destruct (assignedTo w a) eqn:E; [| reflexivity]. apply assignedTo_spec in E.
    exfalso. apply H. apply busy_elem. exists a. split; [left | exact E]. }
  assert (Hq : w ∉ busy q).
  { intros Hin. apply H. apply busy_elem in Hin. destruct Hin as (x & Hx & Hwx).
    apply busy_elem. exists x. split; [right; exact Hx | exact Hwx]. }
  destruct (IH Hq) as [IH1 IH2]. rewrite !filter_cons.
  destruct (decide (assignedTo w a = true)) as [E | _]; [congruence |].
  destruct (decide (assignedTo w a = false)) as [_ | E]; [| congruence].
  rewrite IH1, IH2. auto.
Qed.

Lemma filter_own w t (q1 q2 : list Task) :
  worker t = Some w -> w ∉ busy (q1 ++ q2) ->
  filter (fun task => assignedTo w task = true) (q1 ++ t :: q2) = [t]
  /\ filter (fun task => assignedTo w task = false) (q1 ++ t :: q2) = q1 ++ q2.
Proof.
  intros Hwt Hw. rewrite busy_app in Hw.
  assert (H1 : w ∉ busy q1) by (intros H; apply Hw, elem_of_app; auto).
  assert (H2 : w ∉ busy q2) by (intros H; apply Hw, elem_of_app; auto).
  destruct (filter_assigned w q1 H1) as [F1 G1].
  destruct (filter_assigned w q2 H2) as [F2 G2].
  assert (Ht : assignedTo w t = true) by (apply assignedTo_spec; exact Hwt).
  rewrite !filter_app, !filter_cons, F1, F2, G1, G2.
  destruct (decide (assignedTo w t = true)) as [_ | E]; [| congruence].
  destruct (decide (assignedTo w t = false)) as [E | _]; [congruence |].
  auto.
Qed.

Lemma settle_pending h o p :
  outcome h p = None ->
  settle h o p
  = mk (maxWorkers p) (workers p) (availableWorkers p) (taskQueue p) (isInitialized p)
       (inbox p) (settled p ++ [(h, o)]) (nextPromise p) (deferred p).
Proof. intros H. unfold settle. rewrite H. reflexivity. Qed.

Lemma includes_false w l : w ∉ l -> includes w l = false.
Proof.
  intros H. destruct (includes w l) eqn:E; [| reflexivity].
  apply includes_spec in E. contradiction.
Qed.


(** ** Replies and faults *)


(** ** Work conservation *)

(** No task waits while a worker is idle. *)
Definition workConserving (p : WorkerPool.t) : Prop :=
  availableWorkers p = [] \/ Forall (fun t => unassigned t = false) (taskQueue p).

Lemma filter_waiting qa qw :
  Forall (fun t => unassigned t = false) qa -> Forall (fun t => unassigned t = true) qw ->
  filter (fun t => unassigned t = true) (qa ++ qw) = qw.
Proof.
  intros Ha Hw. rewrite filter_app.
  assert (H1 : filter (fun t => unassigned t = true) qa = []).
  { induction Ha as [|a qa Ha _ IH]; [reflexivity |]. rewrite filter_cons.
    destruct (decide (unassigned a = true)); [congruence | exact IH]. }
  assert (H2 : filter (fun t => unassigned t = true) qw = qw).
  { induction Hw as [|a qw Ha' _ IH]; [reflexivity |]. rewrite filter_cons.
    destruct (decide (unassigned a = true)); [rewrite IH; reflexivity | congruence]. }
  rewrite H1, H2. reflexivity.
Qed.

(** A dispatch restores work conservation when at most one worker is idle
    or at most one task waits. *)
Lemma processNextTask_workConserving ds p :
  Inv ds p ->
  length (availableWorkers p) <= 1
  \/ length (filter (fun t => unassigned t = true) (taskQueue p)) <= 1
  \/ workConserving p ->
  workConserving (processNextTask p).
Proof.
  intros HI Hpre. destruct (processNextTask_effect ds p HI)
    as [[-> H] | (rest & w & qa & t & qw & Ha & Hq & Hqa & Hqw & ->)]; [exact H |].
  unfold workConserving.
  cbn [postMessage set_taskQueue set_availableWorkers availableWorkers taskQueue].
  destruct Hpre as [Hl | [Hl | [Hwc | Hwc]]].
  - left. rewrite Ha, length_app in Hl. simpl in Hl. destruct rest; [reflexivity | simpl in Hl; lia].
  - right. rewrite Hq, (filter_waiting qa (t :: qw) Hqa Hqw) in Hl. simpl in Hl.
    destruct qw; [| simpl in Hl; lia].
    apply Forall_app. split; [exact Hqa |]. constructor; [reflexivity | constructor].
  - rewrite Ha in Hwc. destruct rest; discriminate.
  - rewrite Hq in Hwc. apply Forall_app in Hwc. destruct Hwc as [_ Hwc].
    apply Forall_cons in Hwc. destruct Hwc as [Hwc _].
    apply Forall_cons in Hqw. destruct Hqw as [Hqw _]. congruence.
Qed.

Lemma enqueue_workConserving ds h r taskId now p :
  Inv ((h, r, taskId, now) :: ds) p -> workConserving p ->
  workConserving (enqueue h r taskId now p).
Proof.
  intros HI Hwc. unfold enqueue.
  apply (processNextTask_workConserving ds _ (push_Inv ds h r taskId now p HI)).
  cbn [set_taskQueue taskQueue availableWorkers].
  destruct Hwc as [Ha | Hall].
  - left. rewrite Ha. simpl. lia.
  - right. left.
    rewrite (filter_waiting (taskQueue p) [mkTask taskId r h now None] Hall).
    + simpl. lia.
    + constructor; [reflexivity | constructor].
Qed.

Lemma runMicrotasks_fold_workConserving ds p :
  Inv ds p -> workConserving p ->
  workConserving (foldl (fun p (d : Deferred) =>
                           match d with (h, r, taskId, now) => enqueue h r taskId now p end)
                        p ds).
Proof.
  revert p. induction ds as [|[[[h r] taskId] now] ds IH]; intros p HI Hwc; [exact Hwc |].
  cbn [foldl]. apply IH.
  - apply enqueue_Inv. exact HI.
  - apply (enqueue_workConserving ds). exact HI. exact Hwc.
Qed.

Section Events.
Context `{M : MathLib}.

Lemma pending_task ds p t :
  Inv ds p -> t ∈ taskQueue p -> outcome (promise t) p = None /\ promise t < nextPromise p.
Proof.
  intros HI Ht. apply (inv_pending _ _ HI). apply elem_of_app. left.
  apply list_elem_of_fmap_2. exact Ht.
Qed.

(** A reply of a busy worker: its task is fulfilled with what the worker
    function makes of the task's request, and a dispatch follows. *)
Lemma step_Reply_busy ds p w now :
  Inv ds p -> w ∈ busy (taskQueue p) ->
  exists q1 t q2,
    taskQueue p = q1 ++ t :: q2 /\ worker t = Some w
    /\ step (Reply w now) p
       = processNextTask
           (released w t (q1 ++ q2) (Fulfilled (onmessage now (request t))) p).
Proof.
  intros HI Hw.
  destruct (own_task ds p w HI Hw) as (q1 & t & q2 & Hq & Hwt & Hwa & _ & Hid & Htake).
  exists q1, t, q2. split; [exact Hq |]. split; [exact Hwt |].
  destruct (pending_task ds p t HI) as [Hout _].
  { rewrite Hq. apply elem_of_app. right. left. }
  unfold step. rewrite Htake. unfold handleWorkerMessage.
  cbn [msg_taskId msg_request set_inbox taskQueue]. rewrite Hq.
  destruct (find_by_id t q1 q2 Hid) as [-> ->].
  rewrite settle_pending by exact Hout.
  cbn [set_inbox set_taskQueue set_availableWorkers availableWorkers maxWorkers workers
       taskQueue isInitialized inbox settled nextPromise deferred].
  rewrite (includes_false _ _ Hwa). reflexivity.
Qed.

Lemma step_Reply_idle ds p w now :
  Inv ds p -> w ∉ busy (taskQueue p) -> step (Reply w now) p = p.
Proof.
  intros HI Hw. unfold step. rewrite takeMessage_absent; [reflexivity |].
  rewrite (inv_inbox _ _ HI), busy_posted. exact Hw.
Qed.

(** A fault of a busy worker: its task is rejected, and no dispatch
    follows. *)
Lemma step_Fault_busy ds p w e :
  Inv ds p -> w ∈ busy (taskQueue p) ->
  exists q1 t q2,
    taskQueue p = q1 ++ t :: q2 /\ worker t = Some w
    /\ step (Fault w e) p = released w t (q1 ++ q2) (Rejected e) p.
Proof.
  intros HI Hw.
  destruct (own_task ds p w HI Hw) as (q1 & t & q2 & Hq & Hwt & Hwa & Hwb & _ & Htake).
  exists q1, t, q2. split; [exact Hq |]. split; [exact Hwt |].
  destruct (pending_task ds p t HI) as [Hout _].
  { rewrite Hq. apply elem_of_app. right. left. }
  unfold step. rewrite Htake. unfold handleWorkerError.
  cbn [set_inbox taskQueue]. rewrite Hq.
  destruct (filter_own w t q1 q2 Hwt Hwb) as [-> _]. cbn [foldl].
  rewrite settle_pending by exact Hout.
  cbn [set_inbox set_taskQueue set_availableWorkers availableWorkers maxWorkers workers
       taskQueue isInitialized inbox settled nextPromise deferred].
  rewrite Hq. destruct (filter_own w t q1 q2 Hwt Hwb) as [_ ->].
  rewrite (includes_false _ _ Hwa). reflexivity.
Qed.

Lemma step_Fault_idle ds p w e :
  Inv ds p -> w ∉ busy (taskQueue p) -> w ∈ availableWorkers p -> step (Fault w e) p = p.
Proof.
  intros HI Hw Ha. unfold step. rewrite takeMessage_absent.
  2:{ rewrite (inv_inbox _ _ HI), busy_posted. exact Hw. }
  unfold handleWorkerError.
  destruct (filter_assigned w (taskQueue p) Hw) as [-> _]. cbn [foldl].
  destruct (filter_assigned w (taskQueue p) Hw) as [_ ->].
  apply includes_spec in Ha. cbn [set_taskQueue availableWorkers]. rewrite Ha.
  destruct p. reflexivity.
Qed.

(** A worker of the pool is idle or busy. *)
Lemma worker_idle_or_busy ds p w :
  Inv ds p -> w ∈ workers p -> w ∈ availableWorkers p \/ w ∈ busy (taskQueue p).
Proof.
  intros HI Hw. rewrite <- (inv_perm _ _ HI) in Hw. apply elem_of_app in Hw. exact Hw.
Qed.

Lemma step_Inv ds p ev :
  Inv ds p ->
  (forall w e, ev = Fault w e -> w ∈ workers p) ->
  Inv ds (step ev p).
Proof.
  intros HI Hev. destruct ev as [w now | w e].
  - destruct (decide (w ∈ busy (taskQueue p))) as [Hw | Hw].
    + destruct (step_Reply_busy ds p w now HI Hw) as (q1 & t & q2 & Hq & Hwt & ->).
      apply processNextTask_Inv, (released_Inv ds p w t q1 q2); assumption.
    + rewrite (step_Reply_idle ds p w now HI Hw). exact HI.
  - destruct (decide (w ∈ busy (taskQueue p))) as [Hw | Hw].
    + destruct (step_Fault_busy ds p w e HI Hw) as (q1 & t & q2 & Hq & Hwt & ->).
      apply (released_Inv ds p w t q1 q2); assumption.
    + rewrite (step_Fault_idle ds p w e HI Hw); [exact HI |].
      destruct (worker_idle_or_busy ds p w HI (Hev w e eq_refl)); [assumption | contradiction].
Qed.

Lemma step_deferred ev p : deferred (step ev p) = deferred p.
Proof.
  destruct ev as [w now | w e]; unfold step.
  - destruct (takeMessage w (inbox p)) as [[m rest]|]; [| reflexivity].
    unfold handleWorkerMessage.
    match goal with |- deferred (processNextTask ?x) = _ =>
      destruct (processNextTask_frame x) as (_ & _ & _ & _ & _ & ->) end.
    cbn [msg_taskId set_inbox taskQueue].
    destruct (find _ _); [| destruct (includes _ _); reflexivity].
    unfold settle. destruct (outcome _ _); destruct (includes _ _); reflexivity.
  - assert (H : forall q, deferred (handleWorkerError w e q) = deferred q).
    { intros q. unfold handleWorkerError.
      assert (Hd : forall ts q0,
                deferred (foldl (fun p task => settle (promise task) (Rejected e) p) q0 ts)
                = deferred q0).
      { induction ts as [|a ts IH]; intros q0; [reflexivity |]. cbn [foldl]. rewrite IH.
        unfold settle. destruct (outcome _ _); reflexivity. }
      destruct (includes _ _); cbn [set_availableWorkers set_taskQueue deferred];
        apply Hd. }
    destruct (takeMessage w (inbox p)) as [[m rest]|]; rewrite H; reflexivity.
Qed.


(** ** The pool in use *)

(** The states of a pool in use: tasks are submitted with ids that no
    pending task has, the microtask queue runs, workers reply, and - when
    [faults] is set - workers of the pool fail. *)
Inductive traffic (faults : bool) : WorkerPool.t -> Prop :=
| traffic_new k : traffic faults (new k)
| traffic_executeTask r taskId now p :
    traffic faults p ->
    taskId ∉ (id <$> taskQueue p) ++ (dId <$> deferred p) ->
    traffic faults (fst (executeTask r taskId now p))
| traffic_runMicrotasks p :
    traffic faults p -> traffic faults (runMicrotasks p)
| traffic_Reply w now p :
    traffic faults p -> traffic faults (step (Reply w now) p)
| traffic_Fault w e p :
    faults = true -> traffic faults p -> w ∈ workers p ->
    traffic faults (step (Fault w e) p).

Lemma released_workConserving ds p w t q1 q2 o :
  Inv ds p -> workConserving p -> taskQueue p = q1 ++ t :: q2 -> worker t = Some w ->
  workConserving (processNextTask (released w t (q1 ++ q2) o p)).
Proof.
  intros HI Hwc Hq Hwt.
  apply (processNextTask_workConserving ds _ (released_Inv ds p w t q1 q2 o HI Hq Hwt)).
  cbn [released availableWorkers taskQueue].
  destruct Hwc as [Ha | Hall].
  - left. rewrite Ha. simpl. lia.
  - right. right. right. rewrite Hq in Hall. apply Forall_app in Hall.
    destruct Hall as [H1 H2]. apply Forall_cons in H2. destruct H2 as [_ H2].
    cbn [released taskQueue]. apply Forall_app. auto.
Qed.

Lemma traffic_Inv faults p :
  traffic faults p ->
  Inv (deferred p) p /\ (faults = false -> workConserving p).
Proof.
  induction 1 as [k | r taskId now p _ [HI Hwc] Hfresh | p _ [HI Hwc]
                  | w now p _ [HI Hwc] | w e p Hf _ [HI Hwc] Hw].
  - split; [apply Inv_new | intros _; left; reflexivity].
  - split; [apply executeTask_Inv; assumption |]. intros Hf. specialize (Hwc Hf).
    destruct (isInitialized p) eqn:Hini.
    + rewrite (executeTask_initialized r taskId now p Hini).
      apply (enqueue_workConserving (deferred p)); [| exact Hwc].
      exact (promised_Inv r taskId now p HI Hfresh Hini).
    + rewrite (executeTask_first r taskId now p HI Hini). right. constructor.
  - split; [apply runMicrotasks_Inv; exact HI |]. intros Hf. specialize (Hwc Hf).
    unfold runMicrotasks. apply (runMicrotasks_fold_workConserving (deferred p)).
    + destruct HI. split; assumption.
    + exact Hwc.
  - split.
    + rewrite step_deferred. apply step_Inv; [exact HI | intros; discriminate].
    + intros Hf. specialize (Hwc Hf).
      destruct (decide (w ∈ busy (taskQueue p))) as [Hw | Hw].
      * destruct (step_Reply_busy _ p w now HI Hw) as (q1 & t & q2 & Hq & Hwt & ->).
        apply (released_workConserving (deferred p)); assumption.
      * rewrite (step_Reply_idle _ p w now HI Hw). exact Hwc.
  - split; [| intros; congruence].
    rewrite step_deferred. apply step_Inv; [exact HI |]. intros w' e' [= -> ->]. exact Hw.
Qed.

(** X12: whatever the traffic, and also when workers fail: no worker is idle
    and busy at once or assigned to two tasks, and none is lost (the idle
    workers and the workers of the assigned tasks are, together, the
    pool's workers, each once); the unanswered messages are exactly those
    of the assigned tasks, in queue order, one each; the assigned tasks
    stand before the waiting ones, so tasks are started in the order they
    were submitted; every queued task's promise is pending; and the pool
    has its [maxWorkers] workers, at most 8, once it is initialized and
    none before. *)
Theorem traffic_keeps_workers (faults : bool) (p : WorkerPool.t) :
  traffic faults p ->
  NoDup (availableWorkers p ++ busy (taskQueue p))
  /\ availableWorkers p ++ busy (taskQueue p) ≡ₚ workers p
  /\ inbox p = posted (taskQueue p)
  /\ inOrder (taskQueue p)
  /\ (forall t, t ∈ taskQueue p -> outcome (promise t) p = None)
  /\ workers p = (if isInitialized p then seq 0 (maxWorkers p) else [])
  /\ maxWorkers p <= 8.
Proof.
  intros Ht. destruct (traffic_Inv faults p Ht) as [HI _].
  split; [apply (inv_nodup _ _ HI) |]. split; [apply (inv_perm _ _ HI) |].
  split; [apply (inv_inbox _ _ HI) |]. split; [apply (inv_order _ _ HI) |].
  split; [intros t Hin; apply (pending_task _ p t HI Hin) |].
  split; [| apply (inv_cap _ _ HI)].
  pose proof (inv_init _ _ HI) as Hinit. destruct (isInitialized p); tauto.
Qed.

Lemma flow_facts (p : WorkerPool.t) :
  traffic false p ->
  (forall t, t ∈ taskQueue p -> worker t = None -> availableWorkers p = [])
  /\ (1 <= maxWorkers p -> taskQueue p <> [] -> inbox p <> []).
Proof.
  intros Ht. destruct (traffic_Inv false p Ht) as [HI Hwc]. specialize (Hwc eq_refl).
  assert (Hwait : forall t, t ∈ taskQueue p -> worker t = None -> availableWorkers p = []).
  { intros t Hin Hw. destruct Hwc as [Ha | Hall]; [exact Ha |].
    rewrite Forall_forall in Hall. specialize (Hall t Hin).
    unfold unassigned in Hall. rewrite Hw in Hall. discriminate. }
  split; [exact Hwait |].
  intros Hk Hq Hbox.
  assert (Hb : busy (taskQueue p) = []).
  { rewrite <- busy_posted, <- (inv_inbox _ _ HI), Hbox. reflexivity. }
  destruct (taskQueue p) as [|t q] eqn:Eq; [congruence |].
  assert (Hwt : worker t = None).
  { destruct (worker t) as [w|] eqn:E; [| reflexivity].
    unfold busy in Hb. cbn [omap list_omap] in Hb. rewrite E in Hb. discriminate. }
  assert (Ha : availableWorkers p = []) by (apply (Hwait t); [left | exact Hwt]).
  pose proof (inv_perm _ _ HI) as Hperm. rewrite Ha, Eq, Hb in Hperm.
  pose proof (inv_init _ _ HI) as Hinit.
  destruct (isInitialized p).
  - rewrite Hinit in Hperm. apply Permutation_length in Hperm.
    rewrite length_seq in Hperm. simpl in Hperm. lia.
  - destruct Hinit as (_ & Hq0 & _). rewrite Eq in Hq0. discriminate.
Qed.


(** ** One reply *)

Lemma find_assigned q :
  Forall (fun t => unassigned t = false) q -> find unassigned q = None.
Proof.
  induction 1 as [|t q Ht _ IH]; [reflexivity |]. simpl. rewrite Ht. exact IH.
Qed.

Lemma outcome_processNextTask h p : outcome h (processNextTask p) = outcome h p.
Proof. unfold outcome. rewrite processNextTask_settled. reflexivity. Qed.

(** What one reply does to a pool in use. *)
Lemma reply_effect ds p w now :
  Inv ds p -> w ∈ busy (taskQueue p) ->
  let p' := step (Reply w now) p in
  exists q1 t q2,
    taskQueue p = q1 ++ t :: q2 /\ worker t = Some w
    /\ outcome (promise t) p' = Some (Fulfilled (onmessage now (request t)))
    /\ (forall h, h <> promise t -> outcome h p' = outcome h p)
    /\ match find unassigned (q1 ++ q2) with
       | Some next =>
           taskQueue p' = assignFirst w (q1 ++ q2)
           /\ availableWorkers p' = availableWorkers p
           /\ inbox p' = posted (q1 ++ q2) ++ [(w, mkMessage (request next) (id next))]
       | None =>
           taskQueue p' = q1 ++ q2
           /\ availableWorkers p' = availableWorkers p ++ [w]
           /\ inbox p' = posted (q1 ++ q2)
       end.
Proof.
  intros HI Hw p'.
  destruct (step_Reply_busy ds p w now HI Hw) as (q1 & t & q2 & Hq & Hwt & Hstep).
  fold p' in Hstep. exists q1, t, q2. split; [exact Hq |]. split; [exact Hwt |].
  set (o := Fulfilled (onmessage now (request t))) in *.
  destruct (pending_task ds p t HI) as [Hout _].
  { rewrite Hq. apply elem_of_app. right. left. }
  split.
  { rewrite Hstep, outcome_processNextTask, outcome_released, Hout, Nat.eqb_refl. reflexivity. }
  split.
  { intros h Hne. rewrite Hstep, outcome_processNextTask, outcome_released.
    destruct (outcome h p); [reflexivity |].
    destruct (Nat.eqb_spec (promise t) h); [congruence | reflexivity]. }
  pose proof (released_Inv ds p w t q1 q2 o HI Hq Hwt) as HI'.
  destruct (processNextTask_effect ds _ HI')
    as [[He Hc] | (rest & w' & qa & t' & qw & Ha & Hq' & Hqa & Hqw & He)];
    rewrite <- Hstep in He.
  - cbn [released availableWorkers taskQueue] in Hc.
    destruct Hc as [Hc | Hc]; [destruct (availableWorkers p); discriminate |].
    rewrite (find_assigned _ Hc), He. auto.
  - cbn [released availableWorkers taskQueue] in Ha, Hq'.
    apply app_inj_tail in Ha. destruct Ha as [<- <-].
    destruct (find_waiting qa (t' :: qw) Hqa) as [Hf Has].
    apply Forall_cons in Hqw. destruct Hqw as [Ht' _].
    rewrite Hq', Hf, Has. cbn [find assignFirst]. rewrite Ht', He.
    cbn [postMessage set_taskQueue set_availableWorkers released taskQueue availableWorkers
         inbox]. rewrite Hq'. auto.
Qed.

(** X14: in a pool in use, a reply of a worker [w] that holds a message
    fulfils the promise of exactly the task assigned to [w], with what the
    worker function makes of that task's request, and settles no other
    promise; the task leaves the queue; and [w] is handed the oldest
    waiting task at once, or becomes idle when no task waits. *)
Theorem reply_hands_over (faults : bool) (p : WorkerPool.t) (w : Worker) (now : nat -> number) :
  traffic faults p -> w ∈ busy (taskQueue p) ->
  let p' := step (Reply w now) p in
  exists q1 t q2,
    taskQueue p = q1 ++ t :: q2 /\ worker t = Some w
    /\ outcome (promise t) p' = Some (Fulfilled (onmessage now (request t)))
    /\ (forall h, h <> promise t -> outcome h p' = outcome h p)
    /\ match find unassigned (q1 ++ q2) with
       | Some next =>
           taskQueue p' = assignFirst w (q1 ++ q2)
           /\ availableWorkers p' = availableWorkers p
           /\ inbox p' = posted (q1 ++ q2) ++ [(w, mkMessage (request next) (id next))]
       | None =>
           taskQueue p' = q1 ++ q2
           /\ availableWorkers p' = availableWorkers p ++ [w]
           /\ inbox p' = posted (q1 ++ q2)
       end.
Proof.
  intros Ht Hw. destruct (traffic_Inv faults p Ht) as [HI _].
  exact (reply_effect (deferred p) p w now HI Hw).
Qed.


(** ** A pool that is left to finish *)

Lemma step_maxWorkers ev p : maxWorkers (step ev p) = maxWorkers p.
Proof.
  assert (Hs : forall h o q, maxWorkers (settle h o q) = maxWorkers q)
    by (intros h o q; unfold settle; destruct (outcome h q); reflexivity).
  destruct ev as [w now | w e]; unfold step.
  - destruct (takeMessage w (inbox p)) as [[m rest]|]; [| reflexivity].
    unfold handleWorkerMessage.
    match goal with |- maxWorkers (processNextTask ?x) = _ =>
      destruct (processNextTask_frame x) as (-> & _) end.
    cbn [msg_taskId set_inbox taskQueue].
    destruct (find _ _); destruct (includes _ _);
      cbn [set_availableWorkers maxWorkers]; rewrite ?Hs; reflexivity.
  - assert (H : forall q, maxWorkers (handleWorkerError w e q) = maxWorkers q).
    { intros q. unfold handleWorkerError.
      assert (Hd : forall ts q0,
                maxWorkers (foldl (fun p task => settle (promise task) (Rejected e) p) q0 ts)
                = maxWorkers q0).
      { induction ts as [|a ts IH]; intros q0; [reflexivity |]. cbn [foldl].
        rewrite IH. apply Hs. }
      destruct (includes _ _); cbn [set_availableWorkers set_taskQueue maxWorkers];
        apply Hd. }
    destruct (takeMessage w (inbox p)) as [[m rest]|]; rewrite H; reflexivity.
Qed.

Lemma run_replies_traffic faults sched p :
  traffic faults p ->
  traffic faults (run (replies sched) p)
  /\ maxWorkers (run (replies sched) p) = maxWorkers p
  /\ deferred (run (replies sched) p) = deferred p.
Proof.
  revert p. induction sched as [|[w now] sched IH]; intros p Ht; [auto |].
  unfold run, replies in *. rewrite fmap_cons. cbn [foldl fst snd].
  destruct (IH (step (Reply w now) p)) as (H1 & H2 & H3); [apply traffic_Reply; exact Ht |].
  split; [exact H1 |]. rewrite H2, H3, step_maxWorkers, step_deferred. auto.
Qed.

(** A task of the queue is accounted for: it is still queued, or its
    promise was fulfilled with the worker function's result for its
    request. *)
Definition accounted (t : Task) (p : WorkerPool.t) : Prop :=
  (exists t', t' ∈ taskQueue p /\ promise t' = promise t /\ request t' = request t)
  \/ (exists now, outcome (promise t) p = Some (Fulfilled (onmessage now (request t)))).

Lemma outcome_step_Reply ds p w now h o :
  Inv ds p -> outcome h p = Some o -> outcome h (step (Reply w now) p) = Some o.
Proof.
  intros HI Ho. destruct (decide (w ∈ busy (taskQueue p))) as [Hw | Hw].
  - destruct (step_Reply_busy ds p w now HI Hw) as (q1 & t & q2 & _ & _ & ->).
    rewrite outcome_processNextTask, outcome_released, Ho. reflexivity.
  - rewrite (step_Reply_idle ds p w now HI Hw). exact Ho.
Qed.

Lemma accounted_step ds p w now t :
  Inv ds p -> t ∈ taskQueue p -> accounted t (step (Reply w now) p).
Proof.
  intros HI Ht. destruct (decide (w ∈ busy (taskQueue p))) as [Hw | Hw].
  2:{ rewrite (step_Reply_idle ds p w now HI Hw). left. exists t. auto. }
  destruct (reply_effect ds p w now HI Hw) as (q1 & t0 & q2 & Hq & Hwt & Hful & _ & Hnext).
  rewrite Hq in Ht. apply elem_of_app in Ht. rewrite elem_of_cons in Ht.
  assert (Hcase : t = t0 \/ t ∈ q1 ++ q2).
  { destruct Ht as [Ht | [-> | Ht]]; [right | left | right]; try reflexivity;
      apply elem_of_app; auto. }
  destruct Hcase as [-> | Hin]; [right; exists now; exact Hful |].
  left. destruct (find unassigned (q1 ++ q2)) as [next|] eqn:Ef.
  - destruct Hnext as (-> & _ & _).
    clear Ef. induction (q1 ++ q2) as [|a q IH]; [apply elem_of_nil in Hin; contradiction |].
    cbn [assignFirst]. apply elem_of_cons in Hin. destruct (unassigned a).
    + destruct Hin as [-> | Hin].
      * exists (assign w a). split; [left | auto].
      * exists t. split; [right; exact Hin | auto].
    + destruct Hin as [-> | Hin].
      * exists a. split; [left | auto].
      * destruct (IH Hin) as (t' & Ht' & Hp & Hr). exists t'. split; [right; exact Ht' | auto].
  - destruct Hnext as (-> & _ & _). exists t. auto.
Qed.

Lemma accounted_run ds sched p t :
  Inv ds p -> accounted t p -> accounted t (run (replies sched) p).
Proof.
  revert p. induction sched as [|[w now] sched IH]; intros p HI Hacc; [exact Hacc |].
  unfold run, replies in *. rewrite fmap_cons. cbn [foldl fst snd].
  assert (HI' : Inv ds (step (Reply w now) p)) by (apply step_Inv; [exact HI | discriminate]).
  apply IH; [exact HI' |].
  destruct Hacc as [(t' & Ht' & Hp & Hr) | (now0 & Ho)].
  - destruct (accounted_step ds p w now t' HI Ht') as [(t'' & H1 & H2 & H3) | (now1 & Ho)].
    + left. exists t''. rewrite H2, H3. auto.
    + right. exists now1. rewrite <- Hp, <- Hr. exact Ho.
  - right. exists now0. apply (outcome_step_Reply ds); assumption.
Qed.

(** X13: while no worker fails, the pool wastes no worker and cannot get
    stuck: a task waits only while every worker is busy, and as long as
    tasks are queued (and the pool has a worker) some worker holds an
    unanswered message, so a reply is still to come. *)
Theorem flow_never_stalls (p : WorkerPool.t) :
  traffic false p ->
  (forall t, t ∈ taskQueue p -> worker t = None -> availableWorkers p = [])
  /\ (1 <= maxWorkers p -> taskQueue p <> [] -> inbox p <> []).
Proof. exact (flow_facts p). Qed.


(** X15: while no worker fails, no task is lost or answered with another
    task's result, whatever the load and the order of the replies: once
    the workers have answered every message they were sent, the queue is
    empty, every worker is idle, and the promise of every task that was
    queued is fulfilled with what the worker function makes of that task's
    own request. *)
Theorem flow_completes (p : WorkerPool.t) (sched : list (Worker * (nat -> number))) :
  traffic false p -> deferred p = [] -> 1 <= maxWorkers p ->
  let p' := run (replies sched) p in
  inbox p' = [] ->
  taskQueue p' = []
  /\ availableWorkers p' ≡ₚ workers p'
  /\ forall t, t ∈ taskQueue p ->
       exists now, outcome (promise t) p' = Some (Fulfilled (onmessage now (request t))).
Proof.
  intros Ht Hd Hk p' Hbox.
  destruct (run_replies_traffic false sched p Ht) as (Ht' & Hmw & _). fold p' in Ht', Hmw.
  destruct (traffic_Inv false p Ht) as [HI _].
  destruct (traffic_Inv false p' Ht') as [HI' _].
  destruct (flow_facts p' Ht') as [_ Hlive].
  assert (Hq : taskQueue p' = []).
  { destruct (taskQueue p') eqn:E; [reflexivity |]. exfalso.
    apply Hlive; [lia | discriminate | exact Hbox]. }
  split; [exact Hq |]. split.
  { pose proof (inv_perm _ _ HI') as Hperm. rewrite Hq in Hperm. cbn in Hperm.
    rewrite app_nil_r in Hperm. exact Hperm. }
  intros t Hin.
  assert (Hacc : accounted t p) by (left; exists t; auto).
  destruct (accounted_run (deferred p) sched p t HI Hacc) as [(t' & Ht1 & _) | H].
  - fold p' in Ht1. rewrite Hq in Ht1. apply elem_of_nil in Ht1. contradiction.
  - exact H.
Qed.

(** ** A worker that fails *)

Definition ofPool (p : WorkerPool.t) (ev : Event) : Prop :=
  match ev with
  | Reply _ _ => True
  | Fault w _ => w ∈ workers p
  end.

(** X16: [handleWorkerError] does not dispatch. After the failure of a busy
    worker [w], [w] is idle while every task that waited still waits, and
    the promises of the tasks of the other workers are still pending. If
    no other worker is busy at that moment (as in a pool of one worker),
    nothing that the workers do afterwards changes the pool: the waiting
    tasks are not started until another task is submitted. *)
Theorem fault_strands_queue (faults : bool) (p : WorkerPool.t) (w : Worker) (e : Error) :
  traffic faults p -> w ∈ busy (taskQueue p) ->
  let p' := step (Fault w e) p in
  w ∈ availableWorkers p'
  /\ (forall t, t ∈ taskQueue p -> worker t = None ->
        t ∈ taskQueue p' /\ outcome (promise t) p' = None)
  /\ (forall t, t ∈ taskQueue p -> worker t = Some w ->
        outcome (promise t) p' = Some (Rejected e))
  /\ (busy (taskQueue p') = [] ->
        forall evs, Forall (ofPool p) evs -> run evs p' = p').
Proof.
  intros Ht Hw p'. destruct (traffic_Inv faults p Ht) as [HI _].
  destruct (step_Fault_busy (deferred p) p w e HI Hw) as (q1 & t0 & q2 & Hq & Hwt & Hstep).
  fold p' in Hstep.
  pose proof (released_Inv (deferred p) p w t0 q1 q2 (Rejected e) HI Hq Hwt) as HI'.
  rewrite <- Hstep in HI'.
  assert (Hin0 : t0 ∈ taskQueue p) by (rewrite Hq; apply elem_of_app; right; left).
  split.
  { rewrite Hstep. cbn [released availableWorkers]. apply elem_of_app. right. left. }
  split.
  { intros t Hin Hnone.
    assert (Hne : t <> t0) by (intros ->; congruence).
    split.
    - rewrite Hstep. cbn [released taskQueue]. rewrite Hq in Hin.
      apply elem_of_app in Hin. rewrite elem_of_cons in Hin. apply elem_of_app.
      destruct Hin as [Hin | [-> | Hin]]; [auto | contradiction | auto].
    - rewrite Hstep, outcome_released.
      destruct (pending_task _ p t HI Hin) as [-> _].
      destruct (Nat.eqb_spec (promise t0) (promise t)) as [E | _]; [| reflexivity].
      exfalso. apply Hne. pose proof (inv_promises _ _ HI) as Hnd.
      apply NoDup_app in Hnd. destruct Hnd as (Hnd & _).
      symmetry in E. apply (NoDup_fmap_eq promise (taskQueue p) t t0 Hnd Hin Hin0 E). }
  split.
  { intros t Hin Hsome.
    assert (t = t0) as ->.
    { destruct (own_task _ p w HI Hw) as (q1' & t1 & q2' & Hq' & Hwt1 & _ & Hnb & _).
      assert (Hone : forall x, x ∈ taskQueue p -> worker x = Some w -> x = t1).
      { intros x Hx Hwx. rewrite Hq' in Hx. apply elem_of_app in Hx.
        rewrite elem_of_cons in Hx.
        destruct Hx as [Hx | [-> | Hx]]; [| reflexivity |]; exfalso; apply Hnb;
          apply busy_elem; exists x; (split; [apply elem_of_app; auto | exact Hwx]). }
      rewrite (Hone t Hin Hsome), (Hone t0 Hin0 Hwt). reflexivity. }
    rewrite Hstep, outcome_released.
    destruct (pending_task _ p t0 HI Hin0) as [-> _]. rewrite Nat.eqb_refl. reflexivity. }
  intros Hidle evs Hevs.
  assert (Hw' : workers p' = workers p) by (rewrite Hstep; reflexivity).
  induction Hevs as [|ev evs Hev _ IH]; [reflexivity |].
  unfold run in *. cbn [foldl].
  assert (Hsame : step ev p' = p').
  { destruct ev as [w' now | w' e'].
    - apply (step_Reply_idle (deferred p)); [exact HI' |]. rewrite Hidle. apply not_elem_of_nil.
    - apply (step_Fault_idle (deferred p)); [exact HI' | rewrite Hidle; apply not_elem_of_nil |].
      cbn [ofPool] in Hev. rewrite <- Hw' in Hev.
      destruct (worker_idle_or_busy _ p' w' HI' Hev) as [H | H]; [exact H |].
      rewrite Hidle in H. apply elem_of_nil in H. contradiction. }
  rewrite Hsame. exact IH.
Qed.

(** ** A pool that is terminated *)

(** X17: [terminate] drops the queued tasks without settling their promises,
    and no reply or fault that comes afterwards settles any promise: a
    promise that was pending when the pool was terminated stays pending
    until the pool is used again. *)
Theorem terminate_abandons_promises (p : WorkerPool.t) (evs : list Event) :
  let p' := run evs (terminate p) in
  taskQueue p' = [] /\ inbox p' = []
  /\ forall h, outcome h p' = outcome h p.
Proof.
  cbv zeta.
  assert (H : forall q, taskQueue q = [] -> inbox q = [] ->
                taskQueue (run evs q) = [] /\ inbox (run evs q) = []
                /\ settled (run evs q) = settled q).
  { induction evs as [|ev evs IH]; intros q Hq Hb; [auto |].
    unfold run in *. cbn [foldl].
    assert (Hs : taskQueue (step ev q) = [] /\ inbox (step ev q) = []
                 /\ settled (step ev q) = settled q).
    { destruct ev as [w now | w e]; unfold step; rewrite Hb; cbn [takeMessage]; [auto |].
      unfold handleWorkerError. rewrite Hq, filter_nil. cbn [foldl].
      destruct (includes _ _); cbn [set_taskQueue set_availableWorkers taskQueue inbox settled];
        rewrite ?Hq, ?filter_nil; auto. }
    destruct Hs as (Hq' & Hb' & Hs'). destruct (IH _ Hq' Hb') as (H1 & H2 & H3).
    rewrite H3. auto. }
  destruct (H (terminate p) eq_refl eq_refl) as (H1 & H2 & H3).
  split; [exact H1 |]. split; [exact H2 |].
  intros h. unfold outcome. rewrite H3. reflexivity.
Qed.

(** ** The metrics *)

Lemma utilization_range :
  forallb (fun n => forallb (fun a =>
             let u := ((of_nat n - of_nat a) / of_nat n * 100)%float in
             (0 <=? u)%float && (u <=? 100)%float)
           (seq 0 (S n)))
          (seq 1 8) = true.
Proof. vm_compute. reflexivity. Qed.

Lemma length_filter_unassigned (q : list Task) :
  length (List.filter (fun task => negb (unassigned task)) q) = length (busy q)
  /\ length (List.filter unassigned q) + length (busy q) = length q.
Proof.
  induction q as [|t q [IH1 IH2]]; [split; reflexivity |].
  unfold busy in *. cbn [List.filter omap list_omap].
  assert (Hu : unassigned t = match worker t with Some _ => false | None => true end)
    by reflexivity.
  rewrite Hu. destruct (worker t); cbn [negb length]; split; lia.
Qed.

(** X18: the metrics of a pool in use add up: the active tasks are as many as
    the workers that are not idle, and queued and active tasks together
    are the queue. The utilization is a percentage between 0 and 100 once
    the pool has workers, and [NaN] (the quotient [0/0]) before its first
    task, when it has none. *)
Theorem metrics_add_up (faults : bool) (now : number) (p : WorkerPool.t) :
  traffic faults p ->
  let m := getPerformanceMetrics now p in
  activeTasks m + idleWorkers m = totalWorkers m
  /\ queuedTasks m + activeTasks m = getQueueLength p
  /\ (totalWorkers m = 0 -> utilization m = nan)
  /\ (0 < totalWorkers m ->
        (0 <=? utilization m)%float = true /\ (utilization m <=? 100)%float = true).
Proof.
  intros Ht m. destruct (traffic_Inv faults p Ht) as [HI _].
  destruct (length_filter_unassigned (taskQueue p)) as [Hact Hsum].
  pose proof (Permutation_length (inv_perm _ _ HI)) as Hlen. rewrite length_app in Hlen.
  unfold m, getPerformanceMetrics, getQueueLength.
  cbn [activeTasks idleWorkers totalWorkers queuedTasks utilization].
  rewrite Hact. split; [lia |]. split; [lia |].
  unfold getWorkerUtilization.
  assert (Hn : length (workers p) <= 8).
  { pose proof (inv_init _ _ HI) as Hinit. pose proof (inv_cap _ _ HI).
    destruct (isInitialized p); [rewrite Hinit, length_seq; lia |].
    destruct Hinit as (-> & _). simpl. lia. }
  split.
  - intros H0. rewrite H0. assert (Ha : length (availableWorkers p) = 0) by lia.
    rewrite Ha. reflexivity.
  - intros Hpos. pose proof utilization_range as Hr. rewrite forallb_forall in Hr.
    specialize (Hr (length (workers p))). rewrite forallb_forall in Hr.
    specialize (Hr ltac:(apply in_seq; lia) (length (availableWorkers p))
                   ltac:(apply in_seq; lia)).
    cbv zeta in Hr. apply andb_true_iff in Hr. exact Hr.
Qed.

End Events.

End PoolTraffic.

(** ** A pool of one worker with two tasks *)

Module PoolTrafficExamples.
Import JS WorkerPool PoolFacts PoolTraffic.
Local Open Scope nat_scope.

Definition speck : Particle.t :=
  Particle.mk 30%float 50%float 0%float 0%float 1%float 0%float 1%float.

Definition firstRequest : Request := spatialHash_req [speck] 20%float.
Definition secondRequest : Request := spatialHash_req [speck; speck] 20%float.

(** Two calls of [executeTask] in one script on a new pool of one worker,
    and the microtasks that follow. The first call waits for the pool to
    start, so the second call's task is queued first and gets the
    worker. *)
Definition twoTasks : WorkerPool.t :=
  runMicrotasks
    (fst (executeTask secondRequest (tally 1) 0%float
            (fst (executeTask firstRequest (tally 0) 0%float (new 1))))).

Lemma twoTasks_traffic faults : traffic (M := SimulationExamples.sampleMath) faults twoTasks.
Proof.
  unfold twoTasks. apply traffic_runMicrotasks. apply traffic_executeTask.
  - apply traffic_executeTask; [apply traffic_new |].
    intros H. vm_compute in H. apply elem_of_nil in H. exact H.
  - intros H. vm_compute in H. apply elem_of_cons in H.
    destruct H as [H | H]; [discriminate | apply elem_of_nil in H; exact H].
Qed.

Lemma twoTasks_queue :
  (fun t => (id t, worker t)) <$> taskQueue twoTasks = [(tally 1, Some 0); (tally 0, None)]
  /\ busy (taskQueue twoTasks) = [0]
  /\ deferred twoTasks = [] /\ maxWorkers twoTasks = 1.
Proof. vm_compute. repeat split; reflexivity. Qed.

Definition clock : nat -> number := fun _ => 0%float.

Lemma traffic_keeps_workers_witness :
  availableWorkers twoTasks ++ busy (taskQueue twoTasks) ≡ₚ workers twoTasks
  /\ inbox twoTasks = posted (taskQueue twoTasks).
Proof.
  destruct (traffic_keeps_workers (M := SimulationExamples.sampleMath) false twoTasks
              (twoTasks_traffic false)) as (_ & Hp & Hb & _).
  split; [exact Hp | exact Hb].
Defined.

Lemma flow_never_stalls_witness : inbox twoTasks <> [].
Proof.
  destruct (flow_never_stalls (M := SimulationExamples.sampleMath) twoTasks
              (twoTasks_traffic false)) as [_ H].
  apply H; [vm_compute; lia | vm_compute; discriminate].
Defined.

Lemma busy_twoTasks : 0 ∈ busy (taskQueue twoTasks).
Proof. destruct twoTasks_queue as (_ & -> & _). left. Qed.

Lemma reply_hands_over_witness :
  let p' := step (M := SimulationExamples.sampleMath) (Reply 0 clock) twoTasks in
  exists t, t ∈ taskQueue twoTasks /\ worker t = Some 0
            /\ outcome (promise t) p'
               = Some (Fulfilled (onmessage (M := SimulationExamples.sampleMath) clock
                                    (request t))).
Proof.
  destruct (reply_hands_over (M := SimulationExamples.sampleMath) false twoTasks 0 clock
              (twoTasks_traffic false) busy_twoTasks) as (q1 & t & q2 & Hq & Hw & Ho & _).
  exists t. split; [rewrite Hq; apply elem_of_app; right; left |]. split; [exact Hw | exact Ho].
Defined.

Lemma flow_completes_witness :
  let p' := run (M := SimulationExamples.sampleMath) (replies [(0, clock); (0, clock)])
              twoTasks in
  taskQueue p' = []
  /\ forall t, t ∈ taskQueue twoTasks ->
       exists now, outcome (promise t) p'
                   = Some (Fulfilled (onmessage (M := SimulationExamples.sampleMath) now
                                        (request t))).
Proof.
  destruct (flow_completes (M := SimulationExamples.sampleMath) twoTasks
              [(0, clock); (0, clock)] (twoTasks_traffic false))
    as (Hq & _ & Hall); [reflexivity | vm_compute; lia | vm_compute; reflexivity |].
  split; [exact Hq | exact Hall].
Defined.

(** When the only worker fails on the second call's task, the first
    call's task is never started, whatever the worker does next. *)
Lemma fault_strands_queue_witness :
  let p' := step (M := SimulationExamples.sampleMath) (Fault 0 "boom") twoTasks in
  availableWorkers p' = [0]
  /\ (fun t => (id t, worker t)) <$> taskQueue p' = [(tally 0, None)]
  /\ run (M := SimulationExamples.sampleMath) [Reply 0 clock; Fault 0 "again"; Reply 0 clock] p'
     = p'.
Proof.
  destruct (fault_strands_queue (M := SimulationExamples.sampleMath) false twoTasks 0 "boom"
              (twoTasks_traffic false) busy_twoTasks) as (_ & _ & _ & Hstuck).
  split; [vm_compute; reflexivity |]. split; [vm_compute; reflexivity |].
  apply Hstuck; [vm_compute; reflexivity |].
  repeat constructor.
Defined.

Lemma metrics_add_up_witness :
  let m := getPerformanceMetrics 5%float twoTasks in
  activeTasks m = 1 /\ queuedTasks m = 1 /\ idleWorkers m = 0
  /\ utilization m = 100%float
  /\ utilization (getPerformanceMetrics 5%float (new 4)) = nan.
Proof.
  destruct (metrics_add_up (M := SimulationExamples.sampleMath) false 5%float twoTasks
              (twoTasks_traffic false)) as (_ & _ & _ & _).
  destruct (metrics_add_up (M := SimulationExamples.sampleMath) false 5%float (new 4)
              (traffic_new false 4)) as (_ & _ & Hnan & _).
  split; [reflexivity |]. split; [reflexivity |]. split; [reflexivity |].
  split; [vm_compute; reflexivity |]. apply Hnan. reflexivity.
Defined.

End PoolTrafficExamples.

(** * The monitor's record of frame times *)

Module MonitorFacts.
Import JS PerformanceMonitor.
Local Open Scope nat_scope.

(** Checking the thresholds touches nothing but the list of calls. *)
Definition sameRecord (m' m : t) : Prop :=
  frameCount m' = frameCount m /\ lastTime m' = lastTime m /\ fps m' = fps m
  /\ frameTimes m' = frameTimes m /\ maxFrameHistory m' = maxFrameHistory m
  /\ isRunning m' = isRunning m /\ frameTime m' = frameTime m.

Lemma sameRecord_trigger c data m' m :
  sameRecord m' m -> sameRecord (triggerCallback c data m') m.
Proof. intros H. unfold triggerCallback. destruct (registered c m'); exact H. Qed.

Lemma checkPerformanceThresholds_record (m : t) : sameRecord (checkPerformanceThresholds m) m.
Proof.
  assert (Hrefl : sameRecord m m) by (repeat split; reflexivity).
  unfold checkPerformanceThresholds.
  match goal with |- context [gpuMemory ?x] => set (m1 := x) end.
  assert (H1 : sameRecord m1 m).
  { unfold m1. destruct (criticalFrameTime _ <? _)%float; [apply sameRecord_trigger, Hrefl |].
    destruct (maxFrameTime _ <? _)%float; [apply sameRecord_trigger |]; exact Hrefl. }
  clearbody m1.
  destruct (memoryCritical _ <? _)%float; [apply sameRecord_trigger; exact H1 |].
  destruct (memoryWarning _ <? _)%float; [apply sameRecord_trigger |]; exact H1.
Qed.

(** The last 60 entries of a list. *)
Definition last60 (l : list number) : list number := drop (length l - 60) l.

(** A frame recorded by a running monitor. *)
Lemma recordFrame_running (currentTime : number) (m : t) :
  isRunning m = true -> maxFrameHistory m = 60 -> length (frameTimes m) <= 60 ->
  let m' := recordFrame currentTime m in
  let deltaTime := (currentTime - lastTime m)%float in
  isRunning m' = true /\ maxFrameHistory m' = 60
  /\ frameTimes m' = last60 (frameTimes m ++ [deltaTime])
  /\ ((1000 <=? deltaTime)%float = false ->
      lastTime m' = lastTime m /\ fps m' = fps m /\ frameCount m' = S (frameCount m)).
Proof.
  intros Hr Hm Hl. cbv zeta. unfold recordFrame. rewrite Hr, Hm. cbn [negb].
  match goal with
  | |- context [checkPerformanceThresholds ?x] =>
      destruct (checkPerformanceThresholds_record x) as (-> & -> & -> & -> & -> & -> & _)
  end.
  cbn [frameCount lastTime fps frameTimes maxFrameHistory isRunning].
  repeat split; try assumption.
  - unfold last60. rewrite length_app. cbn [length].
    destruct (Nat.ltb_spec 60 (length (frameTimes m) + 1)) as [H | H].
    + f_equal. lia.
    + replace (length (frameTimes m) + 1 - 60) with 0 by lia. reflexivity.
  - rewrite H. reflexivity.
  - rewrite H. reflexivity.
  - rewrite H. reflexivity.
Qed.

Lemma length_last60 l : length (last60 l) <= 60.
Proof. unfold last60. rewrite length_drop. lia. Qed.

Lemma last60_app l r : last60 (last60 l ++ r) = last60 (l ++ r).
Proof.
  unfold last60. rewrite !length_app, length_drop.
  destruct (Nat.le_gt_cases (length l) 60) as [H | H].
  - replace (length l - 60) with 0 by lia. rewrite Nat.sub_0_r. reflexivity.
  - rewrite <- (drop_app_le l r (length l - 60)) by lia.
    rewrite drop_drop. f_equal. lia.
Qed.

(** The monitors that an application can hold. *)
Inductive monitored : t -> Prop :=
| monitored_new : monitored new
| monitored_start now baseLatency m : monitored m -> monitored (start now baseLatency m)
| monitored_stop m : monitored m -> monitored (stop m)
| monitored_recordFrame currentTime m : monitored m -> monitored (recordFrame currentTime m)
| monitored_memoryTick usedJSHeapSize m : monitored m -> monitored (memoryTick usedJSHeapSize m)
| monitored_cpuTick m : monitored m -> monitored (cpuTick m)
| monitored_register c callback m : monitored m -> monitored (register c callback m).

Lemma monitored_history m :
  monitored m -> maxFrameHistory m = 60 /\ length (frameTimes m) <= 60.
Proof.
  induction 1 as [| now baseLatency m _ IH | m _ IH | currentTime m _ IH
                  | usedJSHeapSize m _ IH | m _ IH | c callback m _ IH];
    try exact IH.
  - split; [reflexivity | apply Nat.le_0_l].
  - destruct IH as [Hm Hl]. destruct (isRunning m) eqn:Er.
    + destruct (recordFrame_running currentTime m Er Hm Hl) as (_ & Hm' & -> & _).
      split; [exact Hm' | apply length_last60].
    + unfold recordFrame. rewrite Er. split; assumption.
  - unfold cpuTick. destruct (frameTimes m) eqn:E; [rewrite E |]; exact IH.
Qed.

(** X19: the history of frame times never holds more than 60 entries. *)
Theorem frameTimes_bounded (m : t) : monitored m -> length (frameTimes m) <= 60.
Proof. intros H. exact (proj2 (monitored_history m H)). Qed.

Lemma recordFrame_frames (ts : list number) :
  forall m : t,
    isRunning m = true -> maxFrameHistory m = 60 -> length (frameTimes m) <= 60 ->
    Forall (fun t => (1000 <=? t - lastTime m)%float = false) ts ->
    let m' := foldl (fun m t => recordFrame t m) m ts in
    isRunning m' = true /\ lastTime m' = lastTime m /\ fps m' = fps m
    /\ frameCount m' = frameCount m + length ts
    /\ frameTimes m' = last60 (frameTimes m ++ ((fun t => (t - lastTime m)%float) <$> ts)).
Proof.
  induction ts as [| t ts IH]; intros m Hr Hm Hl Hts; cbv zeta.
  - cbn [foldl fmap list_fmap length]. rewrite app_nil_r, Nat.add_0_r.
    repeat split; try assumption. unfold last60.
    replace (length (frameTimes m) - 60) with 0 by lia. reflexivity.
  - apply Forall_cons in Hts as [Ht Hts].
    destruct (recordFrame_running t m Hr Hm Hl) as (Hr' & Hm' & Hf' & Hearly).
    destruct (Hearly Ht) as (Hlast & Hfps & Hcount).
    cbn [foldl]. specialize (IH (recordFrame t m) Hr' Hm').
    cbv zeta in IH. rewrite Hlast, Hfps, Hcount, Hf' in IH.
    destruct IH as (-> & -> & -> & -> & ->); [apply length_last60 | exact Hts |].
    repeat split.
    + cbn [length]. lia.
    + rewrite last60_app. rewrite <- app_assoc. reflexivity.
Qed.

(** X20: the monitor takes the time of a frame from the moment of its last
    measurement of the frame rate, not from the frame before: of the
    frames recorded within a second of that measurement each one enters
    the history with the time elapsed since the measurement, so the
    recorded frame times grow through the second whatever the pace of the
    frames. *)
Theorem recordFrame_measures_from_fps_update (ts : list number) (m : t) :
  monitored m -> isRunning m = true ->
  Forall (fun t => (1000 <=? t - lastTime m)%float = false) ts ->
  let m' := foldl (fun m t => recordFrame t m) m ts in
  lastTime m' = lastTime m
  /\ frameTimes m' = last60 (frameTimes m ++ ((fun t => (t - lastTime m)%float) <$> ts))
  /\ (forall t, last ts = Some t -> frameTime m' = (t - lastTime m)%float).
Proof.
  intros Hmon Hr Hts. destruct (monitored_history m Hmon) as [Hm Hl].
  destruct (recordFrame_frames ts m Hr Hm Hl Hts) as (_ & Hlast & _ & _ & Hf).
  cbv zeta. split; [exact Hlast |]. split; [exact Hf |].
  intros t Ht. destruct ts as [| t0 ts0] using rev_ind; [discriminate |].
  rewrite last_snoc in Ht. injection Ht as ->.
  rewrite foldl_app. cbn [foldl].
  apply Forall_app in Hts as [Hts _].
  destruct (recordFrame_frames ts0 m Hr Hm Hl Hts) as (Hr1 & Hlast1 & _ & _ & _).
  cbv zeta in Hr1, Hlast1. rewrite <- Hlast1.
  set (m1 := foldl (fun m t => recordFrame t m) m ts0) in *.
  unfold recordFrame. rewrite Hr1. cbn [negb].
  match goal with
  | |- context [checkPerformanceThresholds ?x] =>
      destruct (checkPerformanceThresholds_record x) as (_ & _ & _ & _ & _ & _ & ->)
  end.
  reflexivity.
Qed.

End MonitorFacts.

Module MonitorExamples.
Import JS PerformanceMonitor MonitorFacts.

(** A monitor started at time 0 and three frames, 10 ms apart. *)
Definition watching : t := start 0%float None new.

Lemma watching_monitored : monitored watching.
Proof. apply monitored_start. exact monitored_new. Defined.

Lemma frameTimes_bounded_witness :
  (length (frameTimes (recordFrame 10%float watching)) <= 60)%nat.
Proof.
  apply (frameTimes_bounded (recordFrame 10%float watching)).
  apply monitored_recordFrame. exact watching_monitored.
Defined.

Lemma recordFrame_measures_from_fps_update_witness :
  let m' := foldl (fun m t => recordFrame t m) watching [10; 20; 30]%float in
  lastTime m' = 0%float /\ frameTimes m' = [10; 20; 30]%float /\ frameTime m' = 30%float.
Proof.
  destruct (recordFrame_measures_from_fps_update [10; 20; 30]%float watching)
    as (H1 & H2 & H3).
  - exact watching_monitored.
  - reflexivity.
  - repeat constructor.
  - cbv zeta. split; [exact H1 |]. split; [exact H2 |]. exact (H3 30%float eq_refl).
Defined.

End MonitorExamples.

(** * The audio analysis: properties *)

(** ** Properties of the audio analysis *)

Module AudioFacts.
Import JS AudioProcessor.
Local Open Scope nat_scope.

Lemma assoc_get_set_eq k v m : assoc_get k (assoc_set k v m) = Some v.
Proof.
  induction m as [|[k' v'] m IH]; cbn [assoc_set assoc_get].
  - rewrite String.eqb_refl. reflexivity.
  - destruct (String.eqb k' k) eqn:E; cbn [assoc_get].
    + rewrite String.eqb_refl. reflexivity.
    + rewrite E. exact IH.
Qed.

Lemma assoc_get_set_ne k k' v m : k' <> k -> assoc_get k (assoc_set k' v m) = assoc_get k m.
Proof.
  intros Hne. induction m as [|[k0 v0] m IH]; cbn [assoc_set assoc_get].
  - destruct (String.eqb_spec k' k); [contradiction | reflexivity].
  - destruct (String.eqb_spec k0 k') as [-> | Hne0]; cbn [assoc_get].
    + destruct (String.eqb_spec k' k); [contradiction | reflexivity].
    + destruct (String.eqb k0 k); [reflexivity | exact IH].
Qed.

(** The numbers below [n], in order. *)
Definition table (n : nat) : list number := of_nat <$> seq 0 n.

(** [row fs bs sums]: adding [fs] to the entries of [bs] gives the
    entries of [sums], one by one; [rows] does so for every [fs] of a
    list, against [sums] shifted by one entry each time. *)
Fixpoint row (fs : number) (bs sums : list number) : bool :=
  match bs, sums with
  | [], _ => true
  | b :: bs', x :: sums' => PrimFloat.Leibniz.eqb (fs + b)%float x && row fs bs' sums'
  | _ :: _, [] => false
  end.

Fixpoint rows (ss bs sums : list number) : bool :=
  match ss, sums with
  | [], _ => true
  | s :: ss', _ :: sums' => row s bs sums && rows ss' bs sums'
  | _ :: _, [] => false
  end.

Lemma row_spec fs bs : forall sums b fb,
  row fs bs sums = true -> bs !! b = Some fb -> sums !! b = Some (fs + fb)%float.
Proof.
  induction bs as [| b0 bs IH]; intros sums b fb H Hb; [discriminate |].
  destruct sums as [| x sums]; [discriminate |]. cbn [row] in H.
  apply andb_prop in H as [Hx H]. apply Leibniz.eqb_spec in Hx.
  destruct b as [| b]; cbn in Hb |- *.
  - injection Hb as <-. rewrite Hx. reflexivity.
  - exact (IH sums b fb H Hb).
Qed.

Lemma rows_spec bs ss : forall sums s fs,
  rows ss bs sums = true -> ss !! s = Some fs -> row fs bs (drop s sums) = true.
Proof.
  induction ss as [| s0 ss IH]; intros sums s fs H Hs; [discriminate |].
  destruct sums as [| x sums]; [discriminate |]. cbn [rows] in H.
  apply andb_prop in H as [Hx H].
  destruct s as [| s]; cbn in Hs |- *.
  - injection Hs as <-. exact Hx.
  - exact (IH sums s fs H Hs).
Qed.

Lemma table_lookup n i : i < n -> table n !! i = Some (of_nat i).
Proof.
  intros H. unfold table. rewrite list_lookup_fmap, lookup_seq_lt by lia. reflexivity.
Qed.

(** Adding a bin to a sum of at most three bins is exact. *)
Lemma add_bins_exact (s b : nat) :
  s <= 765 -> b <= 255 -> (of_nat s + of_nat b)%float = of_nat (s + b).
Proof.
  intros Hs Hb.
  assert (H : rows (take 766 (table 1021)) (take 256 (table 1021)) (table 1021) = true)
    by (vm_compute; reflexivity).
  pose proof (rows_spec _ _ _ s (of_nat s) H) as Hrow.
  rewrite lookup_take_lt, table_lookup in Hrow by lia. specialize (Hrow eq_refl).
  pose proof (row_spec _ _ _ b (of_nat b) Hrow) as Hsum.
  rewrite lookup_take_lt, table_lookup in Hsum by lia. specialize (Hsum eq_refl).
  rewrite lookup_drop, table_lookup in Hsum by lia. congruence.
Qed.

Lemma sum_bins_exact (l : list Byte.byte) :
  length l <= 4 ->
  exists s, s <= 255 * length l
            /\ foldl (fun sum b => (sum + bin b)%float) 0%float l = of_nat s.
Proof.
  induction l as [|b l IH] using rev_ind; intros Hl.
  - exists 0. split; [simpl; lia | reflexivity].
  - rewrite length_app in Hl. simpl in Hl. destruct IH as (s & Hs & Hsum); [lia |].
    pose proof (Byte.to_nat_bounded b) as Hb.
    exists (s + Byte.to_nat b). rewrite length_app. simpl. split; [lia |].
    rewrite foldl_app. cbn [foldl]. rewrite Hsum. unfold bin.
    apply add_bins_exact; lia.
Qed.

(** No level that the bass band can take exceeds 1.05 times itself. *)
Lemma bass_levels_quiet (s : nat) :
  s <= 1020 ->
  let level := or_zero (Some (of_nat s / (of_nat 4 - of_nat 0) / 255)%float) in
  (level * 0.7 * 1.5 <? level)%float = false.
Proof.
  intros Hs.
  assert (H : forallb (fun s =>
                 let level := or_zero (Some (of_nat s / (of_nat 4 - of_nat 0) / 255)%float) in
                 negb (level * 0.7 * 1.5 <? level)%float) (seq 0 1021) = true)
    by (vm_compute; reflexivity).
  rewrite forallb_forall in H. specialize (H s ltac:(apply in_seq; lia)).
  cbv zeta in *. apply negb_true_iff in H. exact H.
Qed.

Definition defaultBands : list (string * (nat * nat)) :=
  [("bass", (0, 4)); ("lowMid", (4, 16)); ("mid", (16, 64)); ("highMid", (64, 128));
   ("treble", (128, 256))].

(** The band levels after an analysis of the data [d] with the five
    bands: every band holds its own level. *)
Lemma analyzeFrequencyBands_default a d :
  frequencyBands a = defaultBands -> frequencyData a = Some d ->
  exists levels,
    analyzeFrequencyBands a
    = Some (mk (analyser a) (frequencyData a) (timeData a) (isInitialized a) (isRunning a)
               (currentLevel a) (peakLevel a) (levelHistory a) (maxLevelHistory a)
               (frequencyBands a) levels)
    /\ (forall band, band ∈ defaultBands ->
          Some <$> assoc_get (fst band) levels = Some (bandLevel (Some d) (snd band))).
Proof.
  intros Hb Hd. unfold analyzeFrequencyBands. rewrite Hb, Hd. unfold defaultBands.
  cbn [forM bandLevel fst snd Nat.ltb Nat.leb mbind option_bind].
  eexists. split; [reflexivity |].
  intros band Hin. unfold defaultBands in Hin.
  repeat (apply elem_of_cons in Hin; destruct Hin as [-> | Hin]);
    [.. | apply elem_of_nil in Hin; contradiction];
    cbn [fst snd bandLevel Nat.ltb Nat.leb mbind option_bind fmap option_fmap option_map];
    repeat (rewrite assoc_get_set_ne by discriminate);
    rewrite assoc_get_set_eq; reflexivity.
Qed.

Lemma length_fill data array : length (fill data array) = length array.
Proof. unfold fill. rewrite length_app, length_take, length_drop. lia. Qed.

(** The processors that a page can hold: built by the constructor and then
    driven through [initialize] (returning or throwing), [start], [stop]
    and the timer's calls of [processAudioData] that return. *)
Inductive used : t -> Prop :=
| used_new : used new
| used_initialize n source a : used a -> used (fst (initialize n source a))
| used_start a : used a -> used (start a)
| used_stop a : used a -> used (stop a)
| used_processAudioData freq time a a' :
    used a -> processAudioData freq time a = Some a' -> used a'.

(** The level of the bass band is absent or the mean of four bins. *)
Definition bassOfBins (a : t) : Prop :=
  assoc_get "bass" (bandLevels a) = None
  \/ exists s, s <= 1020
       /\ assoc_get "bass" (bandLevels a) = Some (of_nat s / (of_nat 4 - of_nat 0) / 255)%float.

Record sound (a : t) : Prop := {
  sound_bands : frequencyBands a = defaultBands;
  sound_running : isRunning a = true -> isInitialized a = true;
  sound_analyser : isInitialized a = true -> analyser a = true;
  sound_arrays : analyser a = true -> is_Some (frequencyData a) /\ is_Some (timeData a);
  sound_bass : bassOfBins a;
  sound_max : maxLevelHistory a = 100;
  sound_history : length (levelHistory a) <= 100
}.

(** What a call of [processAudioData] on a running processor leaves. *)
Lemma processAudioData_running freq time a fd :
  sound a -> isRunning a = true -> frequencyData a = Some fd ->
  exists td levels level peak,
    timeData a = Some td
    /\ processAudioData freq time a
       = Some (updateLevelHistory
                 (mk (analyser a) (Some (fill freq fd)) (Some (fill time td))
                     (isInitialized a) (isRunning a) level peak (levelHistory a)
                     (maxLevelHistory a) (frequencyBands a) levels))
    /\ (forall band, band ∈ defaultBands ->
          Some <$> assoc_get (fst band) levels
          = Some (bandLevel (Some (fill freq fd)) (snd band))).
Proof.
  intros Hs Hr Hfd.
  pose proof (sound_analyser _ Hs (sound_running _ Hs Hr)) as Han.
  destruct (sound_arrays _ Hs Han) as [_ [td Htd]].
  unfold processAudioData. rewrite Hr, Han, Hfd, Htd.
  cbn [negb orb mbind option_bind calculateAudioLevel frequencyData].
  match goal with
  | |- context [analyzeFrequencyBands ?a2] =>
      destruct (analyzeFrequencyBands_default a2 (fill freq fd)) as (levels & E & Hl);
      [exact (sound_bands _ Hs) | reflexivity |]; rewrite E
  end.
  cbn [analyser frequencyData timeData isInitialized isRunning currentLevel peakLevel
       levelHistory maxLevelHistory frequencyBands mbind option_bind].
  exists td, levels. eexists. eexists.
  split; [reflexivity | split; [reflexivity | exact Hl]].
Qed.

Lemma updateLevelHistory_length a :
  maxLevelHistory a = 100 -> length (levelHistory a) <= 100 ->
  length (levelHistory (updateLevelHistory a)) <= 100.
Proof.
  intros Hm Hl. unfold updateLevelHistory. cbn [levelHistory]. rewrite Hm.
  destruct (Nat.ltb_spec 100 (length (levelHistory a ++ [currentLevel a]))) as [H | H].
  - rewrite length_drop, length_app. simpl. lia.
  - exact H.
Qed.

Lemma used_sound a : used a -> sound a.
Proof.
  induction 1 as [| n source a _ IH | a _ IH | a _ IH | freq time a a' _ IH E].
  - constructor; cbn; try discriminate; try reflexivity; try lia. left. reflexivity.
  - destruct n as [n |]; [| exact IH].
    destruct IH. constructor; cbn; eauto. destruct source; auto.
  - unfold start. destruct (isInitialized a) eqn:Ei; cbn [negb]; [| exact IH].
    destruct IH. constructor; cbn; eauto.
  - destruct IH. constructor; cbn; eauto. discriminate.
  - destruct (isRunning a) eqn:Er.
    2: { unfold processAudioData in E. rewrite Er in E. injection E as <-. exact IH. }
    pose proof (sound_analyser _ IH (sound_running _ IH Er)) as Han.
    destruct (sound_arrays _ IH Han) as [[fd Hfd] _].
    destruct (processAudioData_running freq time a fd IH Er Hfd)
      as (td & levels & level & peak & Htd & E' & Hl).
    rewrite E' in E. injection E as <-.
    pose proof IH as IH'. destruct IH'.
    constructor; cbn [updateLevelHistory frequencyBands isRunning isInitialized analyser
                      frequencyData timeData bandLevels maxLevelHistory]; eauto.
    + right. specialize (Hl ("bass", (0, 4)) ltac:(apply elem_of_cons; left; reflexivity)).
      cbn [fst snd bandLevel Nat.ltb Nat.leb mbind option_bind] in Hl.
      destruct (sum_bins_exact (take (4 - 0) (drop 0 (fill freq fd)))) as (s & Hs & Hsum).
      { rewrite length_take. lia. }
      rewrite Hsum in Hl. exists s. split.
      * rewrite length_take in Hs. lia.
      * unfold updateLevelHistory. cbn [bandLevels].
        destruct (assoc_get "bass" levels);
          cbn [fmap option_fmap option_map] in Hl; congruence.
    + apply updateLevelHistory_length; assumption.
Qed.

(** X21: the beat detector compares the bass level with 0.7 * 1.5 times
    itself, so in no state that a page can reach does [detectBeat] report
    a beat, however loud the bass is. *)
Theorem detectBeat_never_fires (a : t) : used a -> detectBeat a = false.
Proof.
  intros Hu. destruct (sound_bass _ (used_sound _ Hu)) as [E | (s & Hs & E)];
    unfold detectBeat, getAverageBandLevel, getBandLevel; rewrite E.
  - vm_compute. reflexivity.
  - exact (bass_levels_quiet s Hs).
Qed.

(** X22: with at most 128 bins in the analyser (its default of [fftSize] 256
    gives exactly 128) a running processor analyses without throwing and
    the level of the treble band, bins 128 to 255, is 0 whatever the
    analyser hears. *)
Theorem treble_is_silent (freq time : list Byte.byte) (a : t) (d : list Byte.byte) :
  used a -> isRunning a = true -> frequencyData a = Some d -> length d <= 128 ->
  exists a', processAudioData freq time a = Some a'
             /\ getBandLevel "treble" a' = 0%float.
Proof.
  intros Hu Hr Hd Hlen.
  destruct (processAudioData_running freq time a d (used_sound _ Hu) Hr Hd)
    as (td & levels & level & peak & Htd & E & Hl).
  eexists. split; [exact E |].
  specialize (Hl ("treble", (128, 256))
                 ltac:(unfold defaultBands; rewrite !elem_of_cons; auto 10)).
  cbn [fst snd bandLevel Nat.ltb Nat.leb mbind option_bind] in Hl.
  rewrite drop_ge in Hl by (rewrite length_fill; lia).
  unfold getBandLevel, updateLevelHistory. cbn [bandLevels].
  destruct (assoc_get "treble" levels) as [v |]; [| reflexivity].
  cbn [fmap option_fmap option_map] in Hl. injection Hl as ->. vm_compute. reflexivity.
Qed.

(** X23: the history of levels never holds more than 100 entries. *)
Theorem levelHistory_bounded (a : t) : used a -> length (levelHistory a) <= 100.
Proof. intros Hu. exact (sound_history _ (used_sound _ Hu)). Qed.

End AudioFacts.

Module AudioExamples.
Import JS AudioProcessor AudioFacts.
Local Open Scope nat_scope.

(** A processor initialized on an analyser of 128 bins. *)
Definition initialized : t :=
  mk true (Some (replicate 128 Byte.x00)) (Some (replicate 128 Byte.x00)) true false
     0%float 0%float [] 100 (frequencyBands new) [].

Definition ready : t := start initialized.

Lemma ready_used : used ready.
Proof.
  apply used_start. exact (used_initialize (Some 128) true new used_new).
Defined.

(** Every bin at its maximum. *)
Definition loud : list Byte.byte := replicate 128 Byte.xff.

Definition heard : t :=
  Eval vm_compute in
    match processAudioData loud loud ready with
    | Some a => a
    | None => ready
    end.

Lemma heard_used : used heard.
Proof.
  apply (used_processAudioData loud loud ready); [exact ready_used |].
  vm_compute. reflexivity.
Defined.

(** The loudest possible bass, level 1, is no beat. *)
Lemma detectBeat_never_fires_witness :
  getBandLevel "bass" heard = 1%float /\ detectBeat heard = false.
Proof.
  split; [vm_compute; reflexivity |].
  apply (detectBeat_never_fires heard). exact heard_used.
Defined.

Lemma treble_is_silent_witness :
  exists a', processAudioData loud loud ready = Some a'
             /\ getBandLevel "treble" a' = 0%float.
Proof.
  apply (treble_is_silent loud loud ready (replicate 128 Byte.x00)).
  - exact ready_used.
  - reflexivity.
  - reflexivity.
  - rewrite length_replicate. apply le_n.
Defined.

Lemma levelHistory_bounded_witness : length (levelHistory heard) <= 100.
Proof. apply (levelHistory_bounded heard). exact heard_used. Defined.

End AudioExamples.
